(** * LibChat: the PlayerOne camera examples

    A shallow embedding of the two example programs that drive the PlayerOne
    camera SDK:

    - [examples/C++/POACamera.h], [examples/C++/POACamera.cpp]: the wrapper
      class [POACamera];
    - [examples/C++/main.cpp]: the C++ example program;
    - [examples/C/main.c]: the C example program.

    The SDK itself is a closed binary.  It is modelled as an arbitrary
    deterministic machine over a state ("world") of its own: every SDK entry
    point is a request, the machine answers it and moves to a new world.  The
    programs are written in a small monad that threads the world, collects the
    observable events (SDK calls with their answers, console output, files
    written, console input) and gives the loops of the source a bound on the
    number of iterations that are unfolded. *)

From stdpp Require Import gmap strings list pretty sorting.

Open Scope Z_scope.
Open Scope string_scope.

(** ** Declarations of [PlayerOneCamera.h]

    The header is not part of the sources.  The enumerations are given the
    constants that the sources name; the types whose values the sources only
    compare with one constant are left abstract. *)

Inductive POABool := POA_FALSE | POA_TRUE.

Inductive POAImgFormat := POA_END | POA_RAW8 | POA_RAW16 | POA_RGB24 | POA_MONO8.

Inductive POAValueType := VAL_INT | VAL_FLOAT | VAL_BOOL.

Inductive POAConfig :=
  | POA_EXPOSURE | POA_GAIN | POA_EXP | POA_COOLER | POA_FAN_POWER
  | POA_HEATER_POWER | POA_COOLER_POWER.

#[global] Instance POABool_eq_dec : EqDecision POABool.
Proof. solve_decision. Defined.

#[global] Instance POAImgFormat_eq_dec : EqDecision POAImgFormat.
Proof. solve_decision. Defined.

#[global] Instance POAValueType_eq_dec : EqDecision POAValueType.
Proof. solve_decision. Defined.

#[global] Instance POAConfig_eq_dec : EqDecision POAConfig.
Proof. solve_decision. Defined.

(** What the header leaves to the platform or does not show in the sources:
    the status codes (only [POA_OK] is named), the camera states (only
    [STATE_EXPOSING] is named) and double precision numbers, which are carried
    around but never computed with. *)
Class PlayerOneCamera_h := {
  POAErrors : Type;
  POA_OK : POAErrors;
  POAErrors_eq_dec :: EqDecision POAErrors;
  POACameraState : Type;
  STATE_EXPOSING : POACameraState;
  POACameraState_eq_dec :: EqDecision POACameraState;
  double : Type;
  (** the double written [0.1] and the one written [5.0] in the C example *)
  double_0_1 : double;
  double_5_0 : double;
  (** how [operator<<] and [printf("%lf")] render a double *)
  cout_double : double -> string;
  printf_lf : double -> string;
  (** [const char* POAGetErrorString(POAErrors)] *)
  POAGetErrorString : POAErrors -> string;
}.

(** The order of the keys of a [std::map<int, string>]. *)
Definition key_le (a b : Z * string) : Prop := (a.1 ≤ b.1)%Z.

#[global] Instance key_le_dec : RelDecision key_le.
Proof. intros a b. unfold key_le. apply _. Defined.

(** A pixel buffer is a region of bytes, read by offset. *)
Definition Buffer := nat -> Byte.byte.

Section Examples.

Context `{PlayerOneCamera_h}.

(** [union POAConfigValue] as the SDK hands it back: its three readings. *)
Record POAConfigValue := {
  intValue : Z;
  floatValue : double;
  boolValue : POABool;
}.

(** [union POAConfigValue] as the examples pass it in: a local whose single
    written member is the one named. *)
Inductive POAConfigArg :=
  | arg_intValue (z : Z)
  | arg_floatValue (d : double)
  | arg_boolValue (b : POABool).

Record POAConfigAttributes := {
  szConfName : string;
  szDescription : string;
  isWritable : POABool;
  isReadable : POABool;
  valueType : POAValueType;
  minValue : POAConfigValue;
  maxValue : POAConfigValue;
  defaultValue : POAConfigValue;
}.

Record POACameraProperties := {
  cameraModelName : string;
  cameraID : Z;
  SN : string;
  sensorModelName : string;
  maxWidth : Z;
  maxHeight : Z;
  bins : nat → Z;
  isHasCooler : POABool;
}.

Record POASensorModeInfo := {
  name : string;
  desc : string;
}.

(** ** The SDK entry points

    [SdkCall R] is a call with its arguments; [R] is what comes back: the
    returned value together with the content of the variables the call was
    given a pointer to, as they are when the call returns. *)
Inductive SdkCall : Type -> Type :=
  | POAGetCameraCount : SdkCall Z
  | POAGetCameraProperties (nIndex : Z) : SdkCall (POAErrors * POACameraProperties)
  | POAOpenCamera (nCameraID : Z) : SdkCall POAErrors
  | POAInitCamera (nCameraID : Z) : SdkCall POAErrors
  | POACloseCamera (nCameraID : Z) : SdkCall POAErrors
  | POAGetConfigsCount (nCameraID : Z) : SdkCall (POAErrors * Z)
  | POAGetConfigAttributes (nCameraID nConfIndex : Z)
      : SdkCall (POAErrors * POAConfigAttributes)
  | POAGetCameraState (nCameraID : Z) : SdkCall (POAErrors * POACameraState)
  | POAStopExposure (nCameraID : Z) : SdkCall POAErrors
  | POAStartExposure (nCameraID : Z) (bSignalFrame : POABool) : SdkCall POAErrors
  | POASetImageSize (nCameraID width height : Z) : SdkCall POAErrors
  | POAGetImageSize (nCameraID : Z) : SdkCall (POAErrors * (Z * Z))
  | POASetImageStartPos (nCameraID startX startY : Z) : SdkCall POAErrors
  | POAGetImageStartPos (nCameraID : Z) : SdkCall (POAErrors * (Z * Z))
  | POASetImageFormat (nCameraID : Z) (imgFormat : POAImgFormat) : SdkCall POAErrors
  | POAGetImageFormat (nCameraID : Z) : SdkCall (POAErrors * POAImgFormat)
  | POASetImageBin (nCameraID bin : Z) : SdkCall POAErrors
  | POASetConfig (nCameraID : Z) (confID : POAConfig) (confValue : POAConfigArg)
      (isAuto : POABool) : SdkCall POAErrors
  | POAGetConfig (nCameraID : Z) (confID : POAConfig)
      : SdkCall (POAErrors * (POAConfigValue * POABool))
  | POAImageReady (nCameraID : Z) : SdkCall (POAErrors * POABool)
  | POAGetImageData (nCameraID : Z) (lBufSize : Z) (nTimeoutms : Z)
      : SdkCall (POAErrors * Buffer)
  | POAGetSensorModeCount (nCameraID : Z) : SdkCall (POAErrors * Z)
  | POAGetSensorModeInfo (nCameraID index : Z) : SdkCall (POAErrors * POASensorModeInfo)
  | POAGetSensorMode (nCameraID : Z) : SdkCall (POAErrors * Z)
  | POASetSensorMode (nCameraID modeIndex : Z) : SdkCall POAErrors.

(** The SDK: a world and the answer to every call. *)
Class PlayerOneCamera_lib (World : Type) :=
  sdk : ∀ R, SdkCall R → World → R * World.

(** ** Observable events *)
Inductive Event :=
  | EvCall {R : Type} (c : SdkCall R) (r : R)
  | EvStdout (s : string)
  | EvStderr (s : string)
  (** the file is created or emptied, and opened for binary output *)
  | EvFileOpen (fileName : string)
  (** [n] bytes of [buf] are written to the open file *)
  | EvFileWrite (fileName : string) (buf : Buffer) (n : Z)
  | EvFileClose (fileName : string)
  (** [new unsigned char[n]], [malloc(n)] for a pixel buffer *)
  | EvAllocBuffer (n : Z)
  | EvGetchar.

(** The bytes that end up in the file. *)
Definition file_bytes (buf : Buffer) (n : Z) : list Byte.byte :=
  buf <$> seq 0 (Z.to_nat n).

(** ** The monad of the examples *)
Section Programs.

Context {World : Type} `{!PlayerOneCamera_lib World}.

Inductive Res (A : Type) :=
  | Ret (a : A) (w : World) (t : list Event)
  | OutOfFuel (t : list Event).

#[global] Arguments Ret {A} a w t.
#[global] Arguments OutOfFuel {A} t.

Definition M (A : Type) := World → Res A.

Definition ret {A} (a : A) : M A := λ w, Ret a w [].

Definition bind {A B} (m : M A) (f : A → M B) : M B := λ w,
  match m w with
  | Ret a w' t =>
      match f a w' with
      | Ret b w'' t' => Ret b w'' (t ++ t')
      | OutOfFuel t' => OutOfFuel (t ++ t')
      end
  | OutOfFuel t => OutOfFuel t
  end.

Definition emit (e : Event) : M unit := λ w, Ret () w [e].

Definition out_of_fuel {A} : M A := λ _, OutOfFuel [].

(** One call into the SDK: the world answers and the call is recorded. *)
Definition call {R} (c : SdkCall R) : M R := λ w,
  let '(r, w') := sdk R c w in Ret r w' [EvCall c r].

Definition trace_of {A} (r : Res A) : list Event :=
  match r with Ret _ _ t => t | OutOfFuel t => t end.

Notation "'let*' x ':=' m 'in' k" := (bind m (λ x, k))
  (at level 10, x pattern, m at level 100, k at level 200, only parsing).
Notation "m ;;; k" := (bind m (λ _, k))
  (at level 100, right associativity, only parsing).

(** ** Control structures of the sources *)

(** [if (c) { m }] *)
Definition when (c : bool) (m : M unit) : M unit := if c then m else ret ().

(** [for (i = first; ...; i++) body], for the [n] iterations that are left. *)
Fixpoint for_from {S} (n : nat) (i : Z) (body : Z → S → M S) (s : S) : M S :=
  match n with
  | O => ret s
  | S n' => let* s' := body i s in for_from n' (i + 1) body s'
  end.

(** [for (i = 0; i < count; i++) body] *)
Definition for_upto {S} (count : Z) (body : Z → S → M S) (s : S) : M S :=
  for_from (Z.to_nat count) 0 body s.

(** [while (cond) body] over the variables [s] of the loop; at most [fuel]
    iterations are unfolded. *)
Fixpoint while {S} (fuel : nat) (cond : S → M bool) (body : S → M S) (s : S)
    : M S :=
  let* b := cond s in
  if b then
    match fuel with
    | O => out_of_fuel
    | S fuel' => let* s' := body s in while fuel' cond body s'
    end
  else ret s.

(** [do body while (cond)], where the body assigns the variable [s] of the
    loop without reading it *)
Definition do_while {S} (fuel : nat) (cond : S → M bool) (body : M S) : M S :=
  let* s := body in while fuel cond (λ _, body) s.

(** [for (iter = l.begin(); iter != l.end(); iter++) body] *)
Fixpoint for_each {A} (l : list A) (body : A → M unit) : M unit :=
  match l with
  | [] => ret ()
  | x :: l' => body x ;;; for_each l' body
  end.

(** ** Console output *)

Definition endl : string := String (Ascii.ascii_of_nat 10) "".

Definition cout (s : string) : M unit := emit (EvStdout s).
Definition cerr (s : string) : M unit := emit (EvStderr s).
Definition printf (s : string) : M unit := emit (EvStdout s).
Definition getchar : M unit := emit EvGetchar.

(** An enumeration constant printed as a number. *)
Definition int_of_POABool (b : POABool) : Z :=
  match b with POA_FALSE => 0 | POA_TRUE => 1 end.

(** [error == POA_OK], [error != POA_OK] *)
Definition is_ok (error : POAErrors) : bool := bool_decide (error = POA_OK).
Definition not_ok (error : POAErrors) : bool := negb (is_ok error).

(** ** [POACamera.h] *)

Record ROIArea := {
  startX : Z;
  startY : Z;
  width : Z;
  height : Z;
}.

Definition ROIArea_ctor : ROIArea :=
  {| startX := 0; startY := 0; width := 0; height := 0 |}.

Inductive ImageFormat := RAW8 | RAW16 | RGB888 | MONO8.

Record POACamera := {
  m_nCameraID : Z;
}.

(** ** [POACamera.cpp] *)

Definition POACamera_ctor0 : POACamera := {| m_nCameraID := -1 |}.

Definition POACamera_ctor (nCameraID : Z) : POACamera :=
  {| m_nCameraID := nCameraID |}.

(** [std::map::insert]: an existing key keeps its value. *)
Definition map_insert (k : Z) (v : string) (m : gmap Z string) : gmap Z string :=
  match m !! k with
  | Some _ => m
  | None => <[k:=v]> m
  end.

Definition getALLCameraIDName : M (gmap Z string) :=
  let* camera_count := call POAGetCameraCount in
  for_upto camera_count (λ i cameraIDName,
    let* (error, cameraProp) := call (POAGetCameraProperties i) in
    if not_ok error then ret cameraIDName
    else ret (map_insert (cameraID cameraProp) (cameraModelName cameraProp)
                cameraIDName)) ∅.

Definition openCamera (this : POACamera) : M bool :=
  let* error := call (POAOpenCamera (m_nCameraID this)) in
  when (not_ok error)
    (cerr ("Open camera failed！, error code: " +:+ POAGetErrorString error +:+ endl)) ;;;
  ret (is_ok error).

Definition initCamera (this : POACamera) : M bool :=
  let* error := call (POAInitCamera (m_nCameraID this)) in
  when (not_ok error)
    (cerr ("Init camera failed！, error code: " +:+ POAGetErrorString error +:+ endl)) ;;;
  ret (is_ok error).

Definition getAllConfigAttributes (this : POACamera) : M unit :=
  let* (error, config_count) := call (POAGetConfigsCount (m_nCameraID this)) in
  if not_ok error then
    cerr ("Get config count failed！, error code: " +:+ POAGetErrorString error +:+ endl)
  else
    for_upto config_count (λ i _,
      let* (error, confAttributes) :=
        call (POAGetConfigAttributes (m_nCameraID this) i) in
      if not_ok error then
        cerr ("Get config attributes failed！, index: " +:+ pretty i
              +:+ ", error code: " +:+ POAGetErrorString error +:+ endl)
      else
        cout endl ;;;
        cout ("config name: " +:+ szConfName confAttributes
              +:+ ", config description: " +:+ szDescription confAttributes +:+ endl) ;;;
        cout ("is writable: " +:+ pretty (int_of_POABool (isWritable confAttributes))
              +:+ endl) ;;;
        cout ("is readable: " +:+ pretty (int_of_POABool (isReadable confAttributes))
              +:+ endl) ;;;
        match valueType confAttributes with
        | VAL_INT =>
            cout ("min: " +:+ pretty (intValue (minValue confAttributes))
                  +:+ ", max: " +:+ pretty (intValue (maxValue confAttributes))
                  +:+ ", default: " +:+ pretty (intValue (defaultValue confAttributes))
                  +:+ endl)
        | VAL_FLOAT =>
            cout ("min: " +:+ cout_double (floatValue (minValue confAttributes))
                  +:+ ", max: " +:+ cout_double (floatValue (maxValue confAttributes))
                  +:+ ", default: "
                  +:+ cout_double (floatValue (defaultValue confAttributes))
                  +:+ endl)
        | VAL_BOOL =>
            cout ("default is on: "
                  +:+ pretty (int_of_POABool (boolValue (defaultValue confAttributes)))
                  +:+ endl)
        end) ().

(** The opening of [setROIArea], [setImageSize] and [setImageFormat]: the
    state is asked for and an exposure under way is stopped; neither status is
    looked at. *)
Definition stop_if_exposing (this : POACamera) : M unit :=
  let* (_, cameraState) := call (POAGetCameraState (m_nCameraID this)) in
  if bool_decide (cameraState = STATE_EXPOSING) then
    let* _ := call (POAStopExposure (m_nCameraID this)) in ret ()
  else ret ().

Definition setROIArea (this : POACamera) (roiArea : ROIArea) : M bool :=
  stop_if_exposing this ;;;
  let* error :=
    call (POASetImageSize (m_nCameraID this) (width roiArea) (height roiArea)) in
  if not_ok error then
    cerr ("set resolution failed, error code: " +:+ POAGetErrorString error +:+ endl) ;;;
    ret false
  else
    let* error :=
      call (POASetImageStartPos (m_nCameraID this) (startX roiArea) (startY roiArea)) in
    if not_ok error then
      cerr ("set start position failed, error code: " +:+ POAGetErrorString error
            +:+ endl) ;;;
      ret false
    else ret true.

Definition getROIArea (this : POACamera) : M ROIArea :=
  let* (error, (x, y)) := call (POAGetImageStartPos (m_nCameraID this)) in
  when (not_ok error)
    (cerr ("get start position failed, error code: " +:+ POAGetErrorString error
           +:+ endl)) ;;;
  let* (error, (w, h)) := call (POAGetImageSize (m_nCameraID this)) in
  when (not_ok error)
    (cerr ("get resolution failed, error code: " +:+ POAGetErrorString error +:+ endl)) ;;;
  ret {| startX := x; startY := y; width := w; height := h |}.

Definition setImageSize (this : POACamera) (width height : Z) : M bool :=
  stop_if_exposing this ;;;
  let* error := call (POASetImageSize (m_nCameraID this) width height) in
  if not_ok error then
    cerr ("set resolution failed, error code: " +:+ POAGetErrorString error +:+ endl) ;;;
    ret false
  else ret true.

Definition setImageStartPos (this : POACamera) (startX startY : Z) : M bool :=
  let* error := call (POASetImageStartPos (m_nCameraID this) startX startY) in
  if not_ok error then
    cerr ("set start position failed, error code: " +:+ POAGetErrorString error
          +:+ endl) ;;;
    ret false
  else ret true.

(** The [switch] of [setImageFormat]. *)
Definition to_POAImgFormat (imgFmt : ImageFormat) : POAImgFormat :=
  match imgFmt with
  | RAW8 => POA_RAW8
  | RAW16 => POA_RAW16
  | RGB888 => POA_RGB24
  | MONO8 => POA_MONO8
  end.

Definition setImageFormat (this : POACamera) (imgFmt : ImageFormat) : M bool :=
  stop_if_exposing this ;;;
  let poaImgFmt := to_POAImgFormat imgFmt in
  let* error := call (POASetImageFormat (m_nCameraID this) poaImgFmt) in
  if not_ok error then
    cerr ("set image format failed, error code: " +:+ POAGetErrorString error +:+ endl) ;;;
    ret false
  else ret true.

(** The [switch] of [getImageFormat]. *)
Definition of_POAImgFormat (poaImgFmt : POAImgFormat) : ImageFormat :=
  match poaImgFmt with
  | POA_RAW8 => RAW8
  | POA_RAW16 => RAW16
  | POA_RGB24 => RGB888
  | POA_MONO8 => MONO8
  | POA_END => RAW8
  end.

Definition getImageFormat (this : POACamera) : M ImageFormat :=
  let* (error, poaImgFmt) := call (POAGetImageFormat (m_nCameraID this)) in
  when (not_ok error)
    (cerr ("get image format failed, error code: " +:+ POAGetErrorString error
           +:+ endl)) ;;;
  ret (of_POAImgFormat poaImgFmt).

(** [isAuto ? POA_TRUE : POA_FALSE] *)
Definition POABool_of_bool (b : bool) : POABool := if b then POA_TRUE else POA_FALSE.

Definition setExposure (this : POACamera) (expoUs : Z) (isAuto : bool) : M bool :=
  let exposValue := arg_intValue expoUs in
  let* error := call (POASetConfig (m_nCameraID this) POA_EXPOSURE exposValue
                        (POABool_of_bool isAuto)) in
  if not_ok error then
    cerr ("set exposure failed, error code: " +:+ POAGetErrorString error +:+ endl) ;;;
    ret false
  else ret true.

Definition getExposure (this : POACamera) : M Z :=
  let* (error, (exposValue, boolValue)) :=
    call (POAGetConfig (m_nCameraID this) POA_EXPOSURE) in
  if not_ok error then
    cerr ("get exposure failed, error code: " +:+ POAGetErrorString error +:+ endl) ;;;
    ret (-1)
  else ret (intValue exposValue).

Definition setGain (this : POACamera) (gain : Z) (isAuto : bool) : M bool :=
  let gainValue := arg_intValue gain in
  let* error := call (POASetConfig (m_nCameraID this) POA_GAIN gainValue
                        (POABool_of_bool isAuto)) in
  if not_ok error then
    cerr ("set gain failed, error code: " +:+ POAGetErrorString error +:+ endl) ;;;
    ret false
  else ret true.

Definition getGain (this : POACamera) : M Z :=
  let* (error, (gainValue, boolValue)) :=
    call (POAGetConfig (m_nCameraID this) POA_GAIN) in
  if not_ok error then
    cerr ("get gain failed, error code: " +:+ POAGetErrorString error +:+ endl) ;;;
    ret (-1)
  else ret (intValue gainValue).

Definition startExposure (this : POACamera) : M bool :=
  let* error := call (POAStartExposure (m_nCameraID this) POA_FALSE) in
  if not_ok error then
    cerr ("start exposure failed, error code: " +:+ POAGetErrorString error +:+ endl) ;;;
    ret false
  else ret true.

Definition isImgDataAvailable (this : POACamera) : M bool :=
  let* (error, pIsReady) := call (POAImageReady (m_nCameraID this)) in
  if not_ok error then ret false
  else ret (bool_decide (pIsReady = POA_TRUE)).

(** The buffer [pDataBuffer] points to is filled by the SDK; its content after
    the call is handed back together with the result. *)
Definition getImageData (this : POACamera) (size : Z) : M (bool * Buffer) :=
  let* exposureUs := getExposure this in
  let* (error, pDataBuffer) :=
    call (POAGetImageData (m_nCameraID this) size (exposureUs `quot` 1000 + 500)) in
  ret (is_ok error, pDataBuffer).

Definition stopExposure (this : POACamera) : M bool :=
  let* error := call (POAStopExposure (m_nCameraID this)) in
  if not_ok error then
    cerr ("stop exposure failed, error code: " +:+ POAGetErrorString error +:+ endl) ;;;
    ret false
  else ret true.

Definition closeCamera (this : POACamera) : M bool :=
  let* error := call (POACloseCamera (m_nCameraID this)) in
  if not_ok error then
    cerr ("clsoe camera failed, error code: " +:+ POAGetErrorString error +:+ endl) ;;;
    ret false
  else ret true.

Definition getCameraID (this : POACamera) : Z := m_nCameraID this.

Definition setCameraID (this : POACamera) (nCameraID : Z) : POACamera :=
  {| m_nCameraID := nCameraID |}.

(** ** [main.cpp] *)

(** The entries of a [std::map<int, string>] in the order of iteration:
    ascending keys. *)
Definition map_entries (m : gmap Z string) : list (Z * string) :=
  merge_sort key_le (map_to_list m).

(** [while(!pCamera->isImgDataAvailable()) { }] *)
Definition wait_image (fuel : nat) (pCamera : POACamera) : M unit :=
  while fuel (λ _, let* b := isImgDataAvailable pCamera in ret (negb b))
    (λ _, ret ()) ().

(** One turn of the capture loop of [main.cpp]; the result is [img_cout] at
    the end of the turn. *)
Definition cpp_capture_frame (fuel : nat) (pCamera : POACamera) (img_cout : Z) : M Z :=
  wait_image fuel pCamera ;;;
  let* (ok, pDataBuffer) := getImageData pCamera (800 * 480) in
  if negb ok then
    cout ("get image data failed!" +:+ endl) ;;;
    ret img_cout
  else
    let fileName := pretty img_cout +:+ "_raw8_image_data.bin" in
    emit (EvFileOpen fileName) ;;;
    cout ("writing: " +:+ fileName +:+ endl) ;;;
    emit (EvFileWrite fileName pDataBuffer (800 * 480)) ;;;
    emit (EvFileClose fileName) ;;;
    ret (img_cout - 1).

(** [while(img_cout > 0) { ... }] *)
Definition cpp_capture (fuel : nat) (pCamera : POACamera) (img_cout : Z) : M Z :=
  while fuel (λ img_cout, ret (bool_decide (img_cout > 0)%Z))
    (cpp_capture_frame fuel pCamera) img_cout.

(** The body of [if(allCameraIDName.size() > 0)], for the camera [iter]
    points to. *)
Definition cpp_operate (fuel : nat) (iter : Z * string) : M unit :=
  let pCamera := POACamera_ctor iter.1 in
  let* b := openCamera pCamera in
  when (negb b) (cout ("open camera failed!" +:+ endl)) ;;;
  let* b := initCamera pCamera in
  when (negb b) (cout ("init camera failed!" +:+ endl)) ;;;
  getAllConfigAttributes pCamera ;;;
  let* b := setImageSize pCamera 800 480 in
  when (negb b) (cout ("set image size failed!" +:+ endl)) ;;;
  let* b := setImageStartPos pCamera 100 100 in
  when (negb b) (cout ("set start position failed!" +:+ endl)) ;;;
  let* b := setImageFormat pCamera RAW8 in
  when (negb b) (cout ("set image format failed!" +:+ endl)) ;;;
  let* b := setExposure pCamera 100000 false in
  when (negb b) (cout ("set exposure failed!" +:+ endl)) ;;;
  let* b := setGain pCamera 50 false in
  when (negb b) (cout ("set gain failed!" +:+ endl)) ;;;
  let* b := startExposure pCamera in
  when (negb b) (cout ("start exposure failed!" +:+ endl)) ;;;
  emit (EvAllocBuffer (800 * 480)) ;;;
  let img_cout := 10 in
  let* _ := cpp_capture fuel pCamera img_cout in
  let* _ := closeCamera pCamera in
  cout ("camera closed!" +:+ endl).

Definition cpp_main (fuel : nat) : M Z :=
  let* allCameraIDName := getALLCameraIDName in
  for_each (map_entries allCameraIDName) (λ iter,
    cout (pretty iter.1 +:+ "  " +:+ iter.2 +:+ endl)) ;;;
  match map_entries allCameraIDName with
  | iter :: _ => cpp_operate fuel iter
  | [] => ret ()
  end ;;;
  getchar ;;;
  ret 0.

(** ** [main.c] *)

(** [while(pIsReady == POA_FALSE) { POAImageReady(id, &pIsReady); }] *)
Definition c_wait_image (fuel : nat) (id : Z) : M POABool :=
  let pIsReady := POA_FALSE in
  while fuel (λ pIsReady, ret (bool_decide (pIsReady = POA_FALSE)))
    (λ _, let* (_, pIsReady) := call (POAImageReady id) in ret pIsReady)
    pIsReady.

(** One turn of the first capture loop of [main.c]. *)
Definition c_capture_frame (fuel : nat) (id buffer_size exposure_us img_cout : Z)
    : M Z :=
  let* _ := c_wait_image fuel id in
  let* (error, data_buffer) :=
    call (POAGetImageData id buffer_size (exposure_us `quot` 1000 + 500)) in
  if not_ok error then
    printf ("get image data failed, error code: " +:+ POAGetErrorString error
            +:+ " " +:+ endl) ;;;
    ret img_cout
  else
    let str := pretty img_cout +:+ "_raw16_image_data.bin" in
    printf ("saving data: " +:+ str +:+ " " +:+ endl) ;;;
    emit (EvFileOpen str) ;;;
    emit (EvFileWrite str data_buffer buffer_size) ;;;
    emit (EvFileClose str) ;;;
    ret (img_cout - 1).

Definition c_capture (fuel : nat) (id buffer_size exposure_us img_cout : Z) : M Z :=
  while fuel (λ img_cout, ret (bool_decide (img_cout > 0)%Z))
    (c_capture_frame fuel id buffer_size exposure_us) img_cout.

(** One turn of the video loop of [main.c], entered with [count] already
    incremented. *)
Definition c_video_frame (fuel : nat) (id buffer_size exposure_us count : Z)
    : M Z :=
  printf ("get image data: " +:+ pretty count +:+ " " +:+ endl) ;;;
  let* _ := c_wait_image fuel id in
  let* (error, data_buffer) :=
    call (POAGetImageData id buffer_size (exposure_us `quot` 1000 + 500)) in
  when (not_ok error)
    (printf ("get image data failed, error code: " +:+ POAGetErrorString error
             +:+ " " +:+ endl)) ;;;
  ret count.

(** [while(1) { if(count++ > 20) break; ... }]: the counter is incremented at
    every test, also at the one that leaves the loop. *)
Definition c_video (fuel : nat) (id buffer_size exposure_us count : Z) : M Z :=
  let* count :=
    while fuel (λ count, ret (negb (bool_decide (count > 20)%Z)))
      (λ count, c_video_frame fuel id buffer_size exposure_us (count + 1))
      count in
  ret (count + 1)%Z.

Definition c_list_cameras (camera_count : Z) : M (list POACameraProperties) :=
  for_upto camera_count (λ i (ppPOACamProp : list POACameraProperties),
    let* (error, prop) := call (POAGetCameraProperties i) in
    (if is_ok error then
       printf ("camera ID: " +:+ pretty (cameraID prop) +:+ ", camera name: "
               +:+ cameraModelName prop +:+ " " +:+ endl) ;;;
       printf ("camera SN: " +:+ SN prop +:+ ", camera Sensor Name: "
               +:+ sensorModelName prop +:+ " " +:+ endl)
     else
       printf ("get camera properties failed, index: " +:+ pretty i
               +:+ ", error code: " +:+ POAGetErrorString error +:+ " " +:+ endl)) ;;;
    ret (ppPOACamProp ++ [prop])%list) [].

Definition c_list_configs (id config_count : Z) : M unit :=
  for_upto config_count (λ i _,
    let* (error, attr) := call (POAGetConfigAttributes id i) in
    if is_ok error then
      printf endl ;;;
      printf ("config name: " +:+ szConfName attr +:+ ", config description: "
              +:+ szDescription attr +:+ " " +:+ endl) ;;;
      printf ("is writable: " +:+ pretty (int_of_POABool (isWritable attr))
              +:+ " " +:+ endl) ;;;
      printf ("is readable: " +:+ pretty (int_of_POABool (isReadable attr))
              +:+ " " +:+ endl) ;;;
      match valueType attr with
      | VAL_INT =>
          printf ("min: " +:+ pretty (intValue (minValue attr))
                  +:+ ", max: " +:+ pretty (intValue (maxValue attr))
                  +:+ ", default: " +:+ pretty (intValue (defaultValue attr))
                  +:+ " " +:+ endl)
      | VAL_FLOAT =>
          printf ("min: " +:+ printf_lf (floatValue (minValue attr))
                  +:+ ", max: " +:+ printf_lf (floatValue (maxValue attr))
                  +:+ ", default: " +:+ printf_lf (floatValue (defaultValue attr))
                  +:+ " " +:+ endl)
      | VAL_BOOL =>
          printf ("default is on: "
                  +:+ pretty (int_of_POABool (boolValue (defaultValue attr)))
                  +:+ " " +:+ endl)
      end
    else
      printf ("get config attributes failed, index: " +:+ pretty i
              +:+ ", error code: " +:+ POAGetErrorString error +:+ " " +:+ endl)) ().

(** The cooler settings of [main.c]. *)
Definition c_cooler (prop : POACameraProperties) : M unit :=
  let id := cameraID prop in
  if bool_decide (isHasCooler prop = POA_TRUE) then
    let* _ := call (POASetConfig id POA_COOLER (arg_boolValue POA_TRUE) POA_FALSE) in
    printf ("Set cooler on! " +:+ endl) ;;;
    let* _ := call (POASetConfig id POA_FAN_POWER (arg_intValue 80) POA_FALSE) in
    printf ("Set fan power to " +:+ pretty 80 +:+ " " +:+ endl) ;;;
    let* _ := call (POASetConfig id POA_HEATER_POWER (arg_intValue 30) POA_FALSE) in
    printf ("Set heater power to " +:+ pretty 30 +:+ " " +:+ endl) ;;;
    let* (_, (cooler_power_value, _)) := call (POAGetConfig id POA_COOLER_POWER) in
    printf ("Get current cool power " +:+ pretty (intValue cooler_power_value)
            +:+ " " +:+ endl)
  else
    printf ("This camera is not cool camera " +:+ endl).

(** The sensor mode settings of [main.c]. *)
Definition c_sensor_mode (id : Z) : M unit :=
  let* (_, senModeCount) := call (POAGetSensorModeCount id) in
  if bool_decide (senModeCount ≤ 0)%Z then
    printf ("This camera does not support sensor mode setting " +:+ endl)
  else
    for_upto senModeCount (λ ii _,
      let* (error, pSenModeInfo) := call (POAGetSensorModeInfo id ii) in
      when (is_ok error)
        (printf ("index: " +:+ pretty ii +:+ ", sensor mode name: "
                 +:+ name pSenModeInfo +:+ ", description: " +:+ desc pSenModeInfo
                 +:+ " " +:+ endl))) () ;;;
    let* (_, modeIndex) := call (POAGetSensorMode id) in
    printf ("Get current sensor mode index: " +:+ pretty modeIndex +:+ " " +:+ endl) ;;;
    let modeIndex := 1 in
    let* _ := call (POASetSensorMode id modeIndex) in
    printf ("Set sensor mode index to " +:+ pretty modeIndex +:+ " " +:+ endl).

(** [main.c] from the setting of the camera parameters on: what follows the
    listing of the configuration attributes. *)
Definition c_operate (fuel : nat) (prop : POACameraProperties) : M unit :=
  let id := cameraID prop in
  let* (_, cameraState) := call (POAGetCameraState id) in
  (if bool_decide (cameraState = STATE_EXPOSING) then
     let* _ := call (POAStopExposure id) in ret ()
   else ret ()) ;;;
  let* error := call (POASetImageBin id (bins prop 1)) in
  when (not_ok error)
    (printf ("set bin failed, error code: " +:+ POAGetErrorString error +:+ " " +:+ endl)) ;;;
  let* (error, (startX, startY)) := call (POAGetImageStartPos id) in
  let* (startX, startY) :=
    if not_ok error then
      printf ("Get Image Start Pos failed, error code: " +:+ POAGetErrorString error
              +:+ " " +:+ endl) ;;;
      ret (0, 0)
    else ret (startX, startY) in
  let* (error, (width, height)) := call (POAGetImageSize id) in
  let* (width, height) :=
    if not_ok error then
      printf ("Get Image Size failed, error code: " +:+ POAGetErrorString error
              +:+ " " +:+ endl) ;;;
      ret (maxWidth prop `quot` bins prop 1, maxHeight prop `quot` bins prop 1)
    else ret (width, height) in
  let width := width - 50 in
  let height := height - 20 in
  let width := width `quot` 4 * 4 in
  let height := height `quot` 2 * 2 in
  let* error := call (POASetImageSize id width height) in
  when (not_ok error)
    (printf ("set resolution failed, error code: " +:+ POAGetErrorString error
             +:+ " " +:+ endl)) ;;;
  let startX := startX + 20 in
  let startY := startY + 10 in
  let* error := call (POASetImageStartPos id startX startY) in
  when (not_ok error)
    (printf ("set start position failed, error code: " +:+ POAGetErrorString error
             +:+ " " +:+ endl)) ;;;
  let* error := call (POASetImageFormat id POA_RAW16) in
  when (not_ok error)
    (printf ("set image format failed, error code: " +:+ POAGetErrorString error
             +:+ " " +:+ endl)) ;;;
  let exposure_us := 100000 in
  let* _ := call (POASetConfig id POA_EXPOSURE (arg_intValue exposure_us) POA_FALSE) in
  let* error := call (POASetConfig id POA_EXP (arg_floatValue double_0_1) POA_FALSE) in
  when (not_ok error)
    (printf ("set exposure failed, error code: " +:+ POAGetErrorString error
             +:+ " " +:+ endl)) ;;;
  let gain := 100 in
  let* error := call (POASetConfig id POA_GAIN (arg_intValue gain) POA_FALSE) in
  when (not_ok error)
    (printf ("set exposure failed, error code: " +:+ POAGetErrorString error
             +:+ " " +:+ endl)) ;;;
  let buffer_size := width * height * 2 in
  emit (EvAllocBuffer buffer_size) ;;;
  let* error := call (POAStartExposure id POA_FALSE) in
  when (not_ok error)
    (printf ("start exposure failed, error code: " +:+ POAGetErrorString error
             +:+ " " +:+ endl)) ;;;
  let img_cout := 10 in
  let* _ := c_capture fuel id buffer_size exposure_us img_cout in
  let* _ := call (POAStopExposure id) in
  let exposure_us := 5000000 in
  let* _ := call (POASetConfig id POA_EXPOSURE (arg_intValue exposure_us) POA_FALSE) in
  let* error := call (POASetConfig id POA_EXP (arg_floatValue double_5_0) POA_FALSE) in
  when (not_ok error)
    (printf ("set exposure failed, error code: " +:+ POAGetErrorString error
             +:+ " " +:+ endl)) ;;;
  printf ("start long exposure, single frame: " +:+ endl) ;;;
  let* _ := call (POAStartExposure id POA_TRUE) in
  printf ("Please waiting 5s...: " +:+ endl) ;;;
  let* _ :=
    do_while fuel (λ cmeraState, ret (bool_decide (cmeraState = STATE_EXPOSING)))
      (let* (_, cmeraState) := call (POAGetCameraState id) in ret cmeraState) in
  let* (_, pIsReady) := call (POAImageReady id) in
  (if bool_decide (pIsReady = POA_TRUE) then
     printf ("single frame exposure success " +:+ endl) ;;;
     let* (error, _) :=
       call (POAGetImageData id buffer_size (exposure_us `quot` 1000 + 500)) in
     when (not_ok error)
       (printf ("get image data failed, error code: " +:+ POAGetErrorString error
                +:+ " " +:+ endl))
   else
     printf ("single frame exposure failed " +:+ endl)) ;;;
  let exposure_us := 100000 in
  let* _ := call (POASetConfig id POA_EXPOSURE (arg_intValue exposure_us) POA_FALSE) in
  printf ("set exposure to: " +:+ pretty (exposure_us `quot` 1000) +:+ " ms" +:+ endl) ;;;
  let* error := call (POAStartExposure id POA_FALSE) in
  (if is_ok error then
     let pixelBytes := 2 in
     let buffer_size := width * height * pixelBytes in
     emit (EvAllocBuffer buffer_size) ;;;
     let count := 0 in
     let* _ := c_video fuel id buffer_size exposure_us count in ret ()
   else
     printf ("Video Mode: start exposure failed, error code: "
             +:+ POAGetErrorString error +:+ " " +:+ endl)) ;;;
  let* _ := call (POAStopExposure id) in
  c_cooler prop ;;;
  c_sensor_mode id ;;;
  let* _ := call (POACloseCamera id) in
  printf ("camera closed! " +:+ endl).

Definition c_main (fuel : nat) : M Z :=
  let* camera_count := call POAGetCameraCount in
  printf ("camera count: " +:+ pretty camera_count +:+ endl) ;;;
  if bool_decide (camera_count ≤ 0)%Z then
    printf ("there is no Player One Camera!" +:+ endl) ;;;
    getchar ;;;
    ret 0
  else
    let* ppPOACamProp := c_list_cameras camera_count in
    match ppPOACamProp !! 0%nat with
    | None => ret 0
    | Some prop =>
        let id := cameraID prop in
        let* error := call (POAOpenCamera id) in
        if not_ok error then
          printf ("Open camera failed！, error code: " +:+ POAGetErrorString error
                  +:+ " " +:+ endl) ;;;
          ret 0
        else
          let* error := call (POAInitCamera id) in
          if not_ok error then
            printf ("Init camera failed！, error code: " +:+ POAGetErrorString error
                    +:+ " " +:+ endl) ;;;
            ret 0
          else
            let* (error, config_count) := call (POAGetConfigsCount id) in
            if not_ok error then
              printf ("Get config count failed！, error code: "
                      +:+ POAGetErrorString error +:+ " " +:+ endl) ;;;
              ret 0
            else
              c_list_configs id config_count ;;;
              c_operate fuel prop ;;;
              getchar ;;;
              ret 0
    end.

(** A property of traces that holds of the empty trace and is kept by
    putting traces one after the other holds of every program built from
    pieces it holds of. *)
Class Sequential (P : list Event → Prop) := {
  seq_nil : P [];
  seq_app t1 t2 : P t1 → P t2 → P (t1 ++ t2)%list;
}.

Definition obeys {A} (P : list Event → Prop) (m : M A) : Prop :=
  ∀ w, P (trace_of (m w)).

(** The program comes to an end without any bound on its loops. *)
Definition total {A} (m : M A) : Prop :=
  ∀ w, ∃ a w' t, m w = Ret a w' t.

(** A judgement on the trace gathered so far: a run of [m] that starts when
    the trace satisfies [Pre] brings it to satisfy [Post], or [Part] if a loop
    runs out of fuel on the way. *)
Definition triple {A} (Pre : list Event → Prop) (m : M A)
    (Post : A → list Event → Prop) (Part : list Event → Prop) : Prop :=
  ∀ w t0, Pre t0 →
    match m w with
    | Ret a _ t => Post a (t0 ++ t)%list
    | OutOfFuel t => Part (t0 ++ t)%list
    end.

(** ** The operations of [POACamera] as one family

    [invoke m this] runs the member function [m] on the object [this]; the
    result is the returned value and the object as the call leaves it. *)

Inductive Method :=
  | m_openCamera
  | m_initCamera
  | m_getAllConfigAttributes
  | m_setROIArea (roiArea : ROIArea)
  | m_getROIArea
  | m_setImageSize (width height : Z)
  | m_setImageStartPos (startX startY : Z)
  | m_setImageFormat (imgFmt : ImageFormat)
  | m_getImageFormat
  | m_setExposure (expoUs : Z) (isAuto : bool)
  | m_getExposure
  | m_setGain (gain : Z) (isAuto : bool)
  | m_getGain
  | m_startExposure
  | m_isImgDataAvailable
  | m_getImageData (size : Z)
  | m_stopExposure
  | m_closeCamera
  | m_getCameraID
  | m_setCameraID (nCameraID : Z).

Inductive Value :=
  | v_void
  | v_bool (b : bool)
  | v_int (z : Z)
  | v_ROIArea (r : ROIArea)
  | v_ImageFormat (f : ImageFormat)
  | v_image (b : bool) (pDataBuffer : Buffer).

Definition invoke (m : Method) (this : POACamera) : M (Value * POACamera) :=
  match m with
  | m_openCamera => let* b := openCamera this in ret (v_bool b, this)
  | m_initCamera => let* b := initCamera this in ret (v_bool b, this)
  | m_getAllConfigAttributes => getAllConfigAttributes this ;;; ret (v_void, this)
  | m_setROIArea roiArea => let* b := setROIArea this roiArea in ret (v_bool b, this)
  | m_getROIArea => let* r := getROIArea this in ret (v_ROIArea r, this)
  | m_setImageSize width height =>
      let* b := setImageSize this width height in ret (v_bool b, this)
  | m_setImageStartPos startX startY =>
      let* b := setImageStartPos this startX startY in ret (v_bool b, this)
  | m_setImageFormat imgFmt =>
      let* b := setImageFormat this imgFmt in ret (v_bool b, this)
  | m_getImageFormat => let* f := getImageFormat this in ret (v_ImageFormat f, this)
  | m_setExposure expoUs isAuto =>
      let* b := setExposure this expoUs isAuto in ret (v_bool b, this)
  | m_getExposure => let* z := getExposure this in ret (v_int z, this)
  | m_setGain gain isAuto => let* b := setGain this gain isAuto in ret (v_bool b, this)
  | m_getGain => let* z := getGain this in ret (v_int z, this)
  | m_startExposure => let* b := startExposure this in ret (v_bool b, this)
  | m_isImgDataAvailable => let* b := isImgDataAvailable this in ret (v_bool b, this)
  | m_getImageData size =>
      let* (b, pDataBuffer) := getImageData this size in ret (v_image b pDataBuffer, this)
  | m_stopExposure => let* b := stopExposure this in ret (v_bool b, this)
  | m_closeCamera => let* b := closeCamera this in ret (v_bool b, this)
  | m_getCameraID => ret (v_int (getCameraID this), this)
  | m_setCameraID nCameraID => ret (v_void, setCameraID this nCameraID)
  end.

End Programs.

(** ** Reading a trace *)

(** The camera a call is addressed to. *)
Definition call_cameraID {R} (c : SdkCall R) : option Z :=
  match c with
  | POAGetCameraCount | POAGetCameraProperties _ => None
  | POAOpenCamera id | POAInitCamera id | POACloseCamera id
  | POAGetConfigsCount id | POAGetConfigAttributes id _
  | POAGetCameraState id | POAStopExposure id | POAStartExposure id _
  | POASetImageSize id _ _ | POAGetImageSize id
  | POASetImageStartPos id _ _ | POAGetImageStartPos id
  | POASetImageFormat id _ | POAGetImageFormat id | POASetImageBin id _
  | POASetConfig id _ _ _ | POAGetConfig id _
  | POAImageReady id | POAGetImageData id _ _
  | POAGetSensorModeCount id | POAGetSensorModeInfo id _
  | POAGetSensorMode id | POASetSensorMode id _ => Some id
  end.

(** The status code a call came back with. *)
Definition call_status {R} (c : SdkCall R) : R → option POAErrors :=
  match c in SdkCall R return R → option POAErrors with
  | POAGetCameraCount => λ _, None
  | POAOpenCamera _ | POAInitCamera _ | POACloseCamera _ | POAStopExposure _
  | POAStartExposure _ _ | POASetImageSize _ _ _ | POASetImageStartPos _ _ _
  | POASetImageFormat _ _ | POASetImageBin _ _ | POASetConfig _ _ _ _
  | POASetSensorMode _ _ => λ r, Some r
  | POAGetCameraProperties _ => λ r, Some r.1
  | POAGetConfigsCount _ => λ r, Some r.1
  | POAGetConfigAttributes _ _ => λ r, Some r.1
  | POAGetCameraState _ => λ r, Some r.1
  | POAGetImageSize _ => λ r, Some r.1
  | POAGetImageStartPos _ => λ r, Some r.1
  | POAGetImageFormat _ => λ r, Some r.1
  | POAGetConfig _ _ => λ r, Some r.1
  | POAImageReady _ => λ r, Some r.1
  | POAGetImageData _ _ _ => λ r, Some r.1
  | POAGetSensorModeCount _ => λ r, Some r.1
  | POAGetSensorModeInfo _ _ => λ r, Some r.1
  | POAGetSensorMode _ => λ r, Some r.1
  end.

Definition is_call (e : Event) : bool :=
  match e with EvCall _ _ => true | _ => false end.

(** A line on the error stream: the log lines of [POACamera]. *)
Definition is_log (e : Event) : bool :=
  match e with EvStderr _ => true | _ => false end.

(** A call that came back with a status other than [POA_OK]. *)
Definition is_failed_call (e : Event) : bool :=
  match e with
  | EvCall c r =>
      match call_status c r with Some error => not_ok error | None => false end
  | _ => false
  end.

Definition n_calls (t : list Event) : nat := length (List.filter is_call t).
Definition n_logs (t : list Event) : nat := length (List.filter is_log t).
Definition n_failed_calls (t : list Event) : nat :=
  length (List.filter is_failed_call t).

(** Every call of the trace that names a camera names [id]. *)
Definition addressed_to (id : Z) (e : Event) : Prop :=
  match e with
  | EvCall c _ => call_cameraID c = Some id
  | _ => True
  end.

(** The status of a call that failed. *)
Definition failure_of (e : Event) : option POAErrors :=
  match e with
  | EvCall c r =>
      match call_status c r with
      | Some error => if not_ok error then Some error else None
      | None => None
      end
  | _ => None
  end.

(** The event is a line on the console that carries the text
    [POAGetErrorString] gives for [error]. *)
Definition names_error (error : POAErrors) (e : Event) : Prop :=
  match e with
  | EvStdout s | EvStderr s =>
      ∃ pre post, s = pre +:+ POAGetErrorString error +:+ post
  | _ => False
  end.

(** Every failed call of the trace, the [silent] ones apart, is followed at
    once by a line that carries the text for its status. *)
Fixpoint reported (silent : Event → bool) (t : list Event) : Prop :=
  match t with
  | [] => True
  | e :: t' =>
      match failure_of e with
      | Some error =>
          if silent e then True
          else match t' with
               | e' :: _ => names_error error e'
               | [] => False
               end
      | None => True
      end ∧ reported silent t'
  end.

Definition nobody : Event → bool := λ _, false.

Definition is_state_or_stop (e : Event) : bool :=
  match e with
  | EvCall (POAGetCameraState _) _ | EvCall (POAStopExposure _) _ => true
  | _ => false
  end.

Definition is_poll (e : Event) : bool :=
  match e with EvCall (POAImageReady _) _ => true | _ => false end.

Definition is_fetch (e : Event) : bool :=
  match e with EvCall (POAGetImageData _ _ _) _ => true | _ => false end.

Definition is_properties (e : Event) : bool :=
  match e with EvCall (POAGetCameraProperties _) _ => true | _ => false end.

(** The device index a call of [POAGetCameraProperties] asks for. *)
Definition asked_index (e : Event) : option Z :=
  match e with
  | EvCall (POAGetCameraProperties nIndex) _ => Some nIndex
  | _ => None
  end.

(** The camera ID and the model name a successful call of
    [POAGetCameraProperties] came back with. *)
Definition listed_camera (e : Event) : option (Z * string) :=
  match e with
  | EvCall c r =>
      match c in SdkCall R return R → option (Z * string) with
      | POAGetCameraProperties _ => λ r,
          if is_ok r.1 then Some (cameraID r.2, cameraModelName r.2) else None
      | _ => λ _, None
      end r
  | _ => None
  end.

(** The cameras whose properties could be read, in the order of the calls. *)
Definition listed_cameras (t : list Event) : list (Z * string) :=
  omap listed_camera t.

(** Every camera whose properties could be read has its ID and model name
    in the map. *)
Definition entry_for_each (m : gmap Z string) (t : list Event) : Prop :=
  ∀ id model, (id, model) ∈ listed_cameras t → m !! id = Some model.

(** The cameras that are the first in the list to report their ID. *)
Definition first_listed (l : list (Z * string)) (id : Z) (model : string) : Prop :=
  ∃ i : nat, l !! i = Some (id, model)
    ∧ ∀ (j : nat) model', (j < i)%nat → l !! j ≠ Some (id, model').

(** *** Polling *)

(** The poll lets [while(!pCamera->isImgDataAvailable())] go on: the status
    is [POA_OK] and the flag is [POA_TRUE]. *)
Definition cpp_available (e : Event) : bool :=
  match e with
  | EvCall c r =>
      match c in SdkCall R return R → bool with
      | POAImageReady _ => λ r, is_ok r.1 && bool_decide (r.2 = POA_TRUE)
      | _ => λ _, false
      end r
  | _ => false
  end.

(** The poll lets [while(pIsReady == POA_FALSE)] go on: the flag is not
    [POA_FALSE]. *)
Definition c_available (e : Event) : bool :=
  match e with
  | EvCall c r =>
      match c in SdkCall R return R → bool with
      | POAImageReady _ => λ r, negb (bool_decide (r.2 = POA_FALSE))
      | _ => λ _, false
      end r
  | _ => false
  end.

(** A poll that leaves the loop waiting. *)
Definition waiting (available : Event → bool) (e : Event) : Prop :=
  is_poll e = true ∧ available e = false.

(** What a busy wait leaves in the trace: polls that find nothing and, if
    the wait comes to an end, one last poll that finds the image. *)
Definition busy_wait {A World} (available : Event → bool) (fuel : nat)
    (r : Res (World := World) A) : Prop :=
  match r with
  | Ret _ _ t =>
      ∃ t0 e, t = (t0 ++ [e])%list ∧ Forall (waiting available) t0
        ∧ is_poll e = true ∧ available e = true
  | OutOfFuel t => (fuel ≤ length t)%nat ∧ Forall (waiting available) t
  end.

(** *** Frames and files *)

(** A fetch that succeeded: the buffer as the SDK left it and the size that
    was passed. *)
Definition fetched_frame (e : Event) : option (Buffer * Z) :=
  match e with
  | EvCall c r =>
      match c in SdkCall R return R → option (Buffer * Z) with
      | POAGetImageData _ lBufSize _ => λ r,
          if is_ok r.1 then Some (r.2, lBufSize) else None
      | _ => λ _, None
      end r
  | _ => None
  end.

Definition fetched (t : list Event) : list (Buffer * Z) := omap fetched_frame t.

(** A write to a file: its name, the buffer and the number of bytes. *)
Definition written_file (e : Event) : option (string * (Buffer * Z)) :=
  match e with
  | EvFileWrite fileName buf n => Some (fileName, (buf, n))
  | _ => None
  end.

Definition written (t : list Event) : list (string * (Buffer * Z)) :=
  omap written_file t.

Definition is_file_event (e : Event) : bool :=
  match e with
  | EvFileOpen _ | EvFileWrite _ _ _ | EvFileClose _ => true
  | _ => false
  end.

(** What saving one buffer to one file leaves in the trace. *)
Definition save_events (f : string * (Buffer * Z)) : list Event :=
  [EvFileOpen f.1; EvFileWrite f.1 f.2.1 f.2.2; EvFileClose f.1].

Definition is_start (e : Event) : bool :=
  match e with EvCall (POAStartExposure _ _) _ => true | _ => false end.

(** [n; n - 1; ...; 1]: the values [img_cout] goes through. *)
Fixpoint countdown (n : nat) : list Z :=
  match n with
  | O => []
  | S n' => Z.of_nat n :: countdown n'
  end.

Definition raw8_name (img_cout : Z) : string :=
  pretty img_cout +:+ "_raw8_image_data.bin".

Definition raw16_name (img_cout : Z) : string :=
  pretty img_cout +:+ "_raw16_image_data.bin".

(** The files that the frames fetched so far make, named by [name] of the
    counter. *)
Definition files_of (name : Z → string) (frames : list (Buffer * Z))
    : list (string * (Buffer * Z)) :=
  zip_with (λ c frame, (name c, frame)) (countdown 10) frames.

(** The capture loop keeps count: it ends with the counter at zero and ten
    frames fetched and saved, and does not end before. *)
Definition counted {World} (r : Res (World := World) Z) : Prop :=
  match r with
  | Ret img_cout _ t =>
      img_cout = 0 ∧ length (fetched t) = 10%nat ∧ length (written t) = 10%nat
  | OutOfFuel t =>
      (length (fetched t) < 10)%nat ∧ length (written t) = length (fetched t)
  end.

(** What the capture loop keeps true of the trace gathered so far, with
    [img_cout] the value of the counter: the frames fetched are as many as
    the counter has gone down from ten, and each has been written to the file
    named by the value the counter had then. *)
Definition capture_inv (name : Z → string) (img_cout : Z) (t : list Event) : Prop :=
(0 ≤ img_cout ≤ 10)%Z
  ∧ length (fetched t) = Z.to_nat (10 - img_cout)
  ∧ written t = files_of name (fetched t).

(** The same, of a trace that stops inside the loop. *)
Definition capture_part (name : Z → string) (t : list Event) : Prop :=
  ∃ img_cout, (0 < img_cout)%Z ∧ capture_inv name img_cout t.

(** An event that is neither a fetch that succeeded nor a write to a file. *)
Definition no_frame (e : Event) : Prop :=
  fetched_frame e = None ∧ written_file e = None.

(** An event that keeps the program idle, and one that writes nothing. *)
Definition quiet_idle (e : Event) : Prop := no_frame e ∧ is_start e = false.

Definition no_write (e : Event) : Prop := written_file e = None.

(** Nothing has been captured and the exposure has not been started. *)
Definition idle (name : Z → string) (t : list Event) : Prop :=
  capture_inv name 10 t ∧ Forall (λ e, is_start e = false) t.

(** The capture loop is over: ten frames or more have been fetched and the
    first ten have been written. *)
Definition captured (name : Z → string) (t : list Event) : Prop :=
  (10 ≤ length (fetched t))%nat ∧ written t = files_of name (fetched t).

(** The file events of the trace are those of saving one buffer to one file,
    one file after the other. *)
Definition files_whole (t : list Event) : Prop :=
  List.filter is_file_event t = mjoin (save_events <$> written t).

(** The fetches of a trace, whether they succeeded or not. *)
Definition n_fetches (t : list Event) : nat := length (List.filter is_fetch t).

(** What the video loop of [main.c] keeps true: the counter is the number of
    fetches made so far. *)
Definition video_inv (count : Z) (t : list Event) : Prop :=
  (0 ≤ count ≤ 21)%Z ∧ n_fetches t = Z.to_nat count.

(** The video loop counts its turns: it ends with the counter at 21, after
    21 fetches, whether they succeeded or not. *)
Definition turns_counted {World} (r : Res (World := World) Z) : Prop :=
  match r with
  | Ret count _ t => count = 22%Z ∧ n_fetches t = 21%nat
  | OutOfFuel t => (n_fetches t ≤ 21)%nat
  end.

(** The last argument of a fetch, computed from the exposure time. *)
Definition fetch_timeout (e : Event) : option Z :=
  match e with
  | EvCall (POAGetImageData _ _ nTimeoutms) _ => Some nTimeoutms
  | _ => None
  end.

(** Every fetch is given [ms] as its last argument. *)
Definition timed (ms : Z) (e : Event) : Prop :=
  match fetch_timeout e with Some nTimeoutms => nTimeoutms = ms | None => True end.

(** *** Buffer sizes *)

(** [main.c]: "POA_RAW8, POA_MONO8: pixelBytes = 1, POA_RAW16: pixelBytes = 2,
    POA_RGB24: pixelBytes = 3". *)
Definition pixelBytes (imgFormat : POAImgFormat) : option Z :=
  match imgFormat with
  | POA_RAW8 | POA_MONO8 => Some 1
  | POA_RAW16 => Some 2
  | POA_RGB24 => Some 3
  | POA_END => None
  end.

(** The resolution a call of [POASetImageSize] asks for. *)
Definition requested_size (e : Event) : option (Z * Z) :=
  match e with
  | EvCall (POASetImageSize _ width height) _ => Some (width, height)
  | _ => None
  end.

(** The format a call of [POASetImageFormat] asks for. *)
Definition requested_format (e : Event) : option POAImgFormat :=
  match e with
  | EvCall (POASetImageFormat _ imgFormat) _ => Some imgFormat
  | _ => None
  end.

(** The size of a pixel buffer: as it is allocated, and as it is passed to
    [POAGetImageData]. *)
Definition buffer_size_of (e : Event) : option Z :=
  match e with
  | EvAllocBuffer n => Some n
  | EvCall (POAGetImageData _ lBufSize _) _ => Some lBufSize
  | _ => None
  end.

(** The event agrees with a resolution of [width] by [height] in the format
    [imgFormat], and with pixel buffers of [size] bytes. *)
Definition agrees (width height : Z) (imgFormat : POAImgFormat) (size : Z)
    (e : Event) : Prop :=
  (∀ wh, requested_size e = Some wh → wh = (width, height))
  ∧ (∀ f, requested_format e = Some f → f = imgFormat)
  ∧ (∀ n, buffer_size_of e = Some n → n = size)
  ∧ (∀ f, written_file e = Some f → f.2.2 = size).

(** An event that asks for no resolution and has to do with no buffer. *)
Definition sizeless (imgFormat : POAImgFormat) (e : Event) : Prop :=
  requested_size e = None
  ∧ (∀ f, requested_format e = Some f → f = imgFormat)
  ∧ buffer_size_of e = None
  ∧ written_file e = None.

(** *** The pipeline *)

Inductive Step :=
  | Enumerate | Open | Configure | StartExposure
  | PollReady | CopyBuffer | Persist | Close.

(** The step of the pipeline an event belongs to.  [POAInitCamera] belongs to
    opening; the listing of the configuration attributes and the reading of
    the state and stopping of an exposure that [setImageSize] and
    [setImageFormat] begin with belong to configuring; the reading of the
    exposure time that [getImageData] begins with belongs to copying. *)
Definition step_of (e : Event) : option Step :=
  match e with
  | EvCall c _ =>
      match c with
      | POAGetCameraCount | POAGetCameraProperties _ => Some Enumerate
      | POAOpenCamera _ | POAInitCamera _ => Some Open
      | POAGetConfigsCount _ | POAGetConfigAttributes _ _
      | POAGetCameraState _ | POAStopExposure _
      | POASetImageSize _ _ _ | POAGetImageSize _
      | POASetImageStartPos _ _ _ | POAGetImageStartPos _
      | POASetImageFormat _ _ | POAGetImageFormat _ | POASetImageBin _ _
      | POASetConfig _ _ _ _
      | POAGetSensorModeCount _ | POAGetSensorModeInfo _ _
      | POAGetSensorMode _ | POASetSensorMode _ _ => Some Configure
      | POAStartExposure _ _ => Some StartExposure
      | POAImageReady _ => Some PollReady
      | POAGetConfig _ _ | POAGetImageData _ _ _ => Some CopyBuffer
      | POACloseCamera _ => Some Close
      end
  | EvFileOpen _ | EvFileWrite _ _ _ | EvFileClose _ => Some Persist
  | _ => None
  end.

Definition steps (t : list Event) : list Step := omap step_of t.

(** [follows a b]: an event of step [b] may come right after one of step [a]
    ([None]: at the very beginning).  Along the pipeline one stays in a step
    or moves on to the next; from copying, a fetch that failed goes back to
    polling; from persisting, the next frame goes back to polling. *)
Definition follows (a : option Step) (b : Step) : bool :=
  match a, b with
  | None, Enumerate
  | Some Enumerate, (Enumerate | Open)
  | Some Open, (Open | Configure)
  | Some Configure, (Configure | StartExposure)
  | Some StartExposure, PollReady
  | Some PollReady, (PollReady | CopyBuffer)
  | Some CopyBuffer, (CopyBuffer | Persist | PollReady)
  | Some Persist, (Persist | PollReady | Close) => true
  | _, _ => false
  end.

Fixpoint chain (a : option Step) (l : list Step) : bool :=
  match l with
  | [] => true
  | b :: l' => follows a b && chain (Some b) l'
  end.

(** The step reached after [l], coming from [a]. *)
Definition last_from (a : option Step) (l : list Step) : option Step :=
  match last l with
  | Some b => Some b
  | None => a
  end.

(** The events of the trace come in the order of the pipeline. *)
Definition in_pipeline_order (t : list Event) : Prop :=
  chain None (steps t) = true.

(** ... and the last of them belongs to step [q]. *)
Definition upto (q : option Step) (t : list Event) : Prop :=
  in_pipeline_order t ∧ last (steps t) = q.

(** The place of a step in the pipeline as the specification draws it. *)
Definition rank (s : Step) : nat :=
  match s with
  | Enumerate => 0
  | Open => 1
  | Configure => 2
  | StartExposure => 3
  | PollReady => 4
  | CopyBuffer => 5
  | Persist => 6
  | Close => 7
  end.

(** No event of a step comes before an event of a preceding step. *)
Definition in_strict_order (t : list Event) : Prop :=
  ∀ i j x y, (i < j)%nat →
    steps t !! i = Some x → steps t !! j = Some y → (rank x ≤ rank y)%nat.

(** An event that belongs to no step: console, allocation. *)
Definition stepless (e : Event) : Prop := step_of e = None.

(** Where the capture loop may be when it polls: the exposure has just been
    started, a fetch has just failed, a frame has just been saved, or it has
    polled already. *)
Definition pollable (t : list Event) : Prop :=
  upto (Some StartExposure) t ∨ upto (Some CopyBuffer) t
  ∨ upto (Some Persist) t ∨ upto (Some PollReady) t.

(** What the capture loop of [main.cpp] keeps true of the pipeline. *)
Definition capture_steps (img_cout : Z) (t : list Event) : Prop :=
  upto (Some Persist) t
  ∨ ((0 < img_cout)%Z
     ∧ (upto (Some StartExposure) t ∨ upto (Some CopyBuffer) t)).

(** The part of the pipeline a step belongs to, when the steps that are
    repeated for every frame are taken as one. *)
Definition phase (s : Step) : nat :=
  match s with
  | Enumerate => 0
  | Open => 1
  | Configure => 2
  | StartExposure => 3
  | PollReady | CopyBuffer | Persist => 4
  | Close => 5
  end.

(** The calls of a member function of [POACamera] whose failure goes
    unreported. *)
Definition silent_in (m : Method) : Event → bool :=
  match m with
  | m_setROIArea _ | m_setImageSize _ _ | m_setImageFormat _ => is_state_or_stop
  | m_isImgDataAvailable => is_poll
  | m_getImageData _ => is_fetch
  | _ => nobody
  end.

(** The log lines of a trace are as many as its failed calls, the [silent]
    ones apart. *)
Definition logs_match (silent : Event → bool) (t : list Event) : Prop :=
  n_logs t = n_failed_calls (List.filter (λ e, negb (silent e)) t).

(** The operations the specification lists: open, init, configure,
    start and stop exposure, poll-ready, fetch-buffer, close. *)
Definition shown (m : Method) : bool :=
  match m with
  | m_openCamera | m_initCamera
  | m_setROIArea _ | m_setImageSize _ _ | m_setImageStartPos _ _
  | m_setImageFormat _ | m_setExposure _ _ | m_setGain _ _
  | m_startExposure | m_stopExposure
  | m_isImgDataAvailable | m_getImageData _ | m_closeCamera => true
  | _ => false
  end.

(** What [setROIArea], [setImageSize] and [setImageFormat] begin with: the
    state is asked for, and the exposure is stopped or not. *)
Definition stop_prelude (t : list Event) : Prop :=
  match t with
  | [EvCall (POAGetCameraState _) _]
  | [EvCall (POAGetCameraState _) _; EvCall (POAStopExposure _) _] => True
  | _ => False
  end.

(** One call, its status checked, one log line if it failed. *)
Definition call_check_log (t : list Event) : Prop :=
  ∃ e logs, t = e :: logs ∧ is_call e = true
    ∧ Forall (λ e', is_log e' = true) logs
    ∧ length logs = n_failed_calls [e].

(** *** The listing of the configuration attributes *)

(** The index a call of [POAGetConfigAttributes] asks for. *)
Definition asked_config (e : Event) : option Z :=
  match e with
  | EvCall (POAGetConfigAttributes _ nConfIndex) _ => Some nConfIndex
  | _ => None
  end.

Definition is_attributes (e : Event) : bool :=
  match e with EvCall (POAGetConfigAttributes _ _) _ => true | _ => false end.

(** A line on the standard output. *)
Definition is_stdout (e : Event) : bool :=
  match e with EvStdout _ => true | _ => false end.

(** What the listing of the attributes leaves in the trace: one call for
    each index from [0] up to [config_count], five lines on the standard
    output for each that succeeded. *)
Definition attributes_listed (config_count : Z) (t : list Event) : Prop :=
  omap asked_config t = seqZ 0 config_count
  ∧ Forall (λ e, is_call e = true → is_attributes e = true) t
  ∧ length (List.filter is_stdout t)
    = (5 * (length (List.filter is_attributes t) - n_failed_calls t))%nat.

(** *** The listing of the cameras in [main.c] *)

(** What a call of [POAGetCameraProperties] left in the structure it was
    given, whether it succeeded or not. *)
Definition properties_left (e : Event) : option POACameraProperties :=
  match e with
  | EvCall c r =>
      match c in SdkCall R return R → option POACameraProperties with
      | POAGetCameraProperties _ => λ r, Some r.2
      | _ => λ _, None
      end r
  | _ => None
  end.

(** *** How [main.c] ends *)

(** The calls whose failure makes [main.c] return at once. *)
Definition is_setup (e : Event) : bool :=
  match e with
  | EvCall (POAOpenCamera _) _ | EvCall (POAInitCamera _) _
  | EvCall (POAGetConfigsCount _) _ => true
  | _ => false
  end.

Definition is_close (e : Event) : bool :=
  match e with EvCall (POACloseCamera _) _ => true | _ => false end.

Definition is_getchar (e : Event) : bool :=
  match e with EvGetchar => true | _ => false end.

(** An event of a run that is under way: not a setup call that failed, not
    the closing of the camera, not the wait for a key. *)
Definition under_way (e : Event) : Prop :=
  (is_setup e = true → is_failed_call e = false)
  ∧ is_close e = false ∧ is_getchar e = false.

(** The run found no camera. *)
Definition found_no_camera (t : list Event) : Prop :=
  ∃ camera_count s1 s2,
    t = [EvCall POAGetCameraCount camera_count; EvStdout s1; EvStdout s2; EvGetchar]
    ∧ (camera_count ≤ 0)%Z.

(** The run stopped at a setup call that failed: the call and the line that
    reports it are the last two events. *)
Definition stopped_at_setup (t : list Event) : Prop :=
  ∃ t0 e error s,
    t = (t0 ++ [e; EvStdout s])%list
    ∧ is_setup e = true ∧ failure_of e = Some error
    ∧ names_error error (EvStdout s)
    ∧ Forall under_way t0.

(** The run went through: it closed the camera, said so and waited for a
    key. *)
Definition closed_and_done (t : list Event) : Prop :=
  ∃ t0 id error,
    t = (t0 ++ [EvCall (POACloseCamera id) error;
                EvStdout ("camera closed! " +:+ endl); EvGetchar])%list
    ∧ Forall under_way t0.

(** The ways a run of [main.c] ends, and what holds of a run that is still
    inside one of its loops. *)
Definition c_main_outcome {World} (r : Res (World := World) Z) : Prop :=
  match r with
  | Ret z _ t =>
      z = 0%Z ∧ (found_no_camera t ∨ stopped_at_setup t ∨ closed_and_done t)
  | OutOfFuel t => Forall under_way t
  end.

(** *** The camera the examples operate *)

(** A call that names a camera names [id]. *)
Definition names_only (id : Z) (e : Event) : Prop :=
  match e with
  | EvCall c _ => ∀ id', call_cameraID c = Some id' → id' = id
  | _ => True
  end.

(** The camera of a run of [main.c]: the one whose ID the first call of
    [POAGetCameraProperties] left, whether the call succeeded or not. *)
Definition first_device (t : list Event) : option Z :=
  cameraID <$> head (omap properties_left t).

(** Every call of the run that names a camera names that one. *)
Definition operates_first_device (t : list Event) : Prop :=
  match first_device t with
  | Some id => Forall (names_only id) t
  | None => Forall (λ e, ∀ id, names_only id e) t
  end.

(** The line [main.cpp] prints for an entry of the map. *)
Definition camera_line (iter : Z * string) : Event :=
  EvStdout (pretty iter.1 +:+ "  " +:+ iter.2 +:+ endl).

(** The entries come by ascending camera ID, each ID once. *)
Definition ascending (l : list (Z * string)) : Prop :=
  StronglySorted (λ a b, (a.1 < b.1)%Z) l.

(** *** The resolution [main.c] asks for *)

(** The width asked for is a multiple of 4 and the height a multiple of 2;
    a pixel buffer, as it is allocated, fetched into and written to a file,
    is a multiple of 16 bytes. *)
Definition aligned (e : Event) : Prop :=
  (∀ wh, requested_size e = Some wh → (wh.1 `rem` 4 = 0 ∧ wh.2 `rem` 2 = 0)%Z)
  ∧ (∀ n, buffer_size_of e = Some n → (n `rem` 16 = 0)%Z)
  ∧ (∀ f, written_file e = Some f → (f.2.2 `rem` 16 = 0)%Z).

(** *** What [main.c] reports *)

(** The calls of [main.c] whose status is not looked at, or is overwritten
    before it is looked at. *)
Definition unchecked_in_c (e : Event) : bool :=
  match e with
  | EvCall c _ =>
      match c with
      | POAGetCameraState _ | POAStopExposure _ | POAImageReady _
      | POACloseCamera _ | POAGetConfig _ _
      | POAGetSensorModeCount _ | POAGetSensorModeInfo _ _
      | POAGetSensorMode _ | POASetSensorMode _ _
      | POAStartExposure _ POA_TRUE
      | POASetConfig _ POA_EXPOSURE _ _ | POASetConfig _ POA_COOLER _ _
      | POASetConfig _ POA_FAN_POWER _ _
      | POASetConfig _ POA_HEATER_POWER _ _ => true
      | _ => false
      end
  | _ => false
  end.

(** *** The sensor modes *)

(** The index a call of [POAGetSensorModeInfo] asks for. *)
Definition asked_mode (e : Event) : option Z :=
  match e with
  | EvCall (POAGetSensorModeInfo _ index) _ => Some index
  | _ => None
  end.

Definition is_mode_info (e : Event) : bool :=
  match e with EvCall (POAGetSensorModeInfo _ _) _ => true | _ => false end.

(** What the listing of the sensor modes leaves in the trace: one call for
    each index from [0] up to [senModeCount], one line for each that
    succeeded and none for the others. *)
Definition modes_listed (senModeCount : Z) (t : list Event) : Prop :=
  omap asked_mode t = seqZ 0 senModeCount
  ∧ Forall (λ e, is_call e = true → is_mode_info e = true) t
  ∧ Forall (λ e, is_call e = true ∨ is_stdout e = true) t
  ∧ length (List.filter is_stdout t)
    = (length (List.filter is_mode_info t) - n_failed_calls t)%nat.

(** *** Assumptions on the SDK

    The examples come to an end or not depending on what the SDK answers.
    What is assumed of it is stated on the worlds that satisfy an invariant
    [Inv], which the SDK keeps. *)

(** Whatever is asked of a world that satisfies [Inv], the world that comes
    back satisfies it. *)
Definition kept {World} `{!PlayerOneCamera_lib World} (Inv : World → Prop) : Prop :=
  ∀ R (c : SdkCall R) w, Inv w → Inv (sdk R c w).2.

(** No poll ever lets [isImgDataAvailable] answer true. *)
Definition never_ready {World} `{!PlayerOneCamera_lib World}
    (Inv : World → Prop) : Prop :=
  ∀ id w, Inv w →
    cpp_available (EvCall (POAImageReady id) (sdk _ (POAImageReady id) w).1) = false.

(** An image is ready after [patience w] polls at most, and never more than
    [p]: a poll at patience zero succeeds and finds the image, any other poll
    brings the patience down. *)
Definition ready_within {World} `{!PlayerOneCamera_lib World}
    (Inv : World → Prop) (patience : World → nat) (p : nat) : Prop :=
  ∀ id w, Inv w →
    (patience w ≤ p)%nat
    ∧ match patience w with
      | O => (sdk _ (POAImageReady id) w).1 = (POA_OK, POA_TRUE)
      | S _ => (patience (sdk _ (POAImageReady id) w).2 < patience w)%nat
      end.

(** Every fetch succeeds. *)
Definition fetch_succeeds {World} `{!PlayerOneCamera_lib World}
    (Inv : World → Prop) : Prop :=
  ∀ id size ms w, Inv w → (sdk _ (POAGetImageData id size ms) w).1.1 = POA_OK.

(** The camera is seen exposing for [busy w] reads of its state at most, and
    never more than [q]. *)
Definition settles_within {World} `{!PlayerOneCamera_lib World}
    (Inv : World → Prop) (busy : World → nat) (q : nat) : Prop :=
  ∀ id w, Inv w →
    (busy w ≤ q)%nat
    ∧ match busy w with
      | O => (sdk _ (POAGetCameraState id) w).1.2 ≠ STATE_EXPOSING
      | S _ => (busy (sdk _ (POAGetCameraState id) w).2 < busy w)%nat
      end.

(** From a world that satisfies [Inv] the program comes to an end, in a
    world that satisfies [Inv] and with a result that satisfies [Q]. *)
Definition live {World} `{!PlayerOneCamera_lib World} {A}
    (Inv : World → Prop) (m : M (World := World) A) (Q : A → Prop) : Prop :=
  ∀ w, Inv w → ∃ a w' t, m w = Ret a w' t ∧ Inv w' ∧ Q a.

(** From a world that satisfies [Inv] the program does not come to an end
    within the bound on its loops. *)
Definition hangs {World} `{!PlayerOneCamera_lib World} {A}
    (Inv : World → Prop) (m : M (World := World) A) : Prop :=
  ∀ w, Inv w → ∃ t, m w = OutOfFuel t.

(** *** The time limit of a fetch in [main.c] *)

(** The exposure time, in microseconds, that a call of [POASetConfig] asks
    for. *)
Definition exposure_set (e : Event) : option Z :=
  match e with
  | EvCall (POASetConfig _ POA_EXPOSURE (arg_intValue expo) _) _ => Some expo
  | _ => None
  end.

(** The exposure asked for last, [cur] being the one asked for before the
    event. *)
Definition exposure_then (cur : option Z) (e : Event) : option Z :=
  match exposure_set e with Some expo => Some expo | None => cur end.

(** The event is no fetch, or a fetch whose time limit is the exposure
    [cur], in milliseconds, plus 500. *)
Definition in_time (cur : option Z) (e : Event) : Prop :=
  match fetch_timeout e with
  | Some nTimeoutms => ∃ expo, cur = Some expo ∧ nTimeoutms = (expo `quot` 1000 + 500)%Z
  | None => True
  end.

(** Every fetch of the trace has the time limit of the exposure that was
    asked for last before it. *)
Fixpoint timed_by_exposure (cur : option Z) (t : list Event) : Prop :=
  match t with
  | [] => True
  | e :: t' => in_time cur e ∧ timed_by_exposure (exposure_then cur e) t'
  end.

(** ... and [cur] is the exposure asked for last in the trace. *)
Definition exposed (cur : option Z) (t : list Event) : Prop :=
  timed_by_exposure None t ∧ fold_left exposure_then t None = cur.

(** *** What [main.cpp] reports *)

(** The calls that [POACamera] makes without reporting their failure. *)
Definition unreported_in_cpp (e : Event) : bool :=
  is_properties e || is_state_or_stop e || is_poll e || is_fetch e.

End Examples.

(** ** A simulated SDK

    A concrete header and a concrete library, used to run the examples.  A
    status code is a number, [0] for [POA_OK]; the library answers every call
    from a handful of settings and keeps count of polls, fetches and frames. *)
Module Sim.

Definition header : PlayerOneCamera_h := {|
  POAErrors := Z;
  POA_OK := 0;
  POACameraState := Z;
  STATE_EXPOSING := 2;
  double := unit;
  double_0_1 := ();
  double_5_0 := ();
  cout_double := λ _, "0.1";
  printf_lf := λ _, "0.100000";
  POAGetErrorString := λ error, "POA_ERROR_" +:+ pretty error;
|}.

#[local] Existing Instance header.

Record World := {
  (** the answer of [POAGetCameraCount] *)
  camera_count : Z;
  (** status, camera ID and model name for a device index *)
  camera : Z → Z * Z * string;
  (** the status of every call, unless said otherwise below *)
  status : Z;
  (** the answer of [POAGetCameraState] *)
  state : Z;
  (** how many polls are answered "not ready" before each frame *)
  patience : nat;
  (** the "not ready" answers still to come before the next frame *)
  polls_left : nat;
  (** the fetches still to fail *)
  fetch_failures : nat;
  (** the frames handed out so far *)
  frames : nat;
}.

Definition properties (id : Z) (model : string) : POACameraProperties := {|
  cameraModelName := model;
  cameraID := id;
  SN := "SN" +:+ pretty id;
  sensorModelName := "IMX";
  maxWidth := 1920;
  maxHeight := 1080;
  bins := λ i, Z.of_nat (S i);
  isHasCooler := POA_FALSE;
|}.

Definition value (z : Z) : POAConfigValue :=
  {| intValue := z; floatValue := (); boolValue := POA_FALSE |}.

Definition attributes : POAConfigAttributes := {|
  szConfName := "Exposure";
  szDescription := "exposure time";
  isWritable := POA_TRUE;
  isReadable := POA_TRUE;
  valueType := VAL_INT;
  minValue := value 10;
  maxValue := value 2000000000;
  defaultValue := value 10000;
|}.

(** The pixels of frame [k]. *)
Definition pixels (k : nat) : Buffer :=
  λ i, if Nat.even (i + k) then Byte.x00 else Byte.xff.

Definition answer (R : Type) (c : SdkCall R) (w : World) : R * World :=
  match c in SdkCall R return R * World with
  | POAGetCameraCount => (camera_count w, w)
  | POAGetCameraProperties i =>
      let '(e, id, model) := camera w i in ((e, properties id model), w)
  | POAOpenCamera _ | POAInitCamera _ | POACloseCamera _ | POAStopExposure _
  | POAStartExposure _ _ | POASetImageSize _ _ _ | POASetImageStartPos _ _ _
  | POASetImageFormat _ _ | POASetImageBin _ _ | POASetConfig _ _ _ _
  | POASetSensorMode _ _ => (status w, w)
  | POAGetConfigsCount _ => ((status w, 1), w)
  | POAGetConfigAttributes _ _ => ((status w, attributes), w)
  | POAGetCameraState _ => ((status w, state w), w)
  | POAGetImageSize _ => ((status w, (1920, 1080)), w)
  | POAGetImageStartPos _ => ((status w, (0, 0)), w)
  | POAGetImageFormat _ => ((status w, POA_RAW16), w)
  | POAGetConfig _ _ => ((status w, (value 100000, POA_FALSE)), w)
  | POAImageReady _ =>
      match polls_left w with
      | O => ((status w, POA_TRUE),
              {| camera_count := camera_count w; camera := camera w;
                 status := status w; state := state w; patience := patience w;
                 polls_left := patience w; fetch_failures := fetch_failures w;
                 frames := frames w |})
      | S n => ((status w, POA_FALSE),
                {| camera_count := camera_count w; camera := camera w;
                   status := status w; state := state w; patience := patience w;
                   polls_left := n; fetch_failures := fetch_failures w;
                   frames := frames w |})
      end
  | POAGetImageData _ _ _ =>
      match fetch_failures w with
      | O => ((status w, pixels (frames w)),
              {| camera_count := camera_count w; camera := camera w;
                 status := status w; state := state w; patience := patience w;
                 polls_left := polls_left w; fetch_failures := O;
                 frames := S (frames w) |})
      | S n => ((9, pixels (frames w)),
                {| camera_count := camera_count w; camera := camera w;
                   status := status w; state := state w; patience := patience w;
                   polls_left := polls_left w; fetch_failures := n;
                   frames := frames w |})
      end
  | POAGetSensorModeCount _ => ((status w, 2), w)
  | POAGetSensorModeInfo _ _ => ((status w, {| name := "Normal"; desc := "normal" |}), w)
  | POAGetSensorMode _ => ((status w, 0), w)
  end.

Definition library : PlayerOneCamera_lib World := answer.

#[local] Existing Instance library.

(** Three devices; the one at index 1 cannot be read. *)
Definition three_cameras (i : Z) : Z * Z * string :=
  if (i =? 0)%Z then (0, 7, "Neptune-C")
  else if (i =? 1)%Z then (5, 0, "")
  else (0, 3, "Mars-M").

(** A healthy SDK: every call succeeds, a frame is ready at every third
    poll. *)
Definition healthy : World := {|
  camera_count := 3; camera := three_cameras; status := 0; state := 1;
  patience := 2; polls_left := 2; fetch_failures := 0; frames := 0;
|}.

(** An SDK whose every call comes back with status 4. *)
Definition broken : World := {|
  camera_count := 3; camera := three_cameras; status := 4; state := 2;
  patience := 0; polls_left := 0; fetch_failures := 0; frames := 0;
|}.

(** A healthy SDK that fails the first two fetches. *)
Definition flaky : World := {|
  camera_count := 3; camera := three_cameras; status := 0; state := 1;
  patience := 1; polls_left := 1; fetch_failures := 2; frames := 0;
|}.

(** Two devices that report the same camera ID. *)
Definition twin_cameras (i : Z) : Z * Z * string :=
  if (i =? 0)%Z then (0, 7, "Neptune-C") else (0, 7, "Mars-M").

Definition twins : World := {|
  camera_count := 2; camera := twin_cameras; status := 0; state := 1;
  patience := 0; polls_left := 0; fetch_failures := 0; frames := 0;
|}.

(** An SDK that has an image ready at every poll and fails every fetch (of
    the first hundred). *)
Definition blind : World := {|
  camera_count := 1; camera := three_cameras; status := 0; state := 1;
  patience := 0; polls_left := 0; fetch_failures := 100; frames := 0;
|}.

(** An SDK that finds no camera. *)
Definition nothing : World := {|
  camera_count := 0; camera := three_cameras; status := 0; state := 1;
  patience := 0; polls_left := 0; fetch_failures := 0; frames := 0;
|}.

(** The camera used in the runs below. *)
Definition cam : POACamera := POACamera_ctor 7.

Definition run_isImgDataAvailable : Res bool := isImgDataAvailable cam broken.
Definition run_setImageFormat : Res bool := setImageFormat cam RAW8 healthy.
Definition run_getALLCameraIDName (w : World) : Res (gmap Z string) :=
  getALLCameraIDName w.
Definition run_c_video : Res Z := c_video 30 7 (1868 * 1060 * 2) 100000 0 blind.
Definition run_cpp_main (fuel : nat) (w : World) : Res Z := cpp_main fuel w.
Definition run_c_main (fuel : nat) (w : World) : Res Z := c_main fuel w.

End Sim.

(** * Properties *)

Section Theory.

Context `{PlayerOneCamera_h} {World : Type} `{!PlayerOneCamera_lib World}.

Implicit Types (w : World) (t : list Event) (this : POACamera).

Local Open Scope list_scope.
Local Open Scope Z_scope.

Local Abbreviation M := (M (World := World)).
Local Abbreviation obeys := (obeys (World := World)).
Local Abbreviation total := (total (World := World)).
Local Abbreviation triple := (triple (World := World)).

(** ** Strings *)

Lemma string_app_assoc (s1 s2 s3 : string) :
  ((s1 +:+ s2) +:+ s3 = s1 +:+ s2 +:+ s3)%string.
Proof.
  induction s1 as [|a s1 IH]; [done|].
  change (String a ((s1 +:+ s2) +:+ s3) = String a (s1 +:+ s2 +:+ s3))%string.
  by rewrite IH.
Qed.

(** ** The monad *)

Lemma trace_bind {A B} (m : M A) (f : A → M B) w :
  trace_of (bind m f w)
  = match m w with
    | Ret a w' t => t ++ trace_of (f a w')
    | OutOfFuel t => t
    end.
Proof.
  unfold bind. destruct (m w) as [a w' t|t]; [|done].
  by destruct (f a w').
Qed.

Lemma bind_Ret {A B} (m : M A) (f : A → M B) w a w' t :
  m w = Ret a w' t →
  bind m f w = match f a w' with
               | Ret b w'' t' => Ret b w'' (t ++ t')
               | OutOfFuel t' => OutOfFuel (t ++ t')
               end.
Proof. unfold bind. by intros ->. Qed.

Section Sequential.

Context (P : list Event → Prop) `{!Sequential P}.

Lemma obeys_ret {A} (a : A) : obeys P (ret a).
Proof. intros w. apply seq_nil. Qed.

Lemma obeys_out_of_fuel {A} : obeys P (out_of_fuel : M A).
Proof. intros w. apply seq_nil. Qed.

Lemma obeys_bind {A B} (m : M A) (f : A → M B) :
  obeys P m → (∀ a, obeys P (f a)) → obeys P (bind m f).
Proof.
  intros Hm Hf w. rewrite trace_bind. specialize (Hm w).
  destruct (m w) as [a w' t|t]; [|done].
  apply seq_app; [done|apply Hf].
Qed.

Lemma obeys_call_bind {R A} (c : SdkCall R) (k : R → M A) :
  (∀ r w, P (EvCall c r :: trace_of (k r w))) → obeys P (bind (call c) k).
Proof.
  intros Hk w. rewrite trace_bind. unfold call.
  destruct (sdk R c w) as [r w']. apply Hk.
Qed.

Lemma obeys_emit e : P [e] → obeys P (emit e).
Proof. by intros He w. Qed.

Lemma obeys_call {R} (c : SdkCall R) :
  (∀ r, P [EvCall c r]) → obeys P (call c).
Proof. intros Hc w. unfold call. destruct (sdk R c w) as [r w']. apply Hc. Qed.

Lemma obeys_when (b : bool) (m : M unit) : obeys P m → obeys P (when b m).
Proof. destruct b; [done|]. intros _. apply obeys_ret. Qed.

Lemma obeys_for_from {S} n i (body : Z → S → M S) s :
  (∀ j s', obeys P (body j s')) → obeys P (for_from n i body s).
Proof.
  intros Hbody. revert i s.
  induction n as [|n IH]; intros i s; simpl.
  - apply obeys_ret.
  - apply obeys_bind; [apply Hbody|]. intros s'. apply IH.
Qed.

Lemma obeys_for_upto {S} count (body : Z → S → M S) s :
  (∀ j s', obeys P (body j s')) → obeys P (for_upto count body s).
Proof. apply obeys_for_from. Qed.

Lemma obeys_for_each {A} (l : list A) (body : A → M unit) :
  (∀ x, obeys P (body x)) → obeys P (for_each l body).
Proof.
  intros Hbody. induction l as [|x l IH]; simpl.
  - apply obeys_ret.
  - apply obeys_bind; [apply Hbody|]. intros _. apply IH.
Qed.

Lemma obeys_while {S} fuel (cond : S → M bool) (body : S → M S) s :
  (∀ s', obeys P (cond s')) → (∀ s', obeys P (body s')) →
  obeys P (while fuel cond body s).
Proof.
  intros Hcond Hbody. revert s.
  induction fuel as [|fuel IH]; intros s; simpl.
  - apply obeys_bind; [apply Hcond|]. intros [|];
      [apply obeys_out_of_fuel|apply obeys_ret].
  - apply obeys_bind; [apply Hcond|]. intros [|]; [|apply obeys_ret].
    apply obeys_bind; [apply Hbody|]. intros s'. apply IH.
Qed.

Lemma obeys_do_while {S} fuel (cond : S → M bool) (body : M S) :
  (∀ s', obeys P (cond s')) → obeys P body →
  obeys P (do_while fuel cond body).
Proof.
  intros Hcond Hbody. apply obeys_bind; [done|].
  intros s. by apply obeys_while.
Qed.

End Sequential.

#[global] Instance Forall_sequential (Q : Event → Prop) : Sequential (Forall Q).
Proof. split; [constructor|]. intros t1 t2 H1 H2. by apply Forall_app. Qed.

(** ** Programs without [while] come to an end *)

Lemma total_ret {A} (a : A) : total (ret a).
Proof. intros w. by eexists _, _, _. Qed.

Lemma total_bind {A B} (m : M A) (f : A → M B) :
  total m → (∀ a, total (f a)) → total (bind m f).
Proof.
  intros Hm Hf w. destruct (Hm w) as (a & w' & t & Hmw).
  destruct (Hf a w') as (b & w'' & t' & Hfw).
  rewrite (bind_Ret _ _ _ _ _ _ Hmw), Hfw. by eexists _, _, _.
Qed.

Lemma total_emit e : total (emit e).
Proof. intros w. by eexists _, _, _. Qed.

Lemma total_call {R} (c : SdkCall R) : total (call c).
Proof. intros w. unfold call. destruct (sdk R c w). by eexists _, _, _. Qed.

Lemma total_when (b : bool) (m : M unit) : total m → total (when b m).
Proof. destruct b; [done|]. intros _. apply total_ret. Qed.

Lemma total_for_from {S} n i (body : Z → S → M S) s :
  (∀ j s', total (body j s')) → total (for_from n i body s).
Proof.
  intros Hbody. revert i s.
  induction n as [|n IH]; intros i s; simpl.
  - apply total_ret.
  - apply total_bind; [apply Hbody|]. intros s'. apply IH.
Qed.

Lemma total_for_each {A} (l : list A) (body : A → M unit) :
  (∀ x, total (body x)) → total (for_each l body).
Proof.
  intros Hbody. induction l as [|x l IH]; simpl.
  - apply total_ret.
  - apply total_bind; [apply Hbody|]. intros _. apply IH.
Qed.

(** Taking a program apart along its binds, loops and branches. *)
Ltac step_total :=
  first
    [ apply total_ret | apply total_emit | apply total_call
    | apply total_when | apply total_for_from | apply total_for_each
    | apply total_bind ].

Ltac solve_total :=
  repeat first
    [ progress intros
    | step_total
    | match goal with
      | |- total (match ?x with _ => _ end) => destruct x
      end ].

Ltac step_obeys :=
  first
    [ apply obeys_ret | apply obeys_out_of_fuel | apply obeys_when
    | apply obeys_for_from | apply obeys_for_upto | apply obeys_for_each
    | apply obeys_while | apply obeys_do_while | apply obeys_bind ].

(** [solve_obeys leaf] proves [obeys P m] for a sequential [P], with [leaf]
    for what is left to show of single events. *)
Ltac solve_obeys_with known leaf :=
  repeat first
    [ progress intros
    | match goal with |- Sequential _ => apply _ end
    | known
    | step_obeys
    | apply obeys_call; intros; leaf
    | apply obeys_emit; leaf
    | match goal with
      | |- obeys _ (match ?x with _ => _ end) => destruct x
      end ].

Ltac solve_obeys leaf :=
  repeat first
    [ progress intros
    | match goal with |- Sequential _ => apply _ end
    | step_obeys
    | apply obeys_call; intros; leaf
    | apply obeys_emit; leaf
    | match goal with
      | |- obeys _ (match ?x with _ => _ end) => destruct x
      end ].

Ltac unfold_methods :=
  unfold invoke, openCamera, initCamera, getAllConfigAttributes,
    setROIArea, getROIArea, setImageSize, setImageStartPos, setImageFormat,
    getImageFormat, setExposure, setGain, getGain, startExposure,
    isImgDataAvailable, getImageData, getExposure, stopExposure, closeCamera,
    stop_if_exposing, for_upto, cerr, cout, printf, getchar.

Lemma total_invoke m this : total (invoke m this).
Proof. destruct m; unfold_methods; solve_total. Qed.

Lemma invoke_keeps_object m this w v this' w' t :
  invoke m this w = Ret (v, this') w' t →
  this' = match m with
          | m_setCameraID nCameraID => POACamera_ctor nCameraID
          | _ => this
          end.
Proof.
  destruct m; simpl; unfold bind, ret; intros Hrun;
    repeat case_match; naive_solver.
Qed.

Lemma invoke_addressed m this :
  obeys (Forall (addressed_to (m_nCameraID this))) (invoke m this).
Proof.
  destruct m; unfold_methods; solve_obeys ltac:(by repeat constructor).
Qed.

(** C7. The camera identifier is stored and forwarded: every member function
    of [POACamera] comes to an end; the object it leaves behind is the one it
    was called on, except for [setCameraID], which leaves the object made of
    its argument; every SDK call it makes carries [m_nCameraID] as its camera;
    and two objects with the same [m_nCameraID] are the same object. *)
Theorem camera_id_stored_and_forwarded m this w :
  (∃ v this' w' t,
     invoke m this w = Ret (v, this') w' t
     ∧ this' = match m with
               | m_setCameraID nCameraID => POACamera_ctor nCameraID
               | _ => this
               end
     ∧ Forall (addressed_to (m_nCameraID this)) t)
  ∧ (∀ c1 c2 : POACamera, m_nCameraID c1 = m_nCameraID c2 → c1 = c2).
Proof.
  split.
  - destruct (total_invoke m this w) as ([v this'] & w' & t & Hrun).
    exists v, this', w', t. split; [done|]. split.
    + by eapply invoke_keeps_object.
    + pose proof (invoke_addressed m this w) as Ht. by rewrite Hrun in Ht.
  - intros [id1] [id2]. simpl. by intros ->.
Qed.

(** C8. The two [switch] statements are inverse to each other on the four
    formats of [POACamera]: [setImageFormat] hands [to_POAImgFormat imgFmt]
    to the SDK, [getImageFormat] returns [of_POAImgFormat] of what the SDK
    hands back, going there and back gives the format one started from, and
    [POA_END] is read as [RAW8]. *)
Theorem image_format_round_trip :
  (∀ imgFmt, of_POAImgFormat (to_POAImgFormat imgFmt) = imgFmt)
  ∧ of_POAImgFormat POA_END = RAW8
  ∧ (∀ this imgFmt w, ∃ error,
       EvCall (POASetImageFormat (m_nCameraID this) (to_POAImgFormat imgFmt)) error
       ∈ trace_of (setImageFormat this imgFmt w))
  ∧ (∀ this w, ∃ error poaImgFmt w' t,
       getImageFormat this w = Ret (of_POAImgFormat poaImgFmt) w' t
       ∧ sdk _ (POAGetImageFormat (m_nCameraID this)) w = ((error, poaImgFmt), w')).
Proof.
  split; [by intros []|]. split; [done|]. split.
  - intros this imgFmt w.
    unfold setImageFormat, stop_if_exposing, bind, call, cerr, emit, ret.
    destruct (sdk _ (POAGetCameraState _) w) as [[e st] w1].
    destruct (bool_decide (st = STATE_EXPOSING)); simpl.
    + destruct (sdk _ (POAStopExposure _) w1) as [e1 w2]; simpl.
      destruct (sdk _ (POASetImageFormat _ _) w2) as [e2 w3].
      exists e2. destruct (not_ok e2); simpl; set_solver.
    + destruct (sdk _ (POASetImageFormat _ _) w1) as [e2 w3].
      exists e2. destruct (not_ok e2); simpl; set_solver.
  - intros this w.
    unfold getImageFormat, bind, call, when, cerr, emit, ret.
    destruct (sdk _ (POAGetImageFormat _) w) as [[e fmt] w1].
    exists e, fmt, w1. destruct (not_ok e); by eexists.
Qed.

(** C9. [getExposure] and [getGain] return [-1] when [POAGetConfig] comes
    back with a status other than [POA_OK], and the integer the SDK handed
    back otherwise; a result other than [-1] therefore always is the value of
    a call that succeeded. *)
Theorem get_config_error_sentinel this w
    error_e value_e auto_e w_e error_g value_g auto_g w_g :
  sdk _ (POAGetConfig (m_nCameraID this) POA_EXPOSURE) w
    = ((error_e, (value_e, auto_e)), w_e) →
  sdk _ (POAGetConfig (m_nCameraID this) POA_GAIN) w
    = ((error_g, (value_g, auto_g)), w_g) →
  (∃ t, getExposure this w
        = Ret (if is_ok error_e then intValue value_e else -1) w_e t)
  ∧ (∃ t, getGain this w
          = Ret (if is_ok error_g then intValue value_g else -1) w_g t)
  ∧ (∀ z w' t, getExposure this w = Ret z w' t → z ≠ -1 →
       error_e = POA_OK ∧ z = intValue value_e)
  ∧ (∀ z w' t, getGain this w = Ret z w' t → z ≠ -1 →
       error_g = POA_OK ∧ z = intValue value_g).
Proof.
  intros He Hg.
  unfold getExposure, getGain, bind, call, cerr, emit, ret, not_ok, is_ok.
  rewrite He, Hg. simpl.
  split; [|split; [|split]].
  - case_bool_decide; by eexists.
  - case_bool_decide; by eexists.
  - intros res w1 t1. case_bool_decide; simpl; naive_solver.
  - intros res w1 t1. case_bool_decide; simpl; naive_solver.
Qed.

(** ** Straight-line member functions, run symbolically *)

#[local] Arguments not_ok : simpl never.
#[local] Arguments is_ok : simpl never.

Ltac run_sdk :=
  unfold_methods; unfold bind, call, when, emit, ret; simpl;
  repeat
    (match goal with
     | |- context [sdk ?R ?c ?w] =>
         let r := fresh "r" in
         let w' := fresh "w" in
         destruct (sdk R c w) as [r w'] eqn:?
     | r : (_ * _)%type |- _ => destruct r
     | E : not_ok ?e = _ |- context [not_ok ?e] => rewrite E
     | |- context [not_ok ?e] =>
         let E := fresh "E" in destruct (not_ok e) eqn:E
     | |- context [bool_decide ?P] => destruct (bool_decide P)
     end; simpl).

Lemma reported_app silent t1 t2 :
  reported silent t1 → reported silent t2 → reported silent (t1 ++ t2).
Proof.
  intros H1 H2. induction t1 as [|e t1 IH]; [done|].
  destruct H1 as [He H1]. split; [|by apply IH].
  destruct (failure_of e); [|done].
  destruct (silent e); [done|]. by destruct t1.
Qed.

#[local] Instance reported_sequential silent : Sequential (reported silent).
Proof. split; [done|apply reported_app]. Qed.

#[local] Instance logs_match_sequential silent : Sequential (logs_match silent).
Proof.
  split; [done|]. unfold logs_match, n_logs, n_failed_calls.
  intros t1 t2 H1 H2. rewrite !List.filter_app, !length_app. lia.
Qed.

#[local] Instance and_sequential (P Q : list Event → Prop)
  `{!Sequential P, !Sequential Q} : Sequential (λ t, P t ∧ Q t).
Proof.
  split; [split; apply seq_nil|].
  intros t1 t2 [??] [??]. split; by apply seq_app.
Qed.

Ltac count_events :=
  unfold logs_match, n_logs, n_failed_calls, n_calls; cbn;
  repeat match goal with E : not_ok _ = _ |- _ => rewrite !E end; cbn.

Lemma invoke_reported m this w :
  reported (silent_in m) (trace_of (invoke m this w))
  ∧ logs_match (silent_in m) (trace_of (invoke m this w)).
Proof.
  destruct m;
    try (run_sdk; (split; [repeat split; try done; by eexists _, _|]);
         count_events; done).
  revert w. change (obeys (λ t, reported nobody t ∧ logs_match nobody t)
                      (invoke m_getAllConfigAttributes this)).
  unfold invoke, getAllConfigAttributes.
  apply obeys_bind; [apply _| |intros a; apply obeys_ret; apply _].
  apply obeys_call_bind. intros [error config_count] w.
  destruct (not_ok error) eqn:E.
  - simpl. rewrite E. split; [repeat split; try done; by eexists _, _|].
    by count_events.
  - apply (seq_app (P := λ t, reported nobody t ∧ logs_match nobody t) [_]).
    { simpl. rewrite E. split; [done|by count_events]. }
    apply obeys_for_upto; [apply _|]. clear. intros i [] w.
    run_sdk; try destruct (valueType _); simpl;
      repeat match goal with E : not_ok _ = _ |- _ => rewrite !E end;
      (split; [repeat split; try done|by count_events]).
    eexists ("Get config attributes failed！, index: " +:+ pretty i
             +:+ ", error code: "), _.
    by rewrite !string_app_assoc.
Qed.

Lemma getALLCameraIDName_silent w :
  reported is_properties (trace_of (getALLCameraIDName w))
  ∧ Forall (λ e, is_call e = true) (trace_of (getALLCameraIDName w)).
Proof.
  revert w.
  change (obeys (λ t, reported is_properties t ∧ Forall (λ e, is_call e = true) t)
            getALLCameraIDName).
  unfold getALLCameraIDName.
  solve_obeys ltac:(idtac).
  - split; [done|by repeat constructor].
  - split; [|by repeat constructor]. simpl. by destruct (not_ok _).
Qed.

(** C1, amended. Every member function of [POACamera] reports the failure of
    its SDK calls with a log line that carries the text of
    [POAGetErrorString], and prints as many log lines as it has such failed
    calls, with these exceptions, where a failure goes unreported: the calls
    of [POAGetCameraState] and [POAStopExposure] that open [setROIArea],
    [setImageSize] and [setImageFormat], the call of [POAImageReady] in
    [isImgDataAvailable] and the call of [POAGetImageData] in [getImageData].
    [getALLCameraIDName] prints nothing at all: the failure of
    [POAGetCameraProperties] goes unreported as well. *)
Theorem failures_reported_except_silent_calls m this w :
  reported (silent_in m) (trace_of (invoke m this w))
  ∧ logs_match (silent_in m) (trace_of (invoke m this w))
  ∧ reported is_properties (trace_of (getALLCameraIDName w))
  ∧ Forall (λ e, is_call e = true) (trace_of (getALLCameraIDName w)).
Proof.
  pose proof (invoke_reported m this w) as [??].
  pose proof (getALLCameraIDName_silent w) as [??]. done.
Qed.


(** ** [getALLCameraIDName] *)

Lemma map_insert_union (k : Z) (v : string) (m m' : gmap Z string) :
  map_insert k v m ∪ m' = m ∪ <[k:=v]> m'.
Proof.
  apply map_eq. intros i. unfold map_insert.
  destruct (m !! k) as [v'|] eqn:Hk; rewrite !lookup_union.
  - destruct (decide (i = k)) as [->|Hne].
    + rewrite Hk, lookup_insert_eq. by destruct (m' !! k).
    + by rewrite lookup_insert_ne.
  - destruct (decide (i = k)) as [->|Hne].
    + rewrite Hk, !lookup_insert_eq. by destruct (m' !! k).
    + by rewrite !lookup_insert_ne.
Qed.

Lemma getALLCameraIDName_loop n i (m0 : gmap Z string) w :
  ∃ m w' t,
    for_from n i (λ i cameraIDName,
      bind (call (POAGetCameraProperties i)) (λ '(error, cameraProp),
        if not_ok error then ret cameraIDName
        else ret (map_insert (cameraID cameraProp) (cameraModelName cameraProp)
                    cameraIDName))) m0 w = Ret m w' t
    ∧ Forall (λ e, is_properties e = true) t
    ∧ omap asked_index t = seqZ i (Z.of_nat n)
    ∧ m = m0 ∪ list_to_map (listed_cameras t).
Proof.
  match goal with |- context [for_from n i ?b] => set (body := b) end.
  revert i m0 w. induction n as [|n IH]; intros i m0 w.
  - exists m0, w, []. simpl. unfold ret.
    repeat split; [constructor|]. by rewrite (right_id_L ∅ (∪)).
  - simpl. unfold bind at 1. unfold body at 1. unfold bind at 1, call at 1.
    destruct (sdk _ (POAGetCameraProperties i) w) as [r w1].
    destruct r as [error cameraProp].
    rewrite Nat2Z.inj_succ, seqZ_cons by lia.
    replace (Z.pred (Z.succ (Z.of_nat n))) with (Z.of_nat n) by lia.
    replace (Z.succ i) with (i + 1) by lia.
    destruct (not_ok error) eqn:E; unfold not_ok in E;
      destruct (is_ok error) eqn:E'; try done; simpl.
    + destruct (IH (i + 1) m0 w1) as (m & w' & t & -> & ? & ? & ->).
      eexists _, _, _. split; [done|]. split; [by constructor|].
      split; [simpl; by f_equal|].
      unfold listed_cameras. simpl. by rewrite E'.
    + destruct (IH (i + 1) (map_insert (cameraID cameraProp)
                  (cameraModelName cameraProp) m0) w1)
        as (m & w' & t & -> & ? & ? & ->).
      eexists _, _, _. split; [done|]. split; [by constructor|].
      split; [simpl; by f_equal|].
      unfold listed_cameras. simpl. rewrite E'. simpl.
      apply map_insert_union.
Qed.

Lemma list_to_map_first (l : list (Z * string)) id model :
  first_listed l id model → (list_to_map l : gmap Z string) !! id = Some model.
Proof.
  intros (i & Hi & Hfirst). revert i Hi Hfirst.
  induction l as [|[id' model'] l IH]; intros i Hi Hfirst; [done|].
  destruct i as [|i]; simpl in *.
  - injection Hi as -> ->. apply lookup_insert_eq.
  - assert (id' ≠ id) as Hne.
    { intros ->. by apply (Hfirst 0%nat model'); [lia|]. }
    rewrite lookup_insert_ne by done.
    apply (IH i); [done|]. intros j model'' Hj.
    apply (Hfirst (S j) model''). lia.
Qed.

(** C10, amended. [getALLCameraIDName] asks for the camera count and then,
    once for each device index from 0 up to the count, for the properties;
    nothing else is in its trace, so nothing is printed.  Every entry of the
    map it returns is the camera ID and model name of an index whose
    properties could be read; every such index has an entry under its camera
    ID, and the entry carries the model name of the first index that reports
    this ID ([std::map::insert] leaves an entry that is there as it is): the
    model name of every such index when no two of them share a camera ID.
    The map is empty when the count is zero or less. *)
Theorem getALLCameraIDName_lists_readable_cameras w :
  ∃ m w' camera_count t,
    getALLCameraIDName w = Ret m w' (EvCall POAGetCameraCount camera_count :: t)
    ∧ Forall (λ e, is_properties e = true) t
    ∧ omap asked_index t = seqZ 0 camera_count
    ∧ (∀ id model, m !! id = Some model → (id, model) ∈ listed_cameras t)
    ∧ (∀ id model, (id, model) ∈ listed_cameras t → is_Some (m !! id))
    ∧ (∀ id model, first_listed (listed_cameras t) id model →
       m !! id = Some model)
    ∧ (NoDup (listed_cameras t).*1 → entry_for_each m t)
    ∧ (camera_count ≤ 0 → m = ∅).
Proof.
  unfold getALLCameraIDName, for_upto. unfold bind at 1, call at 1.
  destruct (sdk _ POAGetCameraCount w) as [camera_count w1].
  destruct (getALLCameraIDName_loop (Z.to_nat camera_count) 0 ∅ w1)
    as (m & w' & t & -> & Hprops & Hasked & ->).
  exists (∅ ∪ list_to_map (listed_cameras t)), w', camera_count, t.
  rewrite (left_id_L ∅ (∪)).
  split; [done|]. split; [done|]. split.
  { rewrite Hasked. unfold seqZ. by rewrite Nat2Z.id. }
  split; [intros id model; apply elem_of_list_to_map_2|].
  split.
  { intros id model Hin. apply not_eq_None_Some.
    rewrite <- not_elem_of_list_to_map. intros Hnot. apply Hnot.
    apply list_elem_of_fmap. by exists (id, model). }
  split; [intros id model; apply list_to_map_first|].
  split; [intros Hdup id model; by apply elem_of_list_to_map_1|].
  intros Hcount. rewrite Z2Nat.nonpos in Hasked by lia. simpl in Hasked.
  destruct t as [|e t]; [done|].
  apply Forall_cons in Hprops as [He _].
  destruct e as [R c r| | | | | | |]; try done. destruct c; done.
Qed.

(** ** The judgement on the trace gathered so far *)

Section Triple.

Context (Part : list Event → Prop).

Lemma triple_ret {A} (a : A) (Pre : list Event → Prop) Post :
  (∀ t, Pre t → Post a t) → triple Pre (ret a) Post Part.
Proof. intros HP w t0 Hpre. simpl. rewrite app_nil_r. by apply HP. Qed.

Lemma triple_bind {A B} (m : M A) (f : A → M B) Pre Mid Post :
  triple Pre m Mid Part → (∀ a, triple (Mid a) (f a) Post Part) →
  triple Pre (bind m f) Post Part.
Proof.
  intros Hm Hf w t0 Hpre. specialize (Hm w t0 Hpre). unfold bind.
  destruct (m w) as [a w' t|t]; [|done].
  specialize (Hf a w' (t0 ++ t) Hm).
  destruct (f a w') as [b w'' t'|t']; by rewrite app_assoc.
Qed.

Lemma triple_conseq {A} (m : M A) (Pre Pre' : list Event → Prop)
    (Post Post' : A → list Event → Prop) :
  (∀ t, Pre' t → Pre t) → (∀ a t, Post a t → Post' a t) →
  triple Pre m Post Part → triple Pre' m Post' Part.
Proof.
  intros HPre HPost Hm w t0 Hpre. specialize (Hm w t0 (HPre _ Hpre)).
  destruct (m w); [by apply HPost|done].
Qed.

Lemma triple_part {A} (m : M A) Pre Post (Part' : list Event → Prop) :
  (∀ t, Part' t → Part t) → triple Pre m Post Part' → triple Pre m Post Part.
Proof.
  intros HPart Hm w t0 Hpre. specialize (Hm w t0 Hpre).
  destruct (m w); [done|by apply HPart].
Qed.

Lemma triple_out_of_fuel {A} (Pre : list Event → Prop) (Post : A → _) :
  (∀ t, Pre t → Part t) → triple Pre out_of_fuel Post Part.
Proof. intros HP w t0 Hpre. simpl. rewrite app_nil_r. by apply HP. Qed.

Lemma triple_while {S} fuel (cond : S → M bool) (body : S → M S)
    (Inv : S → list Event → Prop) (Then Else : S → list Event → Prop) s :
  (∀ s, triple (Inv s) (cond s) (λ b, if b then Then s else Else s) Part) →
  (∀ s, triple (Then s) (body s) Inv Part) →
  (∀ s t, Then s t → Part t) →
  triple (Inv s) (while fuel cond body s) Else Part.
Proof.
  intros Hcond Hbody HPart. revert s.
  induction fuel as [|fuel IH]; intros s; simpl.
  - eapply triple_bind; [apply Hcond|]. intros [|].
    + apply triple_out_of_fuel, HPart.
    + by apply triple_ret.
  - eapply triple_bind; [apply Hcond|]. intros [|].
    + eapply triple_bind; [apply Hbody|]. intros s'. apply IH.
    + by apply triple_ret.
Qed.

Lemma triple_for_from {S} n i (body : Z → S → M S)
    (Inv : S → list Event → Prop) s :
  (∀ j s, triple (Inv s) (body j s) Inv Part) →
  triple (Inv s) (for_from n i body s) Inv Part.
Proof.
  intros Hbody. revert i s. induction n as [|n IH]; intros i s; simpl.
  - by apply triple_ret.
  - eapply triple_bind; [apply Hbody|]. intros s'. apply IH.
Qed.

(** A program whose events all satisfy [Q] keeps every [Pre] that events
    satisfying [Q] keep. *)
Lemma triple_quiet {A} (m : M A) (Q : Event → Prop) (Pre : list Event → Prop) :
  (∀ t t', Pre t → Forall Q t' → Pre (t ++ t')) →
  (∀ t, Pre t → Part t) →
  obeys (Forall Q) m → triple Pre m (λ _, Pre) Part.
Proof.
  intros Hkeep HPart Hm w t0 Hpre. specialize (Hm w).
  destruct (m w); simpl in *; [by apply Hkeep|by apply HPart, Hkeep].
Qed.

End Triple.

(** ** Waiting for the image *)

Lemma busy_wait_wait_image fuel pCamera w :
  busy_wait cpp_available fuel (wait_image fuel pCamera w).
Proof.
  unfold wait_image. revert w.
  induction fuel as [|fuel IH]; intros w; simpl;
    unfold bind at 1; unfold bind at 1; unfold isImgDataAvailable at 1;
    unfold bind at 1, call at 1;
    destruct (sdk _ (POAImageReady _) w) as [r w1]; destruct r as [error ready];
    set (e := EvCall (POAImageReady (m_nCameraID pCamera)) (error, ready));
    assert (He : is_poll e = true) by done;
    destruct (cpp_available e) eqn:Ha.
  - assert (not_ok error = false ∧ ready = POA_TRUE) as [-> ->].
    { unfold e, not_ok in *. simpl in Ha.
      destruct (is_ok error), ready; naive_solver. }
    simpl. by exists [], e.
  - assert ((if not_ok error then ret false
             else ret (bool_decide (ready = POA_TRUE))) w1
            = Ret (World := World) false w1 []) as ->.
    { unfold e, not_ok in *. simpl in Ha.
      destruct (is_ok error), ready; naive_solver. }
    simpl. split; [lia|]. by repeat constructor.
  - assert (not_ok error = false ∧ ready = POA_TRUE) as [-> ->].
    { unfold e, not_ok in *. simpl in Ha.
      destruct (is_ok error), ready; naive_solver. }
    simpl. by exists [], e.
  - assert ((if not_ok error then ret false
             else ret (bool_decide (ready = POA_TRUE))) w1
            = Ret (World := World) false w1 []) as ->.
    { unfold e, not_ok in *. simpl in Ha.
      destruct (is_ok error), ready; naive_solver. }
    simpl. unfold bind at 1, ret at 1. specialize (IH w1).
    destruct (while fuel _ _ () w1) as [[] w2 t|t]; simpl in *.
    + destruct IH as (t0 & e' & -> & Ht0 & He').
      exists (e :: t0), e'. split; [done|]. split; [|done].
      by constructor.
    + destruct IH as [Hlen Ht]. split; [lia|]. by constructor.
Qed.

Lemma busy_wait_c_wait_image fuel id w :
  busy_wait c_available fuel (c_wait_image fuel id w).
Proof.
  unfold c_wait_image. revert w.
  induction fuel as [|fuel IH]; intros w; simpl; [split; [lia|constructor]|].
  unfold bind at 1, ret at 1; simpl.
  unfold bind at 1; unfold bind at 1, call at 1.
  destruct (sdk _ (POAImageReady _) w) as [r w1]. destruct r as [error ready].
  set (e := EvCall (POAImageReady id) (error, ready)).
  assert (He : is_poll e = true) by done.
  simpl. destruct ready.
  - specialize (IH w1).
    destruct (while fuel _ _ POA_FALSE w1) as [p w2 t|t]; simpl in *.
    + destruct IH as (t0 & e' & -> & Ht0 & He').
      exists (e :: t0), e'. split; [done|]. split; [|done]. by constructor.
    + destruct IH as [Hlen Ht]. split; [lia|]. by constructor.
  - assert (while fuel
              (λ pIsReady, ret (bool_decide (pIsReady = POA_FALSE)))
              (λ _, bind (call (POAImageReady id)) (λ '(_, pIsReady), ret pIsReady))
              POA_TRUE w1 = Ret (World := World) POA_TRUE w1 []) as ->.
    { by destruct fuel. }
    simpl. by exists [], e.
Qed.

(** ** The capture loops *)

Lemma countdown_lookup (n i : nat) :
  (i < n)%nat → countdown n !! i = Some (Z.of_nat n - Z.of_nat i).
Proof.
  revert i. induction n as [|n IH]; intros i Hi; [lia|].
  destruct i as [|i]; simpl; [f_equal; lia|].
  rewrite IH by lia. f_equal. lia.
Qed.

Lemma length_countdown n : length (countdown n) = n.
Proof. induction n; simpl; by f_equal. Qed.

Lemma zip_with_snoc {A B C} (f : A → B → C) (l : list A) (k : list B) a b :
  l !! length k = Some a →
  zip_with f l (k ++ [b]) = zip_with f l k ++ [f a b].
Proof.
  revert l. induction k as [|y k IH]; intros [|x l] Hl; simplify_eq/=.
  - by destruct l.
  - by rewrite IH.
Qed.

Lemma zip_with_full {A B C} (f : A → B → C) (l : list A) (k k' : list B) :
  (length l ≤ length k)%nat → zip_with f l (k ++ k') = zip_with f l k.
Proof.
  revert l. induction k as [|y k IH]; intros [|x l] Hl; simpl in *;
    try done; try lia.
  f_equal. apply IH. lia.
Qed.

Lemma fetched_app t t' : fetched (t ++ t') = fetched t ++ fetched t'.
Proof. apply omap_app. Qed.

Lemma written_app t t' : written (t ++ t') = written t ++ written t'.
Proof. apply omap_app. Qed.

Lemma no_frame_fetched t : Forall no_frame t → fetched t = [].
Proof.
  induction 1 as [|e t [He _] _ IH]; [done|].
  unfold fetched in *. simpl. by rewrite He.
Qed.

Lemma no_frame_written t : Forall no_frame t → written t = [].
Proof.
  induction 1 as [|e t [_ He] _ IH]; [done|].
  unfold written in *. simpl. by rewrite He.
Qed.

Lemma capture_inv_quiet name k t t' :
  capture_inv name k t → Forall no_frame t' → capture_inv name k (t ++ t').
Proof.
  intros (? & ? & ?) Ht'. unfold capture_inv.
  rewrite fetched_app, written_app, (no_frame_fetched t'), (no_frame_written t')
    by done.
  rewrite !app_nil_r. auto.
Qed.

Lemma capture_inv_saved name k t l buf n :
  capture_inv name k t → 0 < k →
  fetched l = [(buf, n)] → written l = [(name k, (buf, n))] →
  capture_inv name (k - 1) (t ++ l).
Proof.
  intros (Hk & Hlen & Hw) Hpos Hf Hwl. unfold capture_inv.
  rewrite fetched_app, written_app, Hf, Hwl, length_app, Hlen, Hw.
  split; [lia|]. split; [simpl; lia|].
  unfold files_of. rewrite zip_with_snoc with (a := k); [done|].
  rewrite Hlen, countdown_lookup by lia. f_equal. lia.
Qed.

(** The events of polling, of reading the exposure and of the console are
    no frames. *)
Lemma wait_image_no_frame fuel pCamera :
  obeys (Forall no_frame) (wait_image fuel pCamera).
Proof.
  unfold wait_image, isImgDataAvailable.
  apply obeys_while; [apply _| |]; solve_obeys ltac:(by repeat constructor).
Qed.

Lemma c_wait_image_no_frame fuel id :
  obeys (Forall no_frame) (c_wait_image fuel id).
Proof.
  unfold c_wait_image.
  apply obeys_while; [apply _| |]; solve_obeys ltac:(by repeat constructor).
Qed.

(** Symbolic runs of straight-line code under the judgement. *)
Ltac run_sdk' :=
  unfold_methods; unfold bind, call, when, emit, ret, not_ok; simpl;
  repeat
    (match goal with
     | |- context [sdk ?R ?c ?w] =>
         let r := fresh "r" in
         let w' := fresh "w" in
         destruct (sdk R c w) as [r w'] eqn:?
     | r : (_ * _)%type |- _ => destruct r
     | E : is_ok ?e = _ |- context [is_ok ?e] => rewrite E
     | |- context [is_ok ?e] =>
         let E := fresh "E" in destruct (is_ok e) eqn:E
     | |- context [bool_decide (?x = STATE_EXPOSING)] =>
         destruct (bool_decide (x = STATE_EXPOSING))
     | |- context [bool_decide (?x = POA_TRUE)] =>
         destruct (bool_decide (x = POA_TRUE))
     end; simpl).

Ltac no_frames :=
  repeat constructor; simpl;
  repeat match goal with E : is_ok _ = _ |- _ => rewrite !E end; done.

Lemma cpp_capture_frame_inv fuel pCamera k :
  triple (λ t, capture_inv raw8_name k t ∧ 0 < k)
    (cpp_capture_frame fuel pCamera k)
    (capture_inv raw8_name) (capture_part raw8_name).
Proof.
  unfold cpp_capture_frame.
  eapply triple_bind.
  { apply (triple_quiet _ _ no_frame).
    - intros t t' [??] ?. split; [by apply capture_inv_quiet|done].
    - intros t [??]. by exists k.
    - apply wait_image_no_frame. }
  intros _ w t0 [Hinv Hk]. run_sdk'.
  all: first
    [ apply capture_inv_quiet; [done|no_frames]
    | eapply capture_inv_saved; [done|done|by (simpl; rewrite ?E, ?E0)|done] ].
Qed.

Lemma cpp_capture_inv fuel pCamera k :
  triple (capture_inv raw8_name k) (cpp_capture fuel pCamera k)
    (λ k' t, capture_inv raw8_name k' t ∧ ¬ k' > 0) (capture_part raw8_name).
Proof.
  unfold cpp_capture.
  apply triple_while with (Then := λ k t, capture_inv raw8_name k t ∧ 0 < k).
  - intros s. apply triple_ret. intros t Ht. case_bool_decide; [|done].
    split; [done|lia].
  - intros s. apply cpp_capture_frame_inv.
  - intros s t [??]. by exists s.
Qed.

Lemma c_capture_frame_inv fuel id buffer_size exposure_us k :
  triple (λ t, capture_inv raw16_name k t ∧ 0 < k)
    (c_capture_frame fuel id buffer_size exposure_us k)
    (capture_inv raw16_name) (capture_part raw16_name).
Proof.
  unfold c_capture_frame.
  eapply triple_bind.
  { apply (triple_quiet _ _ no_frame).
    - intros t t' [??] ?. split; [by apply capture_inv_quiet|done].
    - intros t [??]. by exists k.
    - apply c_wait_image_no_frame. }
  intros _ w t0 [Hinv Hk]. unfold printf. run_sdk'.
  all: first
    [ apply capture_inv_quiet; [done|no_frames]
    | eapply capture_inv_saved; [done|done|by (simpl; rewrite ?E, ?E0)|done] ].
Qed.

Lemma c_capture_inv fuel id buffer_size exposure_us k :
  triple (capture_inv raw16_name k)
    (c_capture fuel id buffer_size exposure_us k)
    (λ k' t, capture_inv raw16_name k' t ∧ ¬ k' > 0) (capture_part raw16_name).
Proof.
  unfold c_capture.
  apply triple_while with (Then := λ k t, capture_inv raw16_name k t ∧ 0 < k).
  - intros s. apply triple_ret. intros t Ht. case_bool_decide; [|done].
    split; [done|lia].
  - intros s. apply c_capture_frame_inv.
  - intros s t [??]. by exists s.
Qed.

Lemma capture_inv_counted {name} (r : Res (World := World) Z) :
  match r with
  | Ret k _ t => capture_inv name k ([] ++ t) ∧ ¬ k > 0
  | OutOfFuel t => capture_part name ([] ++ t)
  end → counted r.
Proof.
  destruct r as [k w t|t]; simpl.
  - intros [(Hk & Hlen & Hw) Hneg]. assert (k = 0) as -> by lia.
    split; [done|]. split; [done|].
    rewrite Hw. unfold files_of. rewrite length_zip_with, length_countdown. lia.
  - intros (k & Hk & (Hk' & Hlen & Hw)). split; [lia|].
    rewrite Hw. unfold files_of. rewrite length_zip_with, length_countdown. lia.
Qed.

Lemma n_fetches_app (t t' : list Event) :
  n_fetches (t ++ t') = (n_fetches t + n_fetches t')%nat.
Proof. unfold n_fetches. by rewrite List.filter_app, length_app. Qed.

Lemma n_fetches_cons (e : Event) (t : list Event) :
  n_fetches (e :: t) = ((if is_fetch e then 1 else 0) + n_fetches t)%nat.
Proof. unfold n_fetches. simpl. by destruct (is_fetch e). Qed.

Lemma n_fetches_quiet (t : list Event) :
  Forall (λ e, is_fetch e = false) t → n_fetches t = 0%nat.
Proof.
  unfold n_fetches. induction 1 as [|e t He _ IH]; simpl; [done|].
  by rewrite He.
Qed.

Lemma c_wait_image_no_fetch fuel id :
  obeys (Forall (λ e, is_fetch e = false)) (c_wait_image fuel id).
Proof.
  unfold c_wait_image.
  apply obeys_while; [apply _| |]; solve_obeys ltac:(by repeat constructor).
Qed.

Lemma c_video_frame_inv fuel id buffer_size exposure_us count :
  triple (λ t, video_inv count t ∧ count ≤ 20)
    (c_video_frame fuel id buffer_size exposure_us (count + 1))
    video_inv (λ t, (n_fetches t ≤ 21)%nat).
Proof.
  intros w t0 [[Hcount Hn] Hle]. unfold c_video_frame, printf.
  unfold bind at 1, emit.
  pose proof (c_wait_image_no_fetch fuel id w) as Hwait.
  unfold bind at 1.
  destruct (c_wait_image fuel id w) as [ready w1 t1|t1]; simpl in Hwait.
  - apply n_fetches_quiet in Hwait.
    unfold bind at 1, call at 1.
    destruct (sdk _ _ w1) as [[error data_buffer] w2].
    unfold when, emit, ret, bind. destruct (not_ok error); simpl.
    all: split; [lia|].
    all: rewrite ?n_fetches_app, ?n_fetches_cons, ?n_fetches_app, Hwait, Hn.
    all: unfold n_fetches; simpl; lia.
  - apply n_fetches_quiet in Hwait. simpl.
    rewrite ?n_fetches_app, ?n_fetches_cons, ?n_fetches_app, Hwait, Hn.
    unfold n_fetches; simpl. lia.
Qed.

Lemma c_video_counted fuel id buffer_size exposure_us w :
  turns_counted (c_video fuel id buffer_size exposure_us 0 w).
Proof.
  assert (triple (video_inv 0) (c_video fuel id buffer_size exposure_us 0)
            (λ count t, count = 22 ∧ n_fetches t = 21%nat)
            (λ t, (n_fetches t ≤ 21)%nat)) as Hloop.
  { unfold c_video. eapply triple_bind.
    - apply triple_while
        with (Inv := video_inv)
             (Then := λ count t, video_inv count t ∧ count ≤ 20)
             (Else := λ count t, video_inv count t ∧ count > 20).
      + intros s. apply triple_ret. intros t Ht. by case_bool_decide; split; try lia.
      + intros s. apply c_video_frame_inv.
      + intros s t [[? Hn] ?]. rewrite Hn. lia.
    - intros count. apply triple_ret. intros t [[? Hn] ?].
      assert (count = 21) as -> by lia. by rewrite Hn. }
  specialize (Hloop w [] ltac:(by split)).
  unfold turns_counted. by destruct (c_video _ _ _ _ _ w).
Qed.

Lemma c_loops_timed fuel id buffer_size exposure_us k :
  obeys (Forall (timed (exposure_us `quot` 1000 + 500)))
    (c_capture fuel id buffer_size exposure_us k)
  ∧ obeys (Forall (timed (exposure_us `quot` 1000 + 500)))
      (c_video fuel id buffer_size exposure_us k).
Proof.
  split.
  all: unfold c_capture, c_capture_frame, c_video, c_video_frame, c_wait_image,
    printf, when.
  all: solve_obeys ltac:(by repeat constructor).
Qed.

Lemma getImageData_timed pCamera size w :
  ∃ exposureUs w1 t1 answer,
    getExposure pCamera w = Ret exposureUs w1 t1
    ∧ trace_of (getImageData pCamera size w)
      = t1 ++ [EvCall (POAGetImageData (m_nCameraID pCamera) size
                         (exposureUs `quot` 1000 + 500)) answer].
Proof.
  assert (total (getExposure pCamera)) as Htotal
    by (unfold_methods; solve_total).
  destruct (Htotal w) as (exposureUs & w1 & t1 & Hrun).
  unfold getImageData. unfold bind at 1. rewrite Hrun.
  unfold bind, call, ret.
  destruct (sdk _ _ w1) as [[error pDataBuffer] w2] eqn:Hsdk. simpl.
  exists exposureUs, w1, t1, (error, pDataBuffer). split; [done|].
  by rewrite ?app_nil_r.
Qed.

(** C3, amended. The capture loops have no way out but the flag and a
    counter, and the only time limit is the one handed to the SDK with each
    fetch.  The inner loop of [main.cpp] polls until [isImgDataAvailable]
    answers true: its trace is made of polls that found nothing, ended by one
    that found the image, and when the bound [fuel] on the unfolding of the
    loop is reached the polls that found nothing are [fuel] or more; the same
    holds of the inner loop of [main.c] and the flag [pIsReady].  The outer
    loop that saves frames ends with the counter at zero, after exactly ten
    frames were fetched and saved, however many fetches failed; as long as
    fewer than ten were fetched it goes on.  The video loop of [main.c]
    counts its turns upwards instead: it ends after 21 fetches, failed or
    not, with the counter at 22.  Every fetch carries the exposure time
    divided by 1000 plus 500 as its last argument: in [getImageData] the
    exposure that [getExposure] has just read, in [main.c] the exposure that
    was set. *)
Theorem capture_loops_wait_and_count fuel pCamera id buffer_size exposure_us w :
  busy_wait cpp_available fuel (wait_image fuel pCamera w)
  ∧ busy_wait c_available fuel (c_wait_image fuel id w)
  ∧ counted (cpp_capture fuel pCamera 10 w)
  ∧ counted (c_capture fuel id buffer_size exposure_us 10 w)
  ∧ turns_counted (c_video fuel id buffer_size exposure_us 0 w)
  ∧ (∃ exposureUs w1 t1 answer,
       getExposure pCamera w = Ret exposureUs w1 t1
       ∧ trace_of (getImageData pCamera buffer_size w)
         = t1 ++ [EvCall (POAGetImageData (m_nCameraID pCamera) buffer_size
                            (exposureUs `quot` 1000 + 500)) answer])
  ∧ Forall (timed (exposure_us `quot` 1000 + 500))
      (trace_of (c_capture fuel id buffer_size exposure_us 10 w))
  ∧ Forall (timed (exposure_us `quot` 1000 + 500))
      (trace_of (c_video fuel id buffer_size exposure_us 0 w)).
Proof.
  split; [apply busy_wait_wait_image|].
  split; [apply busy_wait_c_wait_image|].
  split.
  { apply (capture_inv_counted (name := raw8_name)).
    by apply (cpp_capture_inv fuel pCamera 10 w []). }
  split.
  { apply (capture_inv_counted (name := raw16_name)).
    by apply (c_capture_inv fuel id buffer_size exposure_us 10 w []). }
  split; [apply c_video_counted|].
  split; [apply getImageData_timed|].
  destruct (c_loops_timed fuel id buffer_size exposure_us 10) as [Hcapture _].
  destruct (c_loops_timed fuel id buffer_size exposure_us 0) as [_ Hvideo].
  split; [apply Hcapture|apply Hvideo].
Qed.

(** ** Buffer sizes *)

Ltac unfold_mains :=
  unfold cpp_main, cpp_operate, cpp_capture, cpp_capture_frame, wait_image,
    c_main, c_operate, c_capture, c_capture_frame, c_video, c_video_frame,
    c_wait_image, c_list_cameras, c_list_configs, c_cooler, c_sensor_mode,
    getALLCameraIDName.

Ltac agree :=
  repeat constructor; unfold agrees, sizeless; simpl;
  repeat split; intros; simplify_eq; done.

Lemma cpp_main_agrees fuel :
  obeys (Forall (agrees 800 480 POA_RAW8 (800 * 480 * 1))) (cpp_main fuel).
Proof. unfold_mains; unfold_methods; solve_obeys agree. Qed.

Lemma sizeless_agrees width height imgFormat size e :
  sizeless imgFormat e → agrees width height imgFormat size e.
Proof.
  intros (Hsize & Hfmt & Hbuf & Hw). unfold agrees.
  rewrite Hsize, Hbuf, Hw. naive_solver.
Qed.

(** The buffers of the trace have the size of a resolution that the trace
    asks for, in [POA_RAW16]. *)
Local Abbreviation sized16 :=
  (λ t, ∃ width height,
     Forall (agrees width height POA_RAW16 (width * height * 2)) t).

Lemma sized16_quiet {A} (m : M A) :
  obeys (Forall (sizeless POA_RAW16)) m → obeys sized16 m.
Proof.
  intros Hm w. exists 0, 0.
  eapply Forall_impl; [apply Hm|]. intros e. apply sizeless_agrees.
Qed.

Lemma sized16_bind_l {A B} (m : M A) (f : A → M B) :
  obeys (Forall (sizeless POA_RAW16)) m → (∀ a, obeys sized16 (f a)) →
  obeys sized16 (bind m f).
Proof.
  intros Hm Hf w. rewrite trace_bind. specialize (Hm w).
  destruct (m w) as [a w' t|t].
  - destruct (Hf a w') as (width & height & Ht'). exists width, height.
    apply Forall_app. split; [|done].
    eapply Forall_impl; [done|]. intros e. apply sizeless_agrees.
  - exists 0, 0. eapply Forall_impl; [done|]. intros e. apply sizeless_agrees.
Qed.

Lemma sized16_bind_r {A B} (m : M A) (f : A → M B) :
  obeys sized16 m → (∀ a, obeys (Forall (sizeless POA_RAW16)) (f a)) →
  obeys sized16 (bind m f).
Proof.
  intros Hm Hf w. rewrite trace_bind.
  destruct (Hm w) as (width & height & Ht). exists width, height.
  destruct (m w) as [a w' t|t]; [|done].
  apply Forall_app. split; [done|].
  eapply Forall_impl; [apply Hf|]. intros e. apply sizeless_agrees.
Qed.

Lemma sized16_requested {A} id width height (k : POAErrors → M A) :
  (∀ error,
     obeys (Forall (agrees width height POA_RAW16 (width * height * 2))) (k error)) →
  obeys sized16 (bind (call (POASetImageSize id width height)) k).
Proof.
  intros Hk w. exists width, height. rewrite trace_bind. unfold call.
  destruct (sdk _ _ w) as [error w']. simpl.
  constructor; [agree|apply Hk].
Qed.

Lemma c_operate_sized fuel prop : obeys sized16 (c_operate fuel prop).
Proof.
  unfold c_operate.
  repeat first
    [ progress intros
    | apply sized16_requested; intros;
      unfold_mains; unfold_methods; solve_obeys agree
    | apply sized16_bind_l;
      [solve [unfold_mains; unfold_methods; solve_obeys agree]|]
    | match goal with
      | |- obeys _ (match ?x with _ => _ end) => destruct x
      end ].
Qed.

Lemma c_main_sized fuel : obeys sized16 (c_main fuel).
Proof.
  unfold c_main.
  repeat first
    [ progress intros
    | apply sized16_bind_r;
      [apply c_operate_sized
      |solve [intros; unfold_mains; unfold_methods; solve_obeys agree]]
    | apply sized16_bind_l;
      [solve [unfold_mains; unfold_methods; solve_obeys agree]|]
    | lazymatch goal with
      | |- context [c_operate] => fail
      | _ => solve [apply sized16_quiet; unfold_mains; unfold_methods;
                    solve_obeys agree]
      end
    | match goal with
      | |- obeys _ (match ?x with _ => _ end) => destruct x
      end ].
Qed.


(** ** Files *)

Lemma length_file_bytes buf n : length (file_bytes buf n) = Z.to_nat n.
Proof. unfold file_bytes. by rewrite length_fmap, length_seq. Qed.

#[local] Instance files_whole_sequential : Sequential files_whole.
Proof.
  split; [done|]. unfold files_whole. intros t1 t2 H1 H2.
  by rewrite List.filter_app, written_app, fmap_app, join_app, H1, H2.
Qed.

Lemma cpp_capture_frame_files fuel pCamera k :
  obeys files_whole (cpp_capture_frame fuel pCamera k).
Proof.
  unfold cpp_capture_frame. apply obeys_bind; [apply _| |].
  - unfold_mains; unfold_methods. solve_obeys ltac:(done).
  - intros _ w. run_sdk'; done.
Qed.

Lemma c_capture_frame_files fuel id buffer_size exposure_us k :
  obeys files_whole (c_capture_frame fuel id buffer_size exposure_us k).
Proof.
  unfold c_capture_frame. apply obeys_bind; [apply _| |].
  - unfold_mains; unfold_methods. solve_obeys ltac:(done).
  - intros _ w. unfold printf. run_sdk'; done.
Qed.

Lemma cpp_main_files fuel : obeys files_whole (cpp_main fuel).
Proof.
  unfold cpp_main, cpp_operate, cpp_capture, getALLCameraIDName; unfold_methods.
  solve_obeys_with ltac:(apply cpp_capture_frame_files) ltac:(done).
Qed.

Lemma c_main_files fuel : obeys files_whole (c_main fuel).
Proof.
  unfold c_main, c_operate, c_capture, c_video, c_video_frame, c_wait_image,
    c_list_cameras, c_list_configs, c_cooler, c_sensor_mode; unfold_methods.
  solve_obeys_with ltac:(apply c_capture_frame_files) ltac:(done).
Qed.

Lemma agrees_written width height imgFormat size t :
  Forall (agrees width height imgFormat size) t →
  Forall (λ f, f.2.2 = size) (written t).
Proof.
  induction 1 as [|e t (_ & _ & _ & He) _ IH]; [constructor|].
  unfold written in *. simpl. destruct (written_file e); [|done].
  constructor; [by apply He|done].
Qed.

(** ** What the programs capture *)

Lemma triple_no_frame {A} name k (m : M A) :
  obeys (Forall no_frame) m →
  triple (capture_inv name k) m (λ _, capture_inv name k)
    (λ t, ∃ k, capture_inv name k t).
Proof.
  apply triple_quiet.
  - apply capture_inv_quiet.
  - intros t ?. by exists k.
Qed.

Lemma idle_quiet name t t' :
  idle name t → Forall quiet_idle t' → idle name (t ++ t').
Proof.
  intros [Hinv Hstart] Ht'. split.
  - apply capture_inv_quiet; [done|].
    eapply Forall_impl; [done|]. by intros e [??].
  - apply Forall_app. split; [done|].
    eapply Forall_impl; [done|]. by intros e [??].
Qed.

Lemma triple_idle {A} name (m : M A) Part :
  (∀ t, idle name t → Part t) →
  obeys (Forall quiet_idle) m → triple (idle name) m (λ _, idle name) Part.
Proof. intros HPart. apply triple_quiet; [apply idle_quiet|done]. Qed.

Lemma captured_quiet name t t' :
  captured name t → Forall no_write t' → captured name (t ++ t').
Proof.
  intros [Hlen Hw] Ht'. unfold captured.
  rewrite fetched_app, written_app, length_app.
  split; [lia|].
  assert (written t' = []) as ->.
  { clear -Ht'. induction Ht' as [|e t He _ IH]; [done|].
    unfold written in *. simpl. by rewrite He. }
  rewrite app_nil_r, Hw. unfold files_of.
  symmetry. apply zip_with_full. by rewrite length_countdown.
Qed.

Lemma triple_captured {A} name (m : M A) Part :
  (∀ t, captured name t → Part t) →
  obeys (Forall no_write) m → triple (captured name) m (λ _, captured name) Part.
Proof. intros HPart. apply triple_quiet; [apply captured_quiet|done]. Qed.

Lemma capture_inv_0_captured name t : capture_inv name 0 t → captured name t.
Proof. intros (_ & Hlen & Hw). split; [|done]. rewrite Hlen. simpl. lia. Qed.

Ltac next :=
  intros ?;
  repeat match goal with
         | |- triple _ (match ?x with (_, _) => _ end) _ _ => destruct x
         end.

Ltac quiet :=
  unfold_mains; unfold_methods;
  solve_obeys ltac:(by repeat constructor).

Lemma cpp_operate_captures fuel iter :
  triple (idle raw8_name) (cpp_operate fuel iter)
    (λ _, capture_inv raw8_name 0) (λ t, ∃ k, capture_inv raw8_name k t).
Proof.
  eapply triple_conseq with (Pre := capture_inv raw8_name 10);
    [by intros t [??]|intros a t Ht; exact Ht|].
  unfold cpp_operate.
  repeat (eapply triple_bind;
          [solve [apply triple_no_frame; quiet]|next]).
  eapply triple_bind.
  { eapply triple_part; [|apply cpp_capture_inv].
    intros t (k & _ & ?). by exists k. }
  intros k. simpl.
  eapply triple_conseq with (Pre := capture_inv raw8_name 0)
                            (Post := λ _, capture_inv raw8_name 0).
  { intros t [(Hk & ?) Hneg]. by assert (k = 0) as <- by lia. }
  { done. }
  repeat (eapply triple_bind;
          [solve [apply triple_no_frame; quiet]|next]).
  apply triple_no_frame; quiet.
Qed.

Lemma cpp_main_captures fuel :
  triple (idle raw8_name) (cpp_main fuel)
    (λ _ t, capture_inv raw8_name 0 t ∨ idle raw8_name t)
    (λ t, ∃ k, capture_inv raw8_name k t).
Proof.
  assert (Hidle : ∀ t, idle raw8_name t → ∃ k, capture_inv raw8_name k t).
  { intros t [??]. by exists 10. }
  unfold cpp_main.
  repeat (eapply triple_bind; [solve [by apply triple_idle; [|quiet]]|next]).
  eapply triple_bind with
    (Mid := λ _ t, capture_inv raw8_name 0 t ∨ idle raw8_name t).
  { destruct (map_entries _) as [|iter ?].
    - apply triple_ret. by right.
    - eapply triple_conseq; [| |apply cpp_operate_captures]; [done|].
      intros ? t ?. by left. }
  intros _.
  apply (triple_quiet _ _ quiet_idle).
  - intros t t' [Ht|Ht] Ht'; [left|right; by apply idle_quiet].
    apply capture_inv_quiet; [done|].
    eapply Forall_impl; [done|]. by intros e [??].
  - intros t [?|?]; [by exists 0|by apply Hidle].
  - quiet.
Qed.

Lemma c_operate_captures fuel prop :
  triple (idle raw16_name) (c_operate fuel prop)
    (λ _, captured raw16_name)
    (λ t, (∃ k, capture_inv raw16_name k t) ∨ captured raw16_name t).
Proof.
  eapply triple_conseq with (Pre := capture_inv raw16_name 10);
    [by intros t [??]|intros a t Ht; exact Ht|].
  unfold c_operate.
  repeat (eapply triple_bind;
          [solve [eapply triple_part; [|apply triple_no_frame; quiet];
                  intros; by left]|next]).
  eapply triple_bind.
  { eapply triple_part; [|apply c_capture_inv].
    intros t (k & _ & ?). left. by exists k. }
  intros k. simpl.
  eapply triple_conseq with (Pre := captured raw16_name)
                            (Post := λ _, captured raw16_name).
  { intros t [(Hk & ?) Hneg]. apply capture_inv_0_captured.
    by assert (k = 0) as <- by lia. }
  { done. }
  repeat (eapply triple_bind;
          [solve [apply triple_captured; [intros; by right|quiet]]|next]).
  apply triple_captured; [intros; by right|quiet].
Qed.

Lemma c_main_captures fuel :
  triple (idle raw16_name) (c_main fuel)
    (λ _ t, captured raw16_name t ∨ idle raw16_name t)
    (λ t, (∃ k, capture_inv raw16_name k t) ∨ captured raw16_name t).
Proof.
  assert (Hidle : ∀ t, idle raw16_name t →
            (∃ k, capture_inv raw16_name k t) ∨ captured raw16_name t).
  { intros t [??]. left. by exists 10. }
  unfold c_main.
  repeat first
    [ progress intros
    | lazymatch goal with
      | |- context [c_operate] => fail
      | _ => solve [eapply triple_conseq; [| |by apply triple_idle; [|quiet]];
                    [done|intros; by right]]
      end
    | eapply triple_bind; [solve [by apply triple_idle; [|quiet]]|]
    | eapply triple_bind;
      [solve [eapply triple_conseq; [| |apply c_operate_captures]; done]|];
      intros;
      eapply triple_conseq; [| |apply triple_captured; [|quiet]];
      [done|intros; by left|intros; by right]
    | match goal with
      | |- triple _ (match ?x with _ => _ end) _ _ => destruct x
      end ].
Qed.

Lemma files_of_names name (frames : list (Buffer * Z)) :
  (10 ≤ length frames)%nat → (files_of name frames).*1 = name <$> countdown 10.
Proof.
  intros Hlen. unfold files_of.
  rewrite <- (zip_with_fmap_l pair name). apply fst_zip.
  by rewrite length_fmap, length_countdown.
Qed.

Lemma idle_nil name : idle name [].
Proof. split; [|constructor]. by split. Qed.

Lemma not_idle_started name t :
  idle name t → Exists (λ e, is_start e = true) t → False.
Proof.
  intros [_ Hidle] Hstart. apply Exists_exists in Hstart as (e & He & Hs).
  rewrite Forall_forall in Hidle. specialize (Hidle e He). congruence.
Qed.


(** ** The pipeline *)

Lemma steps_app t t' : steps (t ++ t') = steps t ++ steps t'.
Proof. apply omap_app. Qed.

Lemma last_from_app (a : option Step) l l' :
  last_from a (l ++ l') = last_from (last_from a l) l'.
Proof.
  unfold last_from. destruct l' as [|x l'] using rev_ind.
  - rewrite app_nil_r. simpl. by destruct (last l).
  - by rewrite app_assoc, !last_snoc.
Qed.

Lemma chain_app a l l' :
  chain a (l ++ l') = chain a l && chain (last_from a l) l'.
Proof.
  revert a. induction l as [|b l IH]; intros a; [done|].
  simpl. rewrite IH, andb_assoc. do 2 f_equal.
  unfold last_from. destruct l as [|c l]; [done|].
  change (last (b :: c :: l)) with (last (c :: l)).
  destruct (last (c :: l)) eqn:E; [done|]. by apply last_None in E.
Qed.

Lemma upto_app q q' t l :
  upto q t → chain q (steps l) = true → last_from q (steps l) = q' →
  upto q' (t ++ l).
Proof.
  intros [Hord Hlast] Hchain <-. unfold upto, in_pipeline_order in *.
  rewrite steps_app, chain_app, Hord. simpl.
  assert (last_from None (steps t) = q) as Hq.
  { unfold last_from. rewrite Hlast. by destruct q. }
  rewrite Hq, Hchain. split; [done|].
  unfold last_from. destruct (steps l) as [|x l'] using rev_ind.
  - by rewrite app_nil_r.
  - by rewrite app_assoc, !last_snoc.
Qed.

Lemma upto_stepless q t t' : upto q t → Forall stepless t' → upto q (t ++ t').
Proof.
  intros Hq Ht'. assert (steps t' = []) as Hs.
  { induction Ht' as [|e t' He _ IH]; [done|].
    unfold steps in *. simpl. by rewrite He. }
  eapply upto_app; [done| |]; by rewrite Hs.
Qed.

Lemma triple_stepless {A} q (m : M A) :
  obeys (Forall stepless) m →
  triple (upto q) m (λ _, upto q) in_pipeline_order.
Proof. apply triple_quiet; [apply upto_stepless|by intros t [??]]. Qed.

(** A symbolic run of straight-line code from one step to another. *)
Ltac pipe :=
  intros w t0 Hpre; run_sdk';
  repeat match goal with
         | H : _ ∨ _ |- _ => destruct H
         | H : _ ∧ _ |- _ => destruct H
         end;
  repeat match goal with
         | |- _ ∨ _ =>
             first
               [ left; solve [eapply upto_app; [eassumption|done|done]]
               | right ]
         | |- _ ∧ _ => split; [try done; lia|]
         end;
  try solve [eapply upto_app; [eassumption|done|done]].

Lemma openCamera_step pCamera :
  triple (upto (Some Enumerate)) (openCamera pCamera)
    (λ _, upto (Some Open)) in_pipeline_order.
Proof. pipe. Qed.

Lemma initCamera_step pCamera :
  triple (upto (Some Open)) (initCamera pCamera)
    (λ _, upto (Some Open)) in_pipeline_order.
Proof. pipe. Qed.

Lemma getAllConfigAttributes_step pCamera :
  triple (upto (Some Open)) (getAllConfigAttributes pCamera)
    (λ _, upto (Some Configure)) in_pipeline_order.
Proof.
  unfold getAllConfigAttributes.
  eapply triple_bind with (Mid := λ _, upto (Some Configure)); [pipe|].
  intros [error config_count]. destruct (not_ok error).
  - apply triple_stepless. quiet.
  - unfold for_upto.
    apply triple_for_from with (Inv := λ _, upto (Some Configure)).
    intros i []. pipe.
    all: destruct (valueType _); simpl;
      (eapply upto_app; [eassumption|done|done]).
Qed.

Lemma setImageSize_step pCamera width height :
  triple (upto (Some Configure)) (setImageSize pCamera width height)
    (λ _, upto (Some Configure)) in_pipeline_order.
Proof. pipe. Qed.

Lemma setImageStartPos_step pCamera x y :
  triple (upto (Some Configure)) (setImageStartPos pCamera x y)
    (λ _, upto (Some Configure)) in_pipeline_order.
Proof. pipe. Qed.

Lemma setImageFormat_step pCamera imgFmt :
  triple (upto (Some Configure)) (setImageFormat pCamera imgFmt)
    (λ _, upto (Some Configure)) in_pipeline_order.
Proof. pipe. Qed.

Lemma setExposure_step pCamera expoUs isAuto :
  triple (upto (Some Configure)) (setExposure pCamera expoUs isAuto)
    (λ _, upto (Some Configure)) in_pipeline_order.
Proof. pipe. Qed.

Lemma setGain_step pCamera gain isAuto :
  triple (upto (Some Configure)) (setGain pCamera gain isAuto)
    (λ _, upto (Some Configure)) in_pipeline_order.
Proof. pipe. Qed.

Lemma startExposure_step pCamera :
  triple (upto (Some Configure)) (startExposure pCamera)
    (λ _, upto (Some StartExposure)) in_pipeline_order.
Proof. pipe. Qed.

Lemma closeCamera_step pCamera :
  triple (upto (Some Persist)) (closeCamera pCamera)
    (λ _, upto (Some Close)) in_pipeline_order.
Proof. pipe. Qed.

Lemma wait_image_step fuel pCamera :
  triple pollable (wait_image fuel pCamera)
    (λ _, upto (Some PollReady)) in_pipeline_order.
Proof.
  unfold wait_image.
  apply triple_while with (Inv := λ _ : (), pollable)
    (Then := λ _ : (), upto (Some PollReady)).
  - intros []. unfold pollable. pipe.
  - intros []. apply triple_ret. intros t ?. unfold pollable. tauto.
  - by intros [] t [??].
Qed.

Lemma cpp_capture_frame_step fuel pCamera k :
  triple (λ t, capture_steps k t ∧ 0 < k) (cpp_capture_frame fuel pCamera k)
    capture_steps in_pipeline_order.
Proof.
  unfold cpp_capture_frame.
  eapply triple_bind with (Mid := λ _ t, upto (Some PollReady) t ∧ 0 < k).
  - intros w t0 [Hpre Hk].
    assert (Hp : pollable t0) by (unfold capture_steps, pollable in *; tauto).
    pose proof (wait_image_step fuel pCamera w t0 Hp) as Hw.
    by destruct (wait_image fuel pCamera w).
  - intros _. unfold capture_steps. pipe.
Qed.

Lemma cpp_capture_step fuel pCamera k :
  triple (capture_steps k) (cpp_capture fuel pCamera k)
    (λ _, upto (Some Persist)) in_pipeline_order.
Proof.
  unfold cpp_capture.
  eapply triple_conseq; [| |apply triple_while with
    (Inv := capture_steps) (Then := λ k t, capture_steps k t ∧ 0 < k)
    (Else := λ k t, capture_steps k t ∧ ¬ k > 0)].
  - done.
  - intros k' t [[?|[??]] ?]; [done|lia].
  - intros s. apply triple_ret. intros t Ht. case_bool_decide; [|done].
    split; [done|lia].
  - intros s. apply cpp_capture_frame_step.
  - intros s t [[[??]|[? [[??]|[??]]]] ?]; done.
Qed.

Ltac stepless_events :=
  unfold_mains; unfold_methods; solve_obeys ltac:(by repeat constructor).

Lemma cpp_operate_step fuel iter :
  triple (upto (Some Enumerate)) (cpp_operate fuel iter)
    (λ _, upto (Some Close)) in_pipeline_order.
Proof.
  unfold cpp_operate.
  repeat
    (eapply triple_bind;
     [ first
         [ apply openCamera_step | apply initCamera_step
         | apply getAllConfigAttributes_step | apply setImageSize_step
         | apply setImageStartPos_step | apply setImageFormat_step
         | apply setExposure_step | apply setGain_step
         | apply startExposure_step | apply closeCamera_step
         | eapply triple_conseq; [| |apply cpp_capture_step];
           [intros t ?; right; split; [lia|by left]|done]
         | solve [apply triple_stepless; stepless_events] ]
     | next ]).
  apply triple_stepless; stepless_events.
Qed.

Lemma getALLCameraIDName_step :
  triple (upto None) getALLCameraIDName
    (λ _, upto (Some Enumerate)) in_pipeline_order.
Proof.
  unfold getALLCameraIDName.
  eapply triple_bind with (Mid := λ _, upto (Some Enumerate)); [pipe|].
  intros camera_count. unfold for_upto.
  apply triple_for_from with
    (Inv := λ _ : gmap Z string, upto (Some Enumerate)).
  intros i m. pipe.
Qed.

Lemma cpp_main_steps fuel :
  triple (upto None) (cpp_main fuel)
    (λ _ t, upto (Some Close) t ∨ upto (Some Enumerate) t) in_pipeline_order.
Proof.
  unfold cpp_main.
  eapply triple_bind; [apply getALLCameraIDName_step|]. next.
  eapply triple_bind; [apply triple_stepless; stepless_events|]. next.
  eapply triple_bind with
    (Mid := λ _ t, upto (Some Close) t ∨ upto (Some Enumerate) t).
  { destruct (map_entries _) as [|iter ?].
    - apply triple_ret. by right.
    - eapply triple_conseq; [| |apply cpp_operate_step]; [done|].
      intros ? t ?. by left. }
  next. apply (triple_quiet _ _ stepless).
  - intros t t' [?|?] ?; [left|right]; by apply upto_stepless.
  - by intros t [[??]|[??]].
  - stepless_events.
Qed.

Lemma follows_phase a b :
  follows a b = true → (from_option phase 0 a ≤ phase b)%nat.
Proof. destruct a as [[]|], b; simpl; intros; try done; lia. Qed.

Lemma chain_phase a l :
  chain a l = true →
  Forall (λ b, (from_option phase 0 a ≤ phase b)%nat) l
  ∧ ∀ i j x y, (i < j)%nat → l !! i = Some x → l !! j = Some y →
               (phase x ≤ phase y)%nat.
Proof.
  revert a. induction l as [|b l IH]; intros a; simpl.
  - intros _. split; [constructor|]. by intros i j x y _ ?.
  - intros [Hab Hl]%andb_prop. apply follows_phase in Hab.
    destruct (IH _ Hl) as [Hall Hmono]. simpl in Hall. split.
    + constructor; [done|]. eapply Forall_impl; [done|]. simpl. lia.
    + intros [|i] [|j] x y Hij Hx Hy; simplify_eq/=; try lia.
      * rewrite Forall_forall in Hall. apply Hall.
        by apply list_elem_of_lookup_2 in Hy.
      * eapply (Hmono i j); [lia|done|done].
Qed.


(** ** The listing of the configuration attributes *)

Lemma seqZ_succ i (n : nat) : seqZ i (Z.of_nat (S n)) = i :: seqZ (i + 1) (Z.of_nat n).
Proof.
  rewrite Nat2Z.inj_succ, seqZ_cons by lia.
  by replace (Z.pred (Z.succ (Z.of_nat n))) with (Z.of_nat n) by lia.
Qed.

Lemma getAllConfigAttributes_loop this n i w :
  ∃ w' t,
    for_from n i (λ i _,
      bind (call (POAGetConfigAttributes (m_nCameraID this) i))
        (λ '(error, confAttributes),
          if not_ok error then
            cerr ("Get config attributes failed！, index: " +:+ pretty i
                  +:+ ", error code: " +:+ POAGetErrorString error +:+ endl)
          else
            bind (cout endl) (λ _,
            bind (cout ("config name: " +:+ szConfName confAttributes
                  +:+ ", config description: " +:+ szDescription confAttributes
                  +:+ endl)) (λ _,
            bind (cout ("is writable: "
                  +:+ pretty (int_of_POABool (isWritable confAttributes))
                  +:+ endl)) (λ _,
            bind (cout ("is readable: "
                  +:+ pretty (int_of_POABool (isReadable confAttributes))
                  +:+ endl)) (λ _,
            match valueType confAttributes with
            | VAL_INT =>
                cout ("min: " +:+ pretty (intValue (minValue confAttributes))
                      +:+ ", max: " +:+ pretty (intValue (maxValue confAttributes))
                      +:+ ", default: "
                      +:+ pretty (intValue (defaultValue confAttributes))
                      +:+ endl)
            | VAL_FLOAT =>
                cout ("min: " +:+ cout_double (floatValue (minValue confAttributes))
                      +:+ ", max: "
                      +:+ cout_double (floatValue (maxValue confAttributes))
                      +:+ ", default: "
                      +:+ cout_double (floatValue (defaultValue confAttributes))
                      +:+ endl)
            | VAL_BOOL =>
                cout ("default is on: "
                      +:+ pretty (int_of_POABool
                                    (boolValue (defaultValue confAttributes)))
                      +:+ endl)
            end)))))) () w = Ret () w' t
    ∧ omap asked_config t = seqZ i (Z.of_nat n)
    ∧ Forall (λ e, is_call e = true → is_attributes e = true) t
    ∧ length (List.filter is_stdout t)
      = (5 * (length (List.filter is_attributes t) - n_failed_calls t))%nat
    ∧ (n_failed_calls t ≤ length (List.filter is_attributes t))%nat
    ∧ n_logs t = n_failed_calls t.
Proof.
  match goal with |- context [for_from n i ?b] => set (body := b) end.
  revert i w. induction n as [|n IH]; intros i w.
  - exists w, []. simpl. unfold ret. repeat split; constructor.
  - simpl. unfold bind at 1. unfold body at 1. unfold bind at 1, call at 1.
    destruct (sdk _ (POAGetConfigAttributes _ i) w) as [r w1].
    destruct r as [error confAttributes]. rewrite seqZ_succ.
    destruct (IH (i + 1) w1) as (w' & t & Hrun & Hasked & Hcalls & Hout & Hle & Hlogs).
    destruct (not_ok error) eqn:E.
    + unfold cerr, emit. rewrite Hrun. eexists _, _. split; [reflexivity|].
      unfold n_failed_calls, n_logs in *. simpl. rewrite E. simpl.
      split; [by f_equal|]. split; [by repeat constructor|].
      split; [rewrite Hout; lia|]. split; lia.
    + unfold cout, emit, bind. destruct (valueType confAttributes); simpl.
      all: rewrite Hrun; eexists _, _; (split; [reflexivity|]).
      all: unfold n_failed_calls, n_logs in *; simpl; rewrite E; simpl.
      all: split; [by f_equal|]; split; [by repeat constructor|].
      all: split; [rewrite Hout; lia|]; split; lia.
Qed.

(** X1. [getAllConfigAttributes] asks for the number of attributes first.  If
    that call fails it prints one line on the error stream and asks for
    nothing else.  Otherwise it asks for the attributes of every index from 0
    up to the count, in this order, and makes no other call; an index that
    cannot be read costs one line on the error stream and the listing goes on
    with the next; each index that is read gives five lines on the standard
    output. *)
Theorem getAllConfigAttributes_lists_every_index this w :
  ∃ error config_count w' t,
    getAllConfigAttributes this w
    = Ret () w' (EvCall (POAGetConfigsCount (m_nCameraID this))
                   (error, config_count) :: t)
    ∧ if is_ok error then attributes_listed config_count t ∧ n_logs t = n_failed_calls t
      else t = [EvStderr ("Get config count failed！, error code: "
                          +:+ POAGetErrorString error +:+ endl)].
Proof.
  unfold getAllConfigAttributes. unfold bind at 1, call at 1.
  destruct (sdk _ (POAGetConfigsCount _) w) as [[error config_count] w1].
  exists error, config_count.
  assert (not_ok error = negb (is_ok error)) as -> by done.
  destruct (is_ok error) eqn:E; cbn [negb].
  - unfold for_upto.
    destruct (getAllConfigAttributes_loop this (Z.to_nat config_count) 0 w1)
      as (w' & t & -> & Hasked & Hcalls & Hout & _ & Hlogs).
    exists w', t. split; [done|]. split; [|done]. split; [|done].
    rewrite Hasked. unfold seqZ. by rewrite Nat2Z.id.
  - unfold cerr, emit. by eexists _, _.
Qed.

(** ** Stepping through a program *)

Lemma bind_call {R A} (c : SdkCall R) (k : R → M A) w :
  bind (call c) k w
  = match k (sdk R c w).1 (sdk R c w).2 with
    | Ret b w' t => Ret b w' (EvCall c (sdk R c w).1 :: t)
    | OutOfFuel t => OutOfFuel (EvCall c (sdk R c w).1 :: t)
    end.
Proof. unfold bind, call. by destruct (sdk R c w). Qed.

Lemma bind_emit {A} e (k : unit → M A) w :
  bind (emit e) k w
  = match k () w with
    | Ret b w' t => Ret b w' (e :: t)
    | OutOfFuel t => OutOfFuel (e :: t)
    end.
Proof. done. Qed.

Lemma bind_ret_l {A B} (a : A) (k : A → M B) w : bind (ret a) k w = k a w.
Proof. unfold bind, ret. by destruct (k a w). Qed.

(** ** [getImageData] when the exposure cannot be read *)

(** X2. [getImageData] fetches whether or not the exposure could be read.
    The time limit it hands to [POAGetImageData] is the exposure divided by
    1000, plus 500, when [POAGetConfig] succeeded, and 500 when it failed
    (the -1 of [getExposure], divided by 1000 towards zero, plus 500); in the
    second case one line is logged.  The result tells whether the fetch
    succeeded, and nothing about the exposure. *)
Theorem getImageData_time_limit this size w :
  ∃ error exposValue boolValue w1 fetch w2 t,
    sdk _ (POAGetConfig (m_nCameraID this) POA_EXPOSURE) w
    = ((error, (exposValue, boolValue)), w1)
    ∧ sdk _ (POAGetImageData (m_nCameraID this) size
               (if is_ok error then intValue exposValue `quot` 1000 + 500 else 500)) w1
      = (fetch, w2)
    ∧ getImageData this size w = Ret (is_ok fetch.1, fetch.2) w2 t
    ∧ n_calls t = 2%nat
    ∧ n_logs t = (if is_ok error then 0 else 1)%nat.
Proof.
  unfold getImageData, getExposure.
  destruct (sdk _ (POAGetConfig _ POA_EXPOSURE) w)
    as [[error [exposValue boolValue]] w1] eqn:Hconfig.
  exists error, exposValue, boolValue, w1.
  assert (not_ok error = negb (is_ok error)) as Hnot by done.
  destruct (is_ok error) eqn:E.
  - destruct (sdk _ (POAGetImageData (m_nCameraID this) size
                       (intValue exposValue `quot` 1000 + 500)) w1)
      as [fetch w2] eqn:Hfetch.
    exists fetch, w2. eexists. split; [done|]. split; [done|].
    unfold bind, call, cerr, emit, ret. rewrite Hconfig, Hnot. simpl.
    rewrite Hfetch. destruct fetch as [error' buf]. simpl.
    split; [reflexivity|]. by split.
  - destruct (sdk _ (POAGetImageData (m_nCameraID this) size 500) w1)
      as [fetch w2] eqn:Hfetch.
    exists fetch, w2. eexists. split; [done|]. split; [done|].
    unfold bind, call, cerr, emit, ret. rewrite Hconfig, Hnot. simpl.
    change ((-1) `quot` 1000 + 500) with 500.
    rewrite Hfetch. destruct fetch as [error' buf]. simpl.
    split; [reflexivity|]. by split.
Qed.

(** ** The examples when there is no camera *)

(** X3. When [POAGetCameraCount] answers zero or less, [main.c] says so,
    waits for a key and returns 0: the only call it makes is the one for the
    count. *)
Theorem c_main_no_camera fuel w camera_count w' :
  sdk _ POAGetCameraCount w = (camera_count, w') → camera_count ≤ 0 →
  c_main fuel w
  = Ret 0 w' [EvCall POAGetCameraCount camera_count;
              EvStdout ("camera count: " +:+ pretty camera_count +:+ endl);
              EvStdout ("there is no Player One Camera!" +:+ endl);
              EvGetchar].
Proof.
  intros Hcount Hle. unfold c_main. rewrite bind_call, Hcount. simpl.
  unfold printf. rewrite bind_emit. by rewrite bool_decide_true by done.
Qed.

Lemma getALLCameraIDName_run w :
  ∃ camera_count w' t,
    getALLCameraIDName w
    = Ret (list_to_map (listed_cameras t)) w'
        (EvCall POAGetCameraCount camera_count :: t)
    ∧ Forall (λ e, is_properties e = true) t.
Proof.
  unfold getALLCameraIDName, for_upto. unfold bind at 1, call at 1.
  destruct (sdk _ POAGetCameraCount w) as [camera_count w1].
  destruct (getALLCameraIDName_loop (Z.to_nat camera_count) 0 ∅ w1)
    as (m & w' & t & -> & Hprops & _ & ->).
  exists camera_count, w', t. by rewrite (left_id_L ∅ (∪)).
Qed.

(** X4. When no camera can be read (the count is zero or less, or
    [POAGetCameraProperties] fails for every index), [main.cpp] makes the
    calls of [getALLCameraIDName] and no other, prints nothing, waits for a
    key and returns 0. *)
Theorem cpp_main_no_camera fuel w :
  listed_cameras (trace_of (getALLCameraIDName w)) = [] →
  ∃ w', cpp_main fuel w = Ret 0 w' (trace_of (getALLCameraIDName w) ++ [EvGetchar]).
Proof.
  intros Hnone. unfold cpp_main. unfold bind at 1.
  destruct (getALLCameraIDName_run w) as (camera_count & w' & t & Hrun & _).
  rewrite Hrun in *. simpl in Hnone. change (listed_cameras t = []) in Hnone.
  rewrite Hnone. simpl.
  exists w'. unfold map_entries. rewrite map_to_list_empty. simpl.
  unfold bind, ret, getchar, emit. simpl. by rewrite ?app_nil_r.
Qed.

(** ** The list of cameras of [main.c] *)

(** X5. The list of cameras that [main.c] builds has one entry for every
    device index from 0 up to the count, in this order, whether the
    properties of the index could be read or not: the entry is what
    [POAGetCameraProperties] left.  So the entry of index 0 that the program
    goes on with is there whenever the count is positive.  The listing makes
    no other call, and prints two lines for an index that was read and one
    for an index that was not. *)
Theorem c_list_cameras_keeps_every_answer camera_count w :
  ∃ ppPOACamProp w' t,
    c_list_cameras camera_count w = Ret ppPOACamProp w' t
    ∧ omap asked_index t = seqZ 0 camera_count
    ∧ ppPOACamProp = omap properties_left t
    ∧ length ppPOACamProp = Z.to_nat camera_count
    ∧ (0 < camera_count → is_Some (ppPOACamProp !! 0%nat))
    ∧ Forall (λ e, is_call e = true → is_properties e = true) t
    ∧ length (List.filter is_stdout t)
      = (2 * length (listed_cameras t) + n_failed_calls t)%nat.
Proof.
  unfold c_list_cameras, for_upto.
  match goal with |- context [for_from _ _ ?b] => set (body := b) end.
  assert (∀ n i l0 w, ∃ l w' t,
    for_from n i body l0 w = Ret (l0 ++ l) w' t
    ∧ omap asked_index t = seqZ i (Z.of_nat n)
    ∧ l = omap properties_left t
    ∧ length l = n
    ∧ Forall (λ e, is_call e = true → is_properties e = true) t
    ∧ length (List.filter is_stdout t)
      = (2 * length (listed_cameras t) + n_failed_calls t)%nat) as Hloop.
  { clear. intros n. induction n as [|n IH]; intros i l0 w.
    - exists [], w, []. simpl. unfold ret. rewrite app_nil_r.
      repeat split; constructor.
    - simpl. unfold bind at 1. unfold body at 1. unfold bind at 1 2, call at 1.
      destruct (sdk _ (POAGetCameraProperties i) w) as [[error prop] w1].
      rewrite seqZ_succ.
      destruct (IH (i + 1) (l0 ++ [prop]) w1)
        as (l & w' & t & Hrun & Hasked & Hl & Hlen & Hcalls & Hout).
      exists (prop :: l), w'.
      unfold printf, emit, ret.
      destruct (is_ok error) eqn:E; simpl; rewrite Hrun.
      all: eexists; rewrite <- app_assoc; (split; [reflexivity|]).
      all: unfold listed_cameras, n_failed_calls in *; simpl.
      all: unfold not_ok; rewrite E; simpl.
      all: split; [by f_equal|]; split; [by f_equal|]; split; [by f_equal|].
      all: split; [by repeat constructor|].
      all: unfold omap in Hout; lia. }
  destruct (Hloop (Z.to_nat camera_count) 0 [] w)
    as (l & w' & t & Hrun & Hasked & Hl & Hlen & Hcalls & Hout).
  exists l, w', t. split; [done|]. split.
  { rewrite Hasked. unfold seqZ. by rewrite Nat2Z.id. }
  split; [done|]. split; [done|]. split; [|done].
  intros Hpos. apply lookup_lt_is_Some. lia.
Qed.

(** ** How [main.c] ends *)

Lemma c_list_cameras_run camera_count w :
  ∃ ppPOACamProp w' t,
    c_list_cameras camera_count w = Ret ppPOACamProp w' t
    ∧ ppPOACamProp = omap properties_left t
    ∧ length ppPOACamProp = Z.to_nat camera_count
    ∧ Forall (λ e, is_properties e = true ∨ is_stdout e = true) t.
Proof.
  unfold c_list_cameras, for_upto.
  match goal with |- context [for_from _ _ ?b] => set (body := b) end.
  assert (∀ n i l0 w, ∃ l w' t,
    for_from n i body l0 w = Ret (l0 ++ l) w' t
    ∧ l = omap properties_left t
    ∧ length l = n
    ∧ Forall (λ e, is_properties e = true ∨ is_stdout e = true) t) as Hloop.
  { clear. intros n. induction n as [|n IH]; intros i l0 w.
    - exists [], w, []. simpl. unfold ret. rewrite app_nil_r.
      repeat split; constructor.
    - simpl. unfold bind at 1. unfold body at 1. unfold bind at 1 2, call at 1.
      destruct (sdk _ (POAGetCameraProperties i) w) as [[error prop] w1].
      destruct (IH (i + 1) (l0 ++ [prop]) w1)
        as (l & w' & t & Hrun & Hl & Hlen & Hcalls).
      exists (prop :: l), w'.
      unfold printf, emit, ret.
      destruct (is_ok error) eqn:E; simpl; rewrite Hrun.
      all: eexists; rewrite <- app_assoc; (split; [reflexivity|]).
      all: simpl; split; [by f_equal|]; split; [by f_equal|].
      all: repeat (constructor; [by (left + right)|]); done. }
  destruct (Hloop (Z.to_nat camera_count) 0 [] w)
    as (l & w' & t & Hrun & Hl & Hlen & Hcalls).
  by exists l, w', t.
Qed.

Lemma c_operate_closes fuel prop :
  triple (Forall under_way) (c_operate fuel prop)
    (λ _ t, ∃ t0 error,
       t = t0 ++ [EvCall (POACloseCamera (cameraID prop)) error;
                  EvStdout ("camera closed! " +:+ endl)]
       ∧ Forall under_way t0)
    (Forall under_way).
Proof.
  unfold c_operate.
  repeat (eapply triple_bind;
          [solve [apply (triple_quiet _ _ under_way);
                  [intros t t' ??; by apply Forall_app|done|quiet]]|next]).
  intros w t0 Hpre. rewrite bind_call. unfold printf, emit. simpl.
  by eexists _, _.
Qed.

Lemma c_main_rest_closes fuel prop config_count :
  triple (Forall under_way)
    (bind (c_list_configs (cameraID prop) config_count) (λ _,
       bind (c_operate fuel prop) (λ _, bind getchar (λ _, ret 0))))
    (λ z t, z = 0 ∧ closed_and_done t)
    (Forall under_way).
Proof.
  eapply triple_bind.
  { apply (triple_quiet _ _ under_way);
      [intros t t' ??; by apply Forall_app|done|quiet]. }
  intros ?. eapply triple_bind; [apply c_operate_closes|].
  intros [] w t (t0 & error & -> & Ht0). unfold getchar, emit, bind, ret. simpl.
  split; [done|]. exists t0, (cameraID prop), error.
  by rewrite <- !app_assoc.
Qed.

(** X6. [main.c] returns 0 whenever it returns, and it does so in one of
    three ways.  It found no camera, and waited for a key.  Or one of
    [POAOpenCamera], [POAInitCamera] and [POAGetConfigsCount] failed: the
    failed call and the line that reports it are the last events of the run,
    which has neither closed the camera nor waited for a key.  Or it went
    through: the last events are the call of [POACloseCamera], the line
    "camera closed!" and the wait for a key, none of the three setup calls
    failed, and the camera was not closed before.  A run that is still inside
    one of its loops has not closed the camera. *)
Theorem c_main_outcomes fuel w : c_main_outcome (c_main fuel w).
Proof.
  unfold c_main. rewrite bind_call.
  destruct (sdk _ POAGetCameraCount w) as [camera_count w1]. simpl.
  unfold printf at 1. rewrite bind_emit.
  case_bool_decide as Hcount.
  { simpl. split; [done|]. left. exists camera_count. eexists _, _.
    split; [reflexivity|lia]. }
  destruct (c_list_cameras_run camera_count w1)
    as (l & w2 & t2 & Hrun & Hl & Hlen & Hcalls).
  unfold bind at 1. rewrite Hrun.
  destruct (l !! 0%nat) as [prop|] eqn:Hprop; cycle 1.
  { apply lookup_ge_None in Hprop. lia. }
  set (t0 := EvCall POAGetCameraCount camera_count
             :: EvStdout ("camera count: " +:+ pretty camera_count +:+ endl) :: t2).
  assert (Forall under_way t0) as Ht0.
  { apply Forall_cons. split; [done|]. apply Forall_cons. split; [done|].
    eapply Forall_impl; [exact Hcalls|].
    intros e [He|He]; destruct e as [R c r| | | | | | |]; try done.
    by destruct c. }
  rewrite bind_call.
  destruct (sdk _ (POAOpenCamera _) w2) as [error3 w3]. simpl.
  destruct (not_ok error3) eqn:E3.
  { unfold printf, emit, bind, ret. simpl. split; [done|]. right. left.
    exists t0, (EvCall (POAOpenCamera (cameraID prop)) error3), error3.
    eexists. split; [done|]. split; [done|].
    split; [simpl; by rewrite E3|]. split; [|done]. by eexists _, _. }
  rewrite bind_call.
  destruct (sdk _ (POAInitCamera _) w3) as [error4 w4]. simpl.
  destruct (not_ok error4) eqn:E4.
  { unfold printf, emit, bind, ret. simpl. split; [done|]. right. left.
    exists (t0 ++ [EvCall (POAOpenCamera (cameraID prop)) error3]),
      (EvCall (POAInitCamera (cameraID prop)) error4), error4.
    eexists. split; [by rewrite <- app_assoc|]. split; [done|].
    split; [simpl; by rewrite E4|]. split; [by eexists _, _|].
    apply Forall_app. split; [done|].
    repeat constructor; simpl; by rewrite ?E3. }
  rewrite bind_call.
  destruct (sdk _ (POAGetConfigsCount _) w4) as [[error5 config_count] w5]. simpl.
  destruct (not_ok error5) eqn:E5.
  { unfold printf, emit, bind, ret. simpl. split; [done|]. right. left.
    exists (t0 ++ [EvCall (POAOpenCamera (cameraID prop)) error3;
                   EvCall (POAInitCamera (cameraID prop)) error4]),
      (EvCall (POAGetConfigsCount (cameraID prop)) (error5, config_count)), error5.
    eexists. split; [by rewrite <- app_assoc|]. split; [done|].
    split; [simpl; by rewrite E5|]. split; [by eexists _, _|].
    apply Forall_app. split; [done|].
    repeat constructor; simpl; by rewrite ?E3, ?E4. }
  set (t1 := t0 ++ [EvCall (POAOpenCamera (cameraID prop)) error3;
                    EvCall (POAInitCamera (cameraID prop)) error4;
                    EvCall (POAGetConfigsCount (cameraID prop))
                      (error5, config_count)]).
  assert (Forall under_way t1) as Ht1.
  { apply Forall_app. split; [done|].
    repeat constructor; simpl; by rewrite ?E3, ?E4, ?E5. }
  pose proof (c_main_rest_closes fuel prop config_count w5 t1 Ht1) as Hrest.
  destruct (bind (c_list_configs _ _) _ w5) as [z w6 t6|t6].
  - destruct Hrest as [-> Hdone]. split; [done|]. right. right.
    unfold t1, t0 in Hdone. by rewrite <- !app_assoc in Hdone.
  - unfold t1, t0 in Hrest. by rewrite <- !app_assoc in Hrest.
Qed.

(** ** The camera the examples operate *)

(** X7. [main.c] operates the camera of device index 0, whether its
    properties could be read or not: every call that names a camera names the
    camera ID that the first call of [POAGetCameraProperties] left.  A run
    that asks for no properties names no camera. *)
Theorem c_main_operates_first_device fuel w :
  operates_first_device (trace_of (c_main fuel w)).
Proof.
  unfold c_main. rewrite bind_call.
  destruct (sdk _ POAGetCameraCount w) as [camera_count w1]. simpl.
  unfold printf at 1. rewrite bind_emit.
  case_bool_decide as Hcount.
  { unfold operates_first_device. simpl. repeat constructor; by intros. }
  destruct (c_list_cameras_run camera_count w1)
    as (l & w2 & t2 & Hrun & Hl & Hlen & Hcalls).
  unfold bind at 1. rewrite Hrun.
  destruct (l !! 0%nat) as [prop|] eqn:Hprop; cycle 1.
  { apply lookup_ge_None in Hprop. lia. }
  match goal with
  | |- context [bind (call (POAOpenCamera ?id)) ?k w2] =>
      set (rest := bind (call (POAOpenCamera id)) k);
      assert (obeys (Forall (names_only (cameraID prop))) rest) as Hrest
        by (unfold rest; unfold_mains; unfold_methods;
            solve_obeys ltac:(repeat constructor; simpl; intros; by simplify_eq));
      specialize (Hrest w2); destruct (rest w2) as [z w3 t3|t3]
  end.
  all: unfold operates_first_device, first_device; simpl; rewrite omap_app, <- Hl.
  all: destruct l as [|prop' l]; simplify_eq/=.
  all: repeat constructor; try done.
  all: apply Forall_app; split; [|done].
  all: eapply Forall_impl; [exact Hcalls|].
  all: intros e [He|He]; destruct e as [R c r| | | | | | |]; try done.
  all: by destruct c.
Qed.

#[local] Instance key_le_total : Total key_le.
Proof. intros a b. unfold key_le. lia. Qed.

#[local] Instance key_le_transitive : Transitive key_le.
Proof. intros a b c. unfold key_le. lia. Qed.

Lemma map_entries_ascending (m : gmap Z string) : ascending (map_entries m).
Proof.
  unfold ascending, map_entries.
  assert (NoDup (merge_sort key_le (map_to_list m)).*1) as Hdup.
  { rewrite merge_sort_Permutation. apply NoDup_fst_map_to_list. }
  assert (StronglySorted key_le (merge_sort key_le (map_to_list m))) as Hsorted
    by apply (StronglySorted_merge_sort _).
  induction Hsorted as [|a l _ IH Ha]; [constructor|].
  apply NoDup_cons in Hdup as [Hnotin Hdup].
  constructor; [by apply IH|].
  apply Forall_forall. intros b Hb.
  rewrite Forall_forall in Ha. specialize (Ha b Hb). unfold key_le in Ha.
  assert (a.1 ≠ b.1); [|lia].
  intros Heq. apply Hnotin. rewrite Heq. apply list_elem_of_fmap. by exists b.
Qed.

Lemma map_entries_least (m : gmap Z string) iter l id model :
  map_entries m = iter :: l → m !! id = Some model → iter.1 ≤ id.
Proof.
  intros Hentries Hid. pose proof (map_entries_ascending m) as Hasc.
  rewrite Hentries in Hasc. apply StronglySorted_inv in Hasc as [_ Hiter].
  apply elem_of_map_to_list in Hid.
  assert ((id, model) ∈ iter :: l) as Hin.
  { rewrite <- Hentries. unfold map_entries. by rewrite merge_sort_Permutation. }
  apply elem_of_cons in Hin as [Heq|Hin]; [by rewrite <- Heq|].
  rewrite Forall_forall in Hiter. specialize (Hiter _ Hin). simpl in Hiter. lia.
Qed.

Lemma for_each_lines (l : list (Z * string)) w :
  for_each l (λ iter, cout (pretty iter.1 +:+ "  " +:+ iter.2 +:+ endl)) w
  = Ret () w (camera_line <$> l).
Proof.
  induction l as [|iter l IH]; [done|].
  simpl. unfold cout at 1. rewrite bind_emit, IH. done.
Qed.

Lemma cpp_operate_addressed fuel iter :
  obeys (Forall (addressed_to iter.1)) (cpp_operate fuel iter).
Proof. unfold_mains; unfold_methods; solve_obeys ltac:(by repeat constructor). Qed.

(** X8. [main.cpp] prints one line for every entry of the map that
    [getALLCameraIDName] returns, by ascending camera ID, and then operates
    the camera with the least ID of the map: every SDK call that follows the
    listing names that camera.  With an empty map nothing follows but the
    wait for a key. *)
Theorem cpp_main_lists_and_operates_least fuel w :
  ∃ camera_count w1 t1 t2,
    let allCameraIDName : gmap Z string := list_to_map (listed_cameras t1) in
    getALLCameraIDName w
    = Ret allCameraIDName w1 (EvCall POAGetCameraCount camera_count :: t1)
    ∧ trace_of (cpp_main fuel w)
      = EvCall POAGetCameraCount camera_count :: t1
        ++ (camera_line <$> map_entries allCameraIDName) ++ t2
    ∧ map_entries allCameraIDName ≡ₚ map_to_list allCameraIDName
    ∧ ascending (map_entries allCameraIDName)
    ∧ match map_entries allCameraIDName with
      | [] => t2 = [EvGetchar]
      | iter :: _ =>
          Forall (addressed_to iter.1) t2
          ∧ ∀ id model, allCameraIDName !! id = Some model → iter.1 ≤ id
      end.
Proof.
  destruct (getALLCameraIDName_run w) as (camera_count & w1 & t1 & Hrun & _).
  exists camera_count, w1, t1.
  set (m := list_to_map (listed_cameras t1) : gmap Z string) in *.
  unfold cpp_main. unfold bind at 1. rewrite Hrun.
  unfold bind at 1. rewrite for_each_lines.
  destruct (map_entries m) as [|iter l] eqn:Hentries.
  - exists [EvGetchar]. simpl. split; [done|]. split; [done|].
    split; [by rewrite <- Hentries; apply merge_sort_Permutation|].
    split; [constructor|done].
  - pose proof (cpp_operate_addressed fuel iter w1) as Haddr.
    exists (trace_of (bind (cpp_operate fuel iter)
                      (λ _, bind getchar (λ _, ret 0)) w1)).
    split; [done|]. split.
    { unfold bind at 1 3. destruct (cpp_operate fuel iter w1); simpl.
      - by rewrite <- ?app_assoc.
      - by rewrite <- ?app_assoc. }
    split; [by rewrite <- Hentries; apply merge_sort_Permutation|].
    split; [rewrite <- Hentries; apply map_entries_ascending|].
    split; [|intros id model; by apply (map_entries_least m iter l)].
    rewrite trace_bind. destruct (cpp_operate fuel iter w1); [|done].
    apply Forall_app. split; [done|]. by repeat constructor.
Qed.

(** ** The resolution [main.c] asks for *)

Lemma rem_buffer (a b : Z) :
  (a `quot` 4 * 4 * (b `quot` 2 * 2) * 2) `rem` 16 = 0.
Proof.
  replace (a `quot` 4 * 4 * (b `quot` 2 * 2) * 2)
    with (a `quot` 4 * (b `quot` 2) * 16) by lia.
  by apply Z.rem_mul.
Qed.

Ltac align :=
  repeat constructor; unfold aligned; simpl;
  repeat split; intros; simplify_eq/=;
  first [done | by apply Z.rem_mul | apply rem_buffer].


(** X9. [main.c] asks only for resolutions whose width is a multiple of 4
    and whose height is a multiple of 2, whatever size the SDK reported and
    also when the size could not be read; every pixel buffer it allocates,
    every size it passes to [POAGetImageData] and every size it writes to a
    file is therefore a multiple of 16 bytes. *)
Theorem c_main_asks_for_aligned_sizes fuel w :
  Forall aligned (trace_of (c_main fuel w)).
Proof.
  revert w. change (obeys (Forall aligned) (c_main fuel)).
  unfold_mains; unfold_methods. solve_obeys align.
Qed.


(** ** What [main.c] reports *)

Lemma obeys_reported_call {R A} silent (c : SdkCall R) (k : R → M A) :
  (∀ r w error,
     failure_of (EvCall c r) = Some error → silent (EvCall c r) = false →
     ∃ e t', trace_of (k r w) = e :: t' ∧ names_error error e) →
  (∀ r, obeys (reported silent) (k r)) →
  obeys (reported silent) (bind (call c) k).
Proof.
  intros Hhead Hk. apply obeys_call_bind. intros r w.
  split; [|apply Hk].
  destruct (failure_of (EvCall c r)) as [error|] eqn:Hfail; [|done].
  destruct (silent (EvCall c r)) eqn:Hsilent; [done|].
  by destruct (Hhead r w error Hfail Hsilent) as (e & t' & -> & He).
Qed.

Lemma not_ok_is_ok error : not_ok error = true → is_ok error = false.
Proof. unfold not_ok. by destruct (is_ok error). Qed.

(** The line that follows a failed call names its status. *)
Ltac head_line :=
  let r := fresh "r" in
  let w := fresh "w" in
  let error := fresh "error" in
  let Hfail := fresh "Hfail" in
  let Hsilent := fresh "Hsilent" in
  let Hnot := fresh "Hnot" in
  intros r w error Hfail Hsilent;
  first
    [ discriminate Hsilent
    | discriminate Hfail
    | repeat match goal with r : (_ * _)%type |- _ => destruct r end;
      simpl in Hfail;
      match type of Hfail with
      | (if not_ok ?e then _ else _) = _ =>
          destruct (not_ok e) eqn:Hnot; [|discriminate Hfail];
          injection Hfail as <-;
          pose proof (not_ok_is_ok _ Hnot);
          rewrite ?trace_bind;
          repeat match goal with
                 | H : not_ok _ = true |- _ => rewrite !H
                 | H : is_ok _ = false |- _ => rewrite !H
                 end;
          unfold when, printf, emit; rewrite ?trace_bind; simpl;
          eexists _, _; (split; [reflexivity|]);
          lazymatch goal with
          | |- names_error ?err (_ (?pre +:+ POAGetErrorString ?err +:+ ?post)) =>
              exists pre, post; reflexivity
          | |- names_error ?err
                 (_ (?a +:+ ?b +:+ ?c +:+ POAGetErrorString ?err +:+ ?post)) =>
              exists (a +:+ b +:+ c), post; by rewrite !string_app_assoc
          end
      end ].

Ltac solve_reported :=
  repeat first
    [ progress intros
    | match goal with |- Sequential _ => apply _ end
    | apply obeys_reported_call; [head_line|]
    | step_obeys
    | apply obeys_emit; done
    | match goal with
      | |- obeys _ (match ?x with _ => _ end) => destruct x
      end ].

(** ** The sensor modes *)

(** X11. [main.c] asks for the number of sensor modes and does not look at
    the status of the call.  With a count of zero or less it says that the
    camera has no sensor modes and makes no other call.  With a positive
    count it asks for the description of every mode from 0 up to the count,
    printing one line for each that could be read and nothing for the others,
    then reads the current mode, and then sets the mode of index 1, whatever
    the count: also when the camera has a single mode. *)
Theorem c_sensor_mode_sets_index_1 id w :
  ∃ error senModeCount w' t,
    c_sensor_mode id w
    = Ret () w' (EvCall (POAGetSensorModeCount id) (error, senModeCount) :: t)
    ∧ if bool_decide (senModeCount ≤ 0)
      then t = [EvStdout ("This camera does not support sensor mode setting "
                          +:+ endl)]
      else ∃ t1 error1 modeIndex error2,
        t = t1 ++ [EvCall (POAGetSensorMode id) (error1, modeIndex);
                   EvStdout ("Get current sensor mode index: "
                             +:+ pretty modeIndex +:+ " " +:+ endl);
                   EvCall (POASetSensorMode id 1) error2;
                   EvStdout ("Set sensor mode index to " +:+ pretty 1 +:+ " "
                             +:+ endl)]
        ∧ modes_listed senModeCount t1.
Proof.
  unfold c_sensor_mode. rewrite bind_call.
  destruct (sdk _ (POAGetSensorModeCount id) w) as [[error senModeCount] w1].
  exists error, senModeCount. simpl.
  case_bool_decide as Hcount.
  { unfold printf, emit. by eexists _, _. }
  unfold for_upto.
  match goal with |- context [for_from _ _ ?b] => set (body := b) end.
  assert (∀ n i w, ∃ w' t,
    for_from n i body () w = Ret () w' t
    ∧ omap asked_mode t = seqZ i (Z.of_nat n)
    ∧ Forall (λ e, is_call e = true → is_mode_info e = true) t
    ∧ Forall (λ e, is_call e = true ∨ is_stdout e = true) t
    ∧ length (List.filter is_stdout t)
      = (length (List.filter is_mode_info t) - n_failed_calls t)%nat
    ∧ (n_failed_calls t ≤ length (List.filter is_mode_info t))%nat) as Hloop.
  { clear. intros n. induction n as [|n IH]; intros i w.
    - exists w, []. simpl. unfold ret. repeat split; constructor.
    - simpl. unfold bind at 1. unfold body at 1. unfold bind at 1, call at 1.
      destruct (sdk _ (POAGetSensorModeInfo id i) w) as [[error info] w1].
      rewrite seqZ_succ.
      destruct (IH (i + 1) w1) as (w' & t & Hrun & Hasked & Hcalls & Hev & Hout & Hle).
      assert (not_ok error = negb (is_ok error)) as Hnot by done.
      unfold when, printf, emit, ret.
      destruct (is_ok error) eqn:E; simpl; rewrite Hrun.
      all: eexists _, _; (split; [reflexivity|]).
      all: unfold n_failed_calls in *; simpl; rewrite Hnot; simpl.
      all: split; [by f_equal|].
      all: split; [by repeat constructor|].
      all: split; [repeat (constructor; [by (left + right)|]); done|].
      all: lia. }
  destruct (Hloop (Z.to_nat senModeCount) 0 w1)
    as (w2 & t1 & Hrun & Hasked & Hcalls & Hev & Hout & _).
  unfold bind at 1. rewrite Hrun. rewrite bind_call.
  destruct (sdk _ (POAGetSensorMode id) w2) as [[error1 modeIndex] w3]. simpl.
  unfold printf at 1. rewrite bind_emit, bind_call.
  destruct (sdk _ (POASetSensorMode id 1) w3) as [error2 w4]. simpl.
  unfold printf, emit. eexists _, _. split; [reflexivity|].
  exists t1, error1, modeIndex, error2. split; [done|].
  split; [|done]. rewrite Hasked. unfold seqZ. by rewrite Z2Nat.id by lia.
Qed.
(** ** Programs that come to an end, and programs that do not *)

Section Live.

Context (Inv : World → Prop) (Hkept : kept Inv).

Local Abbreviation any := (λ _, True).

Lemma live_ret {A} (a : A) (Q : A → Prop) : Q a → live Inv (ret a) Q.
Proof. intros HQ w Hw. by exists a, w, []. Qed.

Lemma live_emit e : live Inv (emit e) any.
Proof. intros w Hw. by exists (), w, [e]. Qed.

Lemma live_call {R} (c : SdkCall R) : live Inv (call c) any.
Proof.
  intros w Hw. unfold call. pose proof (Hkept R c w Hw) as Hw'.
  destruct (sdk R c w) as [r w']. by exists r, w', [EvCall c r].
Qed.

Lemma live_bind {A B} (m : M A) (f : A → M B) (P : A → Prop) (Q : B → Prop) :
  live Inv m P → (∀ a, P a → live Inv (f a) Q) → live Inv (bind m f) Q.
Proof.
  intros Hm Hf w Hw. destruct (Hm w Hw) as (a & w1 & t1 & Hrun & Hw1 & Ha).
  destruct (Hf a Ha w1 Hw1) as (b & w2 & t2 & Hrun' & Hw2 & Hb).
  exists b, w2, (t1 ++ t2). unfold bind. by rewrite Hrun, Hrun'.
Qed.

Lemma live_bind_any {A B} (m : M A) (f : A → M B) (Q : B → Prop) :
  live Inv m any → (∀ a, live Inv (f a) Q) → live Inv (bind m f) Q.
Proof. intros Hm Hf. eapply live_bind; [exact Hm|]. intros a _. apply Hf. Qed.

Lemma live_when (b : bool) (m : M unit) : live Inv m any → live Inv (when b m) any.
Proof. destruct b; [done|]. intros _. by apply live_ret. Qed.

Lemma live_for_from {S} n i (body : Z → S → M S) s :
  (∀ j s', live Inv (body j s') any) → live Inv (for_from n i body s) any.
Proof.
  intros Hbody. revert i s. induction n as [|n IH]; intros i s; simpl.
  - by apply live_ret.
  - apply live_bind_any; [apply Hbody|]. intros s'. apply IH.
Qed.

Lemma live_for_upto {S} count (body : Z → S → M S) s :
  (∀ j s', live Inv (body j s') any) → live Inv (for_upto count body s) any.
Proof. apply live_for_from. Qed.

Lemma live_for_each {A} (l : list A) (body : A → M unit) :
  (∀ x, live Inv (body x) any) → live Inv (for_each l body) any.
Proof.
  intros Hbody. induction l as [|x l IH]; simpl.
  - by apply live_ret.
  - apply live_bind_any; [apply Hbody|]. intros _. apply IH.
Qed.

Lemma hangs_bind_l {A B} (m : M A) (f : A → M B) :
  hangs Inv m → hangs Inv (bind m f).
Proof.
  intros Hm w Hw. destruct (Hm w Hw) as (t & Hrun).
  exists t. unfold bind. by rewrite Hrun.
Qed.

Lemma hangs_bind_r {A B} (m : M A) (f : A → M B) :
  live Inv m any → (∀ a, hangs Inv (f a)) → hangs Inv (bind m f).
Proof.
  intros Hm Hf w Hw. destruct (Hm w Hw) as (a & w1 & t1 & Hrun & Hw1 & _).
  destruct (Hf a w1 Hw1) as (t2 & Hrun').
  exists (t1 ++ t2). unfold bind. by rewrite Hrun, Hrun'.
Qed.

End Live.

Ltac step_live Hkept :=
  first
    [ apply live_ret; exact I
    | apply live_emit
    | apply (live_call _ Hkept)
    | apply live_when
    | apply live_for_from | apply live_for_upto | apply live_for_each
    | apply live_bind_any ].

Ltac solve_live_with Hkept known :=
  repeat first
    [ progress intros
    | known
    | step_live Hkept
    | match goal with
      | |- live _ (match ?x with _ => _ end) _ => destruct x
      end ].

Ltac solve_live Hkept := solve_live_with Hkept ltac:(fail).

(** ** [main.cpp] when no image ever comes *)

Section Hangs.

Context (Inv : World → Prop) (Hkept : kept Inv) (Hnever : never_ready Inv).

Lemma isImgDataAvailable_never pCamera w :
  Inv w → ∃ w' t, isImgDataAvailable pCamera w = Ret false w' t ∧ Inv w'.
Proof.
  intros Hw. unfold isImgDataAvailable. rewrite bind_call.
  pose proof (Hnever (m_nCameraID pCamera) w Hw) as Hpoll.
  pose proof (Hkept _ (POAImageReady (m_nCameraID pCamera)) w Hw) as Hw'.
  destruct (sdk _ (POAImageReady _) w) as [[error ready] w']. simpl in *.
  unfold not_ok. destruct (is_ok error); simpl in *.
  - destruct ready; [|done]. by eexists _, _.
  - by eexists _, _.
Qed.

Lemma wait_image_hangs fuel pCamera : hangs Inv (wait_image fuel pCamera).
Proof.
  unfold wait_image.
  induction fuel as [|fuel IH]; intros w Hw; simpl.
  - destruct (isImgDataAvailable_never pCamera w Hw) as (w' & t & Hrun & Hw').
    unfold bind at 1. unfold bind at 1. rewrite Hrun. simpl. by eexists.
  - destruct (isImgDataAvailable_never pCamera w Hw) as (w' & t & Hrun & Hw').
    unfold bind at 1. unfold bind at 1. rewrite Hrun. simpl.
    rewrite bind_ret_l. destruct (IH w' Hw') as (t' & ->). by eexists.
Qed.

Lemma cpp_capture_hangs fuel pCamera img_cout :
  0 < img_cout → hangs Inv (cpp_capture fuel pCamera img_cout).
Proof.
  intros Hpos w Hw. unfold cpp_capture.
  destruct fuel as [|fuel]; simpl; rewrite bind_ret_l, bool_decide_true by lia.
  - by eexists.
  - unfold cpp_capture_frame at 1.
    destruct (wait_image_hangs (S fuel) pCamera w Hw) as (t & Hrun).
    unfold bind at 1. unfold bind at 1. rewrite Hrun. by eexists.
Qed.

Lemma cpp_operate_hangs fuel iter : hangs Inv (cpp_operate fuel iter).
Proof.
  unfold cpp_operate.
  repeat (apply hangs_bind_r;
          [solve [unfold_methods; solve_live Hkept]|intros]).
  apply hangs_bind_l. by apply cpp_capture_hangs.
Qed.

(** X12. If no poll ever lets [isImgDataAvailable] answer true, as when
    every SDK call fails, [main.cpp] does not come to an end once it has
    found a camera: the failure of [POAOpenCamera] and of the calls that
    follow is printed and the program goes on to its capture loop, where it
    polls for ever; however far the loops are unfolded, it has not
    returned. *)
Theorem cpp_main_waits_for_ever w :
  Inv w → listed_cameras (trace_of (getALLCameraIDName w)) ≠ [] →
  ∀ fuel, ∃ t, cpp_main fuel w = OutOfFuel t.
Proof.
  intros Hw Hlisted fuel.
  destruct (getALLCameraIDName_run w) as (camera_count & w1 & t1 & Hrun & _).
  assert (Inv w1) as Hw1.
  { assert (live Inv getALLCameraIDName (λ _, True)) as Hlive
      by (unfold getALLCameraIDName; solve_live Hkept).
    destruct (Hlive w Hw) as (? & ? & ? & Hrun' & ? & _).
    rewrite Hrun in Hrun'. by simplify_eq. }
  rewrite Hrun in Hlisted. simpl in Hlisted.
  change (listed_cameras t1 ≠ []) in Hlisted.
  set (m := list_to_map (listed_cameras t1) : gmap Z string) in *.
  unfold cpp_main. unfold bind at 1. rewrite Hrun.
  unfold bind at 1. rewrite for_each_lines.
  destruct (map_entries m) as [|iter l] eqn:Hentries.
  - exfalso. apply Hlisted.
    assert (map_to_list m = []) as Hempty.
    { apply Permutation_nil_r. rewrite <- Hentries. unfold map_entries.
      by rewrite merge_sort_Permutation. }
    apply map_to_list_empty_iff in Hempty.
    destruct (listed_cameras t1) as [|[id model] l]; [done|].
    unfold m in Hempty. simpl in Hempty.
    by apply insert_non_empty in Hempty.
  - destruct (cpp_operate_hangs fuel iter w1 Hw1) as (t & Hhang).
    unfold bind at 1. rewrite Hhang. by eexists.
Qed.

End Hangs.
(** ** [main.cpp] when the SDK delivers *)

Section Terminates.

Context (Inv : World → Prop) (Hkept : kept Inv).
Context (patience : World → nat) (p : nat).
Context (Hready : ready_within Inv patience p).
Context (Hfetch : fetch_succeeds Inv).

Lemma wait_image_live fuel pCamera :
  (p ≤ fuel)%nat → live Inv (wait_image fuel pCamera) (λ _, True).
Proof.
  intros Hfuel w Hw. unfold wait_image.
  assert (patience w ≤ fuel)%nat as Hle.
  { destruct (Hready 0 w Hw) as [? _]. lia. }
  clear Hfuel. revert w Hw Hle.
  induction fuel as [|fuel IH]; intros w Hw Hle; simpl.
  - unfold bind at 1. unfold bind at 1. unfold isImgDataAvailable at 1.
    rewrite bind_call.
    destruct (Hready (m_nCameraID pCamera) w Hw) as [_ Hpoll].
    pose proof (Hkept _ (POAImageReady (m_nCameraID pCamera)) w Hw) as Hw'.
    destruct (patience w); [|lia].
    destruct (sdk _ (POAImageReady _) w) as [[error ready] w'].
    simpl in *. injection Hpoll as -> ->.
    unfold not_ok, is_ok. rewrite bool_decide_true by done. simpl.
    by eexists _, _, _.
  - unfold bind at 1. unfold bind at 1. unfold isImgDataAvailable at 1.
    rewrite bind_call.
    destruct (Hready (m_nCameraID pCamera) w Hw) as [_ Hpoll].
    pose proof (Hkept _ (POAImageReady (m_nCameraID pCamera)) w Hw) as Hw'.
    destruct (sdk _ (POAImageReady _) w) as [[error ready] w'].
    simpl in *.
    destruct (not_ok error) eqn:E; simpl.
    + rewrite bind_ret_l. destruct (patience w) as [|k] eqn:Hk.
      { injection Hpoll as -> ->. unfold not_ok, is_ok in E.
        by rewrite bool_decide_true in E. }
      destruct (IH w' Hw') as (a & w2 & t2 & -> & Hw2 & _); [lia|].
      by eexists _, _, _.
    + destruct ready; simpl.
      * rewrite bind_ret_l. destruct (patience w) as [|k] eqn:Hk.
        { by injection Hpoll. }
        destruct (IH w' Hw') as (a & w2 & t2 & -> & Hw2 & _); [lia|].
        by eexists _, _, _.
      * by eexists _, _, _.
Qed.

Lemma getImageData_live pCamera size :
  live Inv (getImageData pCamera size) (λ r, r.1 = true).
Proof.
  unfold getImageData.
  apply (live_bind _ _ _ (λ _, True)); [unfold_methods; solve_live Hkept|].
  intros exposureUs _. unfold live. intros w Hw. rewrite bind_call.
  pose proof (Hfetch (m_nCameraID pCamera) size (exposureUs `quot` 1000 + 500) w Hw)
    as Hok.
  pose proof (Hkept _ (POAGetImageData (m_nCameraID pCamera) size
                         (exposureUs `quot` 1000 + 500)) w Hw) as Hw'.
  destruct (sdk _ (POAGetImageData _ _ _) w) as [[error buf] w'].
  simpl in *. subst error. eexists _, _, _. split; [reflexivity|].
  split; [done|]. simpl. unfold is_ok. by rewrite bool_decide_true.
Qed.

Lemma cpp_capture_frame_live fuel pCamera img_cout :
  (p ≤ fuel)%nat →
  live Inv (cpp_capture_frame fuel pCamera img_cout) (λ r, r = img_cout - 1).
Proof.
  intros Hfuel. unfold cpp_capture_frame.
  apply live_bind_any; [by apply wait_image_live|]. intros _.
  eapply live_bind; [apply getImageData_live|].
  intros [ok buf] Hok. simpl in Hok. subst ok. simpl.
  unfold cout.
  repeat (apply live_bind_any; [apply live_emit|intros]).
  by apply live_ret.
Qed.

Lemma cpp_capture_live fuel pCamera (n : nat) fuel' :
  (p ≤ fuel)%nat → (n ≤ fuel')%nat →
  live Inv (while fuel' (λ img_cout, ret (bool_decide (img_cout > 0)))
              (cpp_capture_frame fuel pCamera) (Z.of_nat n)) (λ _, True).
Proof.
  intros Hfuel. revert fuel'. induction n as [|n IH]; intros fuel' Hle.
  - destruct fuel'; cbn [while]; intros w Hw; rewrite bind_ret_l;
      rewrite bool_decide_false by lia; by eexists _, _, _.
  - destruct fuel' as [|fuel']; [lia|]. cbn [while]. intros w Hw.
    rewrite bind_ret_l, bool_decide_true by lia.
    destruct (cpp_capture_frame_live fuel pCamera (Z.of_nat (S n)) Hfuel w Hw)
      as (r & w1 & t1 & Hrun & Hw1 & ->).
    unfold bind at 1. rewrite Hrun.
    replace (Z.of_nat (S n) - 1) with (Z.of_nat n) by lia.
    destruct (IH fuel' ltac:(lia) w1 Hw1) as (a & w2 & t2 & -> & Hw2 & _).
    by eexists _, _, _.
Qed.

Lemma cpp_operate_live fuel iter :
  (p ≤ fuel)%nat → (10 ≤ fuel)%nat →
  live Inv (cpp_operate fuel iter) (λ _, True).
Proof.
  intros Hp Hfuel. unfold cpp_operate.
  repeat (apply live_bind_any;
          [solve [unfold_methods; solve_live Hkept]|intros]).
  apply live_bind_any; [ |].
  { unfold cpp_capture. by apply (cpp_capture_live fuel _ 10 fuel). }
  intros. unfold_methods. solve_live Hkept.
Qed.

(** X13. If the SDK has an image ready after [p] polls at most and every
    fetch succeeds, [main.cpp] comes to an end and returns 0 as soon as its
    loops may be unfolded [p] times and ten times; when it found a camera it
    has then written the ten files 10_raw8_image_data.bin down to
    1_raw8_image_data.bin. *)
Theorem cpp_main_terminates fuel w :
  Inv w → (p ≤ fuel)%nat → (10 ≤ fuel)%nat →
  ∃ w' t,
    cpp_main fuel w = Ret 0 w' t
    ∧ (listed_cameras t ≠ [] → (written t).*1 = raw8_name <$> countdown 10).
Proof.
  intros Hw Hp Hfuel.
  destruct (getALLCameraIDName_run w) as (camera_count & w1 & t1 & Hrun & Hprops).
  assert (Inv w1) as Hw1.
  { assert (live Inv getALLCameraIDName (λ _, True)) as Hlive
      by (unfold getALLCameraIDName; solve_live Hkept).
    destruct (Hlive w Hw) as (? & ? & ? & Hrun' & ? & _).
    rewrite Hrun in Hrun'. by simplify_eq. }
  set (m := list_to_map (listed_cameras t1) : gmap Z string) in *.
  unfold cpp_main. unfold bind at 1. rewrite Hrun.
  unfold bind at 1. rewrite for_each_lines.
  set (t0 := (EvCall POAGetCameraCount camera_count :: t1)
             ++ (camera_line <$> map_entries m)).
  assert (idle raw8_name t0) as Hidle.
  { apply idle_quiet; [apply (idle_quiet _ []); [apply idle_nil|]|].
    - constructor; [done|]. eapply Forall_impl; [exact Hprops|].
      intros e He. destruct e as [R c r| | | | | | |]; try done.
      by destruct c.
    - apply Forall_fmap. by apply Forall_true. }
  destruct (map_entries m) as [|iter l] eqn:Hentries.
  - unfold bind, ret, getchar, emit. simpl. eexists _, _. split; [reflexivity|].
    intros Hlisted. exfalso. apply Hlisted.
    unfold listed_cameras. simpl. rewrite omap_app. simpl. rewrite app_nil_r.
    change (listed_cameras t1 = []).
    assert (map_to_list m = []) as Hempty.
    { apply Permutation_nil_r. rewrite <- Hentries. unfold map_entries.
      by rewrite merge_sort_Permutation. }
    apply map_to_list_empty_iff in Hempty.
    destruct (listed_cameras t1) as [|[id model] l]; [done|].
    unfold m in Hempty. simpl in Hempty.
    by apply insert_non_empty in Hempty.
  - destruct (cpp_operate_live fuel iter Hp Hfuel w1 Hw1)
      as ([] & w2 & t2 & Hop & Hw2 & _).
    pose proof (cpp_operate_captures fuel iter w1 t0 Hidle) as Hcap.
    rewrite Hop in Hcap.
    unfold bind at 1. rewrite Hop.
    unfold bind, ret, getchar, emit. simpl. eexists _, _. split; [reflexivity|].
    intros _. destruct Hcap as (_ & Hlen & Hwritten).
    match goal with
    | |- (written ?T).*1 = _ =>
        replace T with ((t0 ++ t2) ++ [EvGetchar])
          by (unfold t0; rewrite ?Hentries; simpl; by rewrite <- ?app_assoc)
    end.
    rewrite written_app, Hwritten.
    change (written [EvGetchar]) with (@nil (string * (Buffer * Z))).
    rewrite app_nil_r. apply files_of_names. rewrite Hlen. simpl. lia.
Qed.

End Terminates.
(** ** [main.c] when the SDK delivers *)

Section CTerminates.

Context (Inv : World → Prop) (Hkept : kept Inv).
Context (patience : World → nat) (p : nat).
Context (Hready : ready_within Inv patience p).
Context (Hfetch : fetch_succeeds Inv).
Context (busy : World → nat) (q : nat).
Context (Hsettles : settles_within Inv busy q).

Lemma c_wait_image_live fuel id :
  (p < fuel)%nat → live Inv (c_wait_image fuel id) (λ _, True).
Proof.
  intros Hfuel. unfold c_wait_image.
  assert (∀ fuel' s w, Inv w → (s = POA_FALSE → patience w < fuel')%nat →
    ∃ a w' t,
      while fuel' (λ pIsReady, ret (bool_decide (pIsReady = POA_FALSE)))
        (λ _, bind (call (POAImageReady id)) (λ '(_, pIsReady), ret pIsReady))
        s w = Ret a w' t ∧ Inv w' ∧ True) as Hloop.
  { intros fuel'. induction fuel' as [|fuel' IH]; intros s w Hw Hle;
      cbn [while]; rewrite bind_ret_l.
    - case_bool_decide as Hs; [specialize (Hle Hs); lia|]. by eexists _, _, _.
    - case_bool_decide as Hs; [|by eexists _, _, _]. specialize (Hle Hs).
      unfold bind at 1. rewrite bind_call.
      destruct (Hready id w Hw) as [_ Hpoll].
      pose proof (Hkept _ (POAImageReady id) w Hw) as Hw'.
      destruct (sdk _ (POAImageReady id) w) as [[error ready] w'].
      simpl in *.
      destruct (IH ready w' Hw') as (a & w2 & t2 & -> & Hw2 & _).
      { intros ->. destruct (patience w); [done|lia]. }
      by eexists _, _, _. }
  intros w Hw. apply Hloop; [done|]. intros _.
  destruct (Hready 0 w Hw) as [? _]. lia.
Qed.

Lemma c_capture_frame_live fuel id buffer_size exposure_us img_cout :
  (p < fuel)%nat →
  live Inv (c_capture_frame fuel id buffer_size exposure_us img_cout)
    (λ r, r = img_cout - 1).
Proof.
  intros Hfuel. unfold c_capture_frame.
  apply live_bind_any; [by apply c_wait_image_live|]. intros _.
  unfold live. intros w Hw. rewrite bind_call.
  pose proof (Hfetch id buffer_size (exposure_us `quot` 1000 + 500) w Hw) as Hok.
  pose proof (Hkept _ (POAGetImageData id buffer_size
                         (exposure_us `quot` 1000 + 500)) w Hw) as Hw'.
  destruct (sdk _ (POAGetImageData _ _ _) w) as [[error buf] w'].
  simpl in *. subst error.
  unfold not_ok, is_ok. rewrite bool_decide_true by done. simpl.
  by eexists _, _, _.
Qed.

Lemma c_capture_loop_live fuel id buffer_size exposure_us (n : nat) fuel' :
  (p < fuel)%nat → (n ≤ fuel')%nat →
  live Inv (while fuel' (λ img_cout, ret (bool_decide (img_cout > 0)))
              (c_capture_frame fuel id buffer_size exposure_us) (Z.of_nat n))
    (λ _, True).
Proof.
  intros Hfuel. revert fuel'. induction n as [|n IH]; intros fuel' Hle.
  - destruct fuel'; cbn [while]; intros w Hw; rewrite bind_ret_l;
      rewrite bool_decide_false by lia; by eexists _, _, _.
  - destruct fuel' as [|fuel']; [lia|]. cbn [while]. intros w Hw.
    rewrite bind_ret_l, bool_decide_true by lia.
    destruct (c_capture_frame_live fuel id buffer_size exposure_us
                (Z.of_nat (S n)) Hfuel w Hw)
      as (r & w1 & t1 & Hrun & Hw1 & ->).
    unfold bind at 1. rewrite Hrun.
    replace (Z.of_nat (S n) - 1) with (Z.of_nat n) by lia.
    destruct (IH fuel' ltac:(lia) w1 Hw1) as (a & w2 & t2 & -> & Hw2 & _).
    by eexists _, _, _.
Qed.

Lemma c_capture_live fuel id buffer_size exposure_us :
  (p < fuel)%nat → (10 ≤ fuel)%nat →
  live Inv (c_capture fuel id buffer_size exposure_us 10) (λ _, True).
Proof.
  intros Hp Hfuel. unfold c_capture.
  by apply (c_capture_loop_live fuel _ _ _ 10 fuel).
Qed.

Lemma c_video_frame_live fuel id buffer_size exposure_us count :
  (p < fuel)%nat →
  live Inv (c_video_frame fuel id buffer_size exposure_us count) (λ r, r = count).
Proof.
  intros Hfuel. unfold c_video_frame, printf.
  apply live_bind_any; [apply live_emit|]. intros _.
  apply live_bind_any; [by apply c_wait_image_live|]. intros _.
  apply live_bind_any; [apply (live_call _ Hkept)|]. intros [error buf].
  apply live_bind_any; [apply live_when, live_emit|]. intros _.
  by apply live_ret.
Qed.

Lemma c_video_live fuel id buffer_size exposure_us :
  (p < fuel)%nat → (20 < fuel)%nat →
  live Inv (c_video fuel id buffer_size exposure_us 0) (λ _, True).
Proof.
  intros Hp Hfuel. unfold c_video.
  apply live_bind_any; [|intros; by apply live_ret].
  assert (∀ (n : nat) fuel' count, count = 21 - Z.of_nat n → (n ≤ fuel')%nat →
    live Inv (while fuel' (λ count, ret (negb (bool_decide (count > 20))))
                (λ count, c_video_frame fuel id buffer_size exposure_us (count + 1))
                count) (λ _, True)) as Hloop.
  { intros n. induction n as [|n IH]; intros fuel' count Hcount Hle.
    - destruct fuel'; cbn [while]; intros w Hw; rewrite bind_ret_l;
        rewrite bool_decide_true by lia; by eexists _, _, _.
    - destruct fuel' as [|fuel']; [lia|]. cbn [while]. intros w Hw.
      rewrite bind_ret_l, bool_decide_false by lia. cbn [negb].
      destruct (c_video_frame_live fuel id buffer_size exposure_us (count + 1)
                  Hp w Hw) as (r & w1 & t1 & Hrun & Hw1 & ->).
      unfold bind at 1. rewrite Hrun.
      destruct (IH fuel' (count + 1) ltac:(lia) ltac:(lia) w1 Hw1)
        as (a & w2 & t2 & -> & Hw2 & _).
      by eexists _, _, _. }
  apply (Hloop 21%nat); lia.
Qed.

Lemma state_wait_live fuel id :
  (q ≤ fuel)%nat →
  live Inv
    (do_while fuel (λ cmeraState, ret (bool_decide (cmeraState = STATE_EXPOSING)))
       (bind (call (POAGetCameraState id)) (λ '(_, cmeraState), ret cmeraState)))
    (λ _, True).
Proof.
  intros Hfuel. unfold do_while.
  assert (∀ fuel' s w, Inv w → (s = STATE_EXPOSING → busy w < fuel')%nat →
    ∃ a w' t,
      while fuel' (λ cmeraState, ret (bool_decide (cmeraState = STATE_EXPOSING)))
        (λ _, bind (call (POAGetCameraState id)) (λ '(_, cmeraState), ret cmeraState))
        s w = Ret a w' t ∧ Inv w' ∧ True) as Hloop.
  { intros fuel'. induction fuel' as [|fuel' IH]; intros s w Hw Hle;
      cbn [while]; rewrite bind_ret_l.
    - case_bool_decide as Hs; [specialize (Hle Hs); lia|]. by eexists _, _, _.
    - case_bool_decide as Hs; [|by eexists _, _, _]. specialize (Hle Hs).
      unfold bind at 1. rewrite bind_call.
      destruct (Hsettles id w Hw) as [_ Hstate].
      pose proof (Hkept _ (POAGetCameraState id) w Hw) as Hw'.
      destruct (sdk _ (POAGetCameraState id) w) as [[error st] w'].
      simpl in *.
      destruct (IH st w' Hw') as (a & w2 & t2 & -> & Hw2 & _).
      { intros ->. destruct (busy w); [done|lia]. }
      by eexists _, _, _. }
  intros w Hw. unfold bind at 1. rewrite bind_call.
  destruct (Hsettles id w Hw) as [Hq Hstate].
  pose proof (Hkept _ (POAGetCameraState id) w Hw) as Hw'.
  destruct (sdk _ (POAGetCameraState id) w) as [[error st] w'].
  simpl in *.
  destruct (Hloop fuel st w' Hw') as (a & w2 & t2 & -> & Hw2 & _).
  { intros ->. destruct (busy w); [done|lia]. }
  by eexists _, _, _.
Qed.

Lemma c_operate_live fuel prop :
  (p < fuel)%nat → (q ≤ fuel)%nat → (20 < fuel)%nat →
  live Inv (c_operate fuel prop) (λ _, True).
Proof.
  intros Hp Hq Hfuel. unfold c_operate, c_cooler, c_sensor_mode, printf.
  solve_live_with Hkept
    ltac:(first [ apply c_capture_live; [done|lia]
                | by apply c_video_live
                | by apply state_wait_live ]).
Qed.

Lemma c_main_live fuel :
  (p < fuel)%nat → (q ≤ fuel)%nat → (20 < fuel)%nat →
  live Inv (c_main fuel) (λ r, r = 0).
Proof.
  intros Hp Hq Hfuel.
  unfold c_main, c_list_cameras, c_list_configs, printf, getchar.
  solve_live_with Hkept ltac:(by apply c_operate_live).
  all: by apply live_ret.
Qed.


End CTerminates.
(** ** [setROIArea] in terms of the other setters *)

(** X15. [setROIArea] behaves as [setImageSize] followed, if it succeeded,
    by [setImageStartPos]: the same SDK calls with the same arguments in the
    same order, the same lines on the error stream, the same result, and the
    same state of the SDK afterwards. *)
Theorem setROIArea_is_size_then_position this roiArea w :
  setROIArea this roiArea w
  = bind (setImageSize this (width roiArea) (height roiArea))
      (λ ok, if ok then setImageStartPos this (startX roiArea) (startY roiArea)
             else ret false) w.
Proof.
  unfold setROIArea, setImageSize, setImageStartPos, stop_if_exposing.
  unfold bind, call, cerr, emit, ret.
  destruct (sdk _ (POAGetCameraState _) w) as [[error0 cameraState] w0].
  destruct (bool_decide (cameraState = STATE_EXPOSING)).
  - destruct (sdk _ (POAStopExposure _) w0) as [error1 w1]. simpl.
    destruct (sdk _ (POASetImageSize _ _ _) w1) as [error2 w2].
    destruct (not_ok error2); simpl; [done|].
    destruct (sdk _ (POASetImageStartPos _ _ _) w2) as [error3 w3].
    by destruct (not_ok error3).
  - simpl.
    destruct (sdk _ (POASetImageSize _ _ _) w0) as [error2 w2].
    destruct (not_ok error2); simpl; [done|].
    destruct (sdk _ (POASetImageStartPos _ _ _) w2) as [error3 w3].
    by destruct (not_ok error3).
Qed.
(** ** The time limit of a fetch in [main.c] *)

Lemma timed_by_exposure_app cur t t' :
  timed_by_exposure cur (t ++ t')
  ↔ timed_by_exposure cur t ∧ timed_by_exposure (fold_left exposure_then t cur) t'.
Proof.
  revert cur. induction t as [|e t IH]; intros cur; simpl; [tauto|].
  rewrite IH. tauto.
Qed.

Lemma exposed_quiet cur t t' :
  exposed cur t →
  Forall (λ e, exposure_set e = None ∧ in_time cur e) t' →
  exposed cur (t ++ t').
Proof.
  intros [Htimed Hcur] Ht'. unfold exposed.
  rewrite timed_by_exposure_app, fold_left_app, Hcur.
  split; [split; [done|]|]; clear Htimed Hcur.
  - induction Ht' as [|e t' [Hset He] _ IH]; [done|].
    simpl. split; [done|]. unfold exposure_then. by rewrite Hset.
  - induction Ht' as [|e t' [Hset He] _ IH]; [done|].
    simpl. unfold exposure_then at 2. by rewrite Hset.
Qed.

Lemma triple_exposed {A} cur (m : M A) :
  obeys (Forall (λ e, exposure_set e = None ∧ in_time cur e)) m →
  triple (exposed cur) m (λ _, exposed cur) (timed_by_exposure None).
Proof.
  apply triple_quiet; [apply exposed_quiet|]. by intros t [??].
Qed.

Lemma triple_set_exposure {A} cur id expo isAuto (k : POAErrors → M A) Post :
  (∀ error, triple (exposed (Some expo)) (k error) Post (timed_by_exposure None)) →
  triple (exposed cur)
    (bind (call (POASetConfig id POA_EXPOSURE (arg_intValue expo) isAuto)) k)
    Post (timed_by_exposure None).
Proof.
  intros Hk. eapply triple_bind; [|apply Hk].
  intros w t [Htimed Hcur]. unfold call.
  destruct (sdk _ _ w) as [error w']. unfold exposed.
  rewrite timed_by_exposure_app, fold_left_app. simpl. by rewrite Hcur.
Qed.

Ltac timely :=
  unfold_mains; unfold_methods;
  solve_obeys ltac:(repeat (constructor; [split; [reflexivity|]; simpl;
                                          first [exact I | by eexists]|]);
                    constructor).

Lemma c_operate_timed fuel prop :
  triple (exposed None) (c_operate fuel prop)
    (λ _, timed_by_exposure None) (timed_by_exposure None).
Proof.
  unfold c_operate.
  repeat first
    [ apply triple_set_exposure; intros
    | eapply triple_bind; [solve [apply triple_exposed; timely]|next] ].
  eapply triple_conseq; [| |apply (triple_exposed (Some 100000)); timely].
  - by intros t ?.
  - by intros ? t [??].
Qed.

(** X16. In [main.c] every fetch is given the time limit that belongs to the
    exposure the program asked for last with [POASetConfig] and
    [POA_EXPOSURE], whether that call succeeded or not: the exposure in
    microseconds divided by 1000, plus 500.  No fetch is made before an
    exposure was asked for. *)
Theorem c_main_times_fetch_by_exposure fuel w :
  timed_by_exposure None (trace_of (c_main fuel w)).
Proof.
  assert (triple (exposed None) (c_main fuel)
            (λ _, timed_by_exposure None) (timed_by_exposure None)) as Hmain.
  { unfold c_main.
    repeat first
      [ progress intros
      | lazymatch goal with
        | |- context [c_operate] => fail
        | _ => solve [eapply triple_conseq; [| |apply (triple_exposed None); timely];
                      [done|by intros ? t [??]]]
        end
      | eapply triple_bind; [solve [apply (triple_exposed None); timely]|]
      | eapply triple_bind; [apply c_operate_timed|];
        intros; apply (triple_quiet _ _ (λ e, fetch_timeout e = None
                                              ∧ exposure_set e = None));
        [ intros t t' Ht Ht'; apply timed_by_exposure_app; split; [done|];
          clear Ht; generalize (fold_left exposure_then t None);
          induction Ht' as [|e t' [He He'] _ IH]; intros cur; [done|];
          split; [unfold in_time; by rewrite He|apply IH]
        | done
        | unfold_mains; unfold_methods; solve_obeys ltac:(by repeat constructor) ]
      | match goal with
        | |- triple _ (match ?x with _ => _ end) _ _ => destruct x
        end ]. }
  specialize (Hmain w [] ltac:(by split)).
  by destruct (c_main fuel w).
Qed.

(** ** What [main.cpp] reports *)

(** X17. In a run of [main.cpp] every failed SDK call is reported at once
    by a line on the error stream that carries the text of
    [POAGetErrorString] for its status, except for the calls of
    [POAGetCameraProperties], [POAGetCameraState], [POAStopExposure] (as
    made by [setImageSize] and [setImageFormat]), [POAImageReady] and
    [POAGetImageData]. *)
Theorem cpp_main_reports_failures fuel w :
  reported unreported_in_cpp (trace_of (cpp_main fuel w)).
Proof.
  revert w. change (obeys (reported unreported_in_cpp) (cpp_main fuel)).
  unfold_mains; unfold_methods. solve_reported.
Qed.

End Theory.

(** * Runs on the simulated SDK *)

#[local] Existing Instance Sim.header.
#[local] Existing Instance Sim.library.

(** C1 as stated fails: on an SDK whose [POAImageReady] comes back with
    status 4, [isImgDataAvailable] makes the call and prints nothing. *)
Lemma isImgDataAvailable_failure_unreported :
  trace_of Sim.run_isImgDataAvailable
    = [EvCall (H := Sim.header) (POAImageReady 7) (4, POA_TRUE)]
  ∧ ¬ reported (H := Sim.header) nobody (trace_of Sim.run_isImgDataAvailable).
Proof. split; [reflexivity|]. simpl. tauto. Qed.


(** C3 as stated fails, in two ways.  There is a time limit in the capture
    loop of [main.cpp]: every fetch is handed one, 600 for the exposure of
    100000 that the SDK reports.  And the video loop of [main.c] is not
    bounded by a count of images that goes down: on an SDK that fails every
    fetch it comes to an end all the same, after 21 fetches and with no
    frame, and its counter has gone up from 0 to 22. *)
Lemma fetch_timed_and_video_loop_counts_turns :
  omap fetch_timeout (trace_of (Sim.run_cpp_main 20 Sim.healthy))
    = replicate 10 600
  ∧ ¬ Forall (λ e, fetch_timeout e = None)
        (trace_of (Sim.run_cpp_main 20 Sim.healthy))
  ∧ match Sim.run_c_video with
    | Ret count _ t => count = 22 ∧ n_fetches t = 21%nat ∧ fetched t = []
    | OutOfFuel _ => False
    end
  ∧ ¬ counted Sim.run_c_video.
Proof.
  assert (omap fetch_timeout (trace_of (Sim.run_cpp_main 20 Sim.healthy))
          = replicate 10 600) as Htimed by (vm_compute; reflexivity).
  split; [exact Htimed|]. split.
  { assert (∀ t : list (Event (H := Sim.header)),
              Forall (λ e, fetch_timeout e = None) t →
              omap fetch_timeout t = []) as Hnil.
    { intros t. induction 1 as [|e t' He _ IH]; [reflexivity|].
      cbn [omap list_omap]. rewrite He. exact IH. }
    intros Hnone. apply Hnil in Hnone.
    rewrite Htimed in Hnone. discriminate Hnone. }
  split; [vm_compute; repeat split; reflexivity|].
  assert (∃ w t, Sim.run_c_video = Ret 22 w t) as (w & t & Hrun)
    by (eexists _, _; vm_compute; reflexivity).
  rewrite Hrun. intros [Hcount _]. discriminate Hcount.
Qed.

(** C10 as stated fails: when two devices report the same camera ID, both
    readable, the map has the model name of the first under this ID and the
    second has no entry of its own. *)
Lemma getALLCameraIDName_twins :
  match Sim.run_getALLCameraIDName Sim.twins with
  | Ret m _ t =>
      listed_cameras t = [(7, "Neptune-C"); (7, "Mars-M")]
      ∧ m !! 7 = Some "Neptune-C"
      ∧ ¬ entry_for_each m t
  | OutOfFuel _ => False
  end.
Proof.
  assert (∃ m w t, Sim.run_getALLCameraIDName Sim.twins = Ret m w t
            ∧ listed_cameras t = [(7, "Neptune-C"); (7, "Mars-M")]
            ∧ m !! 7 = Some "Neptune-C") as (m & w & t & -> & Ht & Hm).
  { eexists _, _, _. split; [vm_compute; reflexivity|].
    split; vm_compute; reflexivity. }
  split; [done|]. split; [done|].
  intros Hall. specialize (Hall 7 "Mars-M"). rewrite Ht, Hm in Hall.
  assert (Some "Neptune-C" = Some "Mars-M") as Heq
    by (apply Hall; apply list_elem_of_further, list_elem_of_here).
  discriminate Heq.
Qed.

(** C9 on the healthy SDK: the exposure and the gain come back as the SDK
    reports them. *)
Lemma get_config_error_sentinel_witness :
  (∃ t, getExposure (H := Sim.header) Sim.cam Sim.healthy = Ret 100000 Sim.healthy t)
  ∧ (∃ t, getGain (H := Sim.header) Sim.cam Sim.healthy = Ret 100000 Sim.healthy t).
Proof.
  destruct (get_config_error_sentinel (H := Sim.header) (World := Sim.World)
              Sim.cam Sim.healthy 0 (Sim.value 100000) POA_FALSE Sim.healthy
              0 (Sim.value 100000) POA_FALSE Sim.healthy eq_refl eq_refl)
    as (He & Hg & _).
  split; [exact He|exact Hg].
Defined.


(** On the healthy SDK the map has the two cameras that can be read. *)
Example healthy_run_cameras :
  match Sim.run_getALLCameraIDName Sim.healthy with
  | Ret m _ t =>
      listed_cameras t = [(7, "Neptune-C"); (3, "Mars-M")]
      ∧ m = {[ 7 := "Neptune-C"; 3 := "Mars-M" ]}
  | OutOfFuel _ => False
  end.
Proof. split; vm_compute; reflexivity. Qed.

(** The healthy SDK, run to the end by both programs: ten files each, named
    by the counter. *)
Example healthy_run_files :
  (written (trace_of (Sim.run_cpp_main 20 Sim.healthy))).*1
    = raw8_name <$> countdown 10
  ∧ (written (trace_of (Sim.run_c_main 30 Sim.healthy))).*1
    = raw16_name <$> countdown 10.
Proof. split; vm_compute; reflexivity. Qed.

(** An SDK that fails two fetches: the two turns of the loop are not
    counted, and ten files are written all the same. *)
Example flaky_run_files :
  length (List.filter is_fetch (trace_of (Sim.run_cpp_main 20 Sim.flaky))) = 12%nat
  ∧ (written (trace_of (Sim.run_cpp_main 20 Sim.flaky))).*1
    = raw8_name <$> countdown 10.
Proof. split; vm_compute; reflexivity. Qed.

(** On the broken SDK [isImgDataAvailable] never answers true and the wait
    never comes to an end, whatever the bound. *)
Example broken_run_waits :
  match cpp_main 100 Sim.broken with OutOfFuel _ => True | Ret _ _ _ => False end
  ∧ length (List.filter is_poll (trace_of (cpp_main 100 Sim.broken))) = 101%nat.
Proof. split; vm_compute; [exact I|reflexivity]. Qed.

(** * Runs on the simulated SDK, continued *)

(** X3 on an SDK without any camera. *)
Lemma c_main_no_camera_witness :
  c_main 0 Sim.nothing
  = Ret 0 Sim.nothing
      [EvCall POAGetCameraCount 0;
       EvStdout ("camera count: " +:+ pretty 0 +:+ endl);
       EvStdout ("there is no Player One Camera!" +:+ endl);
       EvGetchar].
Proof.
  apply (c_main_no_camera (H := Sim.header) 0 Sim.nothing 0 Sim.nothing);
    [reflexivity|lia].
Defined.

(** X4 on an SDK without any camera. *)
Lemma cpp_main_no_camera_witness :
  ∃ w', cpp_main 0 Sim.nothing
        = Ret 0 w' (trace_of (getALLCameraIDName Sim.nothing) ++ [EvGetchar]).
Proof.
  apply (cpp_main_no_camera (H := Sim.header) 0 Sim.nothing). reflexivity.
Defined.

Lemma broken_kept : kept (λ w : Sim.World, Sim.status w = 4).
Proof.
  intros R c w Hw. unfold sdk, Sim.library.
  destruct c; simpl; repeat case_match; simpl; done.
Qed.

(** X12 on the SDK whose every call fails. *)
Lemma cpp_main_waits_for_ever_witness :
  ∃ t, cpp_main 5 Sim.broken = OutOfFuel t.
Proof.
  apply (cpp_main_waits_for_ever (H := Sim.header)
           (λ w : Sim.World, Sim.status w = 4) broken_kept).
  - intros id w Hw. unfold sdk, Sim.library. simpl.
    destruct (Sim.polls_left w); simpl; unfold is_ok; simpl; rewrite Hw;
      reflexivity.
  - reflexivity.
  - vm_compute. discriminate.
Defined.
Lemma healthy_kept :
  kept (λ w : Sim.World,
          Sim.status w = 0 ∧ Sim.state w = 1 ∧ Sim.patience w = 2%nat
          ∧ (Sim.polls_left w ≤ 2)%nat ∧ Sim.fetch_failures w = 0%nat).
Proof.
  intros R c w (Hstatus & Hstate & Hpatience & Hpolls & Hfetch).
  unfold sdk, Sim.library.
  destruct c; simpl; repeat case_match; simpl; repeat split; try done; lia.
Qed.

Lemma healthy_ready :
  ready_within (H := Sim.header)
    (λ w : Sim.World,
       Sim.status w = 0 ∧ Sim.state w = 1 ∧ Sim.patience w = 2%nat
       ∧ (Sim.polls_left w ≤ 2)%nat ∧ Sim.fetch_failures w = 0%nat)
    Sim.polls_left 2.
Proof.
  intros id w (Hstatus & Hstate & Hpatience & Hpolls & Hfetch).
  split; [done|]. unfold sdk, Sim.library. simpl.
  destruct (Sim.polls_left w); simpl; [by rewrite Hstatus|lia].
Qed.

Lemma healthy_fetch :
  fetch_succeeds (H := Sim.header)
    (λ w : Sim.World,
       Sim.status w = 0 ∧ Sim.state w = 1 ∧ Sim.patience w = 2%nat
       ∧ (Sim.polls_left w ≤ 2)%nat ∧ Sim.fetch_failures w = 0%nat).
Proof.
  intros id size ms w (Hstatus & Hstate & Hpatience & Hpolls & Hfetch).
  unfold sdk, Sim.library. simpl. by rewrite Hfetch.
Qed.

(** X13 on the healthy SDK, which has an image ready at every third poll. *)
Lemma cpp_main_terminates_witness :
  ∃ w' t,
    cpp_main 10 Sim.healthy = Ret 0 w' t
    ∧ (listed_cameras t ≠ [] → (written t).*1 = raw8_name <$> countdown 10).
Proof.
  apply (cpp_main_terminates (H := Sim.header) _ healthy_kept
           Sim.polls_left 2 healthy_ready healthy_fetch 10 Sim.healthy).
  - repeat split; simpl; lia.
  - lia.
  - lia.
Defined.

Lemma healthy_settles :
  settles_within (H := Sim.header)
    (λ w : Sim.World,
       Sim.status w = 0 ∧ Sim.state w = 1 ∧ Sim.patience w = 2%nat
       ∧ (Sim.polls_left w ≤ 2)%nat ∧ Sim.fetch_failures w = 0%nat)
    (λ _, 0%nat) 0.
Proof.
  intros id w (Hstatus & Hstate & Hpatience & Hpolls & Hfetch).
  split; [done|]. unfold sdk, Sim.library. simpl. by rewrite Hstate.
Qed.

